(** * skyscribe: stroke geometry to waypoint path

    A shallow embedding of the numeric core of the repository:
    [path_transitions.py] (assembly at constant altitude, nearest-neighbour
    stroke ordering, kinematic mission time), [path_simplifier.py]
    (Douglas-Peucker simplification, corner detection) and
    [coord_transformer.py] (rotation followed by ENU-to-geodetic conversion),
    together with the grouping of font segments into paths of
    [font_extractor.py] and the mission items and validation of
    [mission_generator.py].

    Numbers.  The Python code computes with binary64 floats.  They are
    idealised here as real numbers: [+], [-], [*], [/], [sqrt], [arccos] are
    the exact operations of [R], comparisons are the decidable comparisons of
    [R], and [float('inf')] is an explicit top element.  Rounding, overflow
    and NaN are outside the model.

    Errors.  A Python call either returns a value or raises; this is the
    type [outcome] below.  Indexing an empty list raises [IndexError] and
    dividing one Python float by a zero one raises [ZeroDivisionError]. *)

From Stdlib Require Import String DecimalString.
From Stdlib Require Import Reals Lra Lia Arith ZArith Bool List Permutation.
From Equations Require Import Equations.
From Equations.Prop Require Import Logic.
Import ListNotations.

Local Open Scope R_scope.

(** ** Outcomes of a Python call *)

Inductive exn : Type :=
| IndexError
| ZeroDivisionError
| ConfigurationError.  (* named by the specification; no code path builds it *)

Inductive outcome (A : Type) : Type :=
| Returned (a : A)
| Raised (e : exn).

Arguments Returned {A} a.
Arguments Raised {A} e.

Definition bind {A B : Type} (m : outcome A) (k : A -> outcome B) : outcome B :=
  match m with
  | Returned a => k a
  | Raised e => Raised e
  end.

Notation "x <- m ;; k" := (bind m (fun x => k))
  (at level 61, m at next level, right associativity).

(** [for x in xs: s = body s x], stopping at the first exception. *)
Fixpoint for_each {A S : Type} (xs : list A) (s : S) (body : S -> A -> outcome S)
  : outcome S :=
  match xs with
  | [] => Returned s
  | x :: xs' => s' <- body s x ;; for_each xs' s' body
  end.

(** [range(lo, hi)] *)
Definition range (lo hi : nat) : list nat := seq lo (hi - lo).

(** ** Data model *)

Definition Point2D : Type := R * R.
Definition Stroke : Type := list Point2D.
Definition Waypoint3D : Type := R * R * R.

Definition origin : Point2D := (0, 0).
Definition origin3 : Waypoint3D := (0, 0, 0).

(** [w[0]], [w[1]], [w[2]] of a 3-tuple *)
Definition w0 (w : Waypoint3D) : R := fst (fst w).
Definition w1 (w : Waypoint3D) : R := snd (fst w).
Definition w2 (w : Waypoint3D) : R := snd w.

(** [l[0]] and [l[-1]]: both raise [IndexError] on the empty list. *)
Definition first_item {A : Type} (l : list A) : outcome A :=
  match l with
  | [] => Raised IndexError
  | x :: _ => Returned x
  end.

Definition last_item {A : Type} (l : list A) : outcome A :=
  match rev l with
  | [] => Raised IndexError
  | x :: _ => Returned x
  end.

(** [l[i]] for [0 <= i] *)
Definition item {A : Type} (l : list A) (i : nat) : outcome A :=
  match nth_error l i with
  | Some x => Returned x
  | None => Raised IndexError
  end.

(** [l.pop(i)] for [0 <= i]: the list without its [i]-th element. *)
Definition pop {A : Type} (l : list A) (i : nat) : outcome (list A) :=
  match nth_error l i with
  | Some _ => Returned (firstn i l ++ skipn (S i) l)
  | None => Raised IndexError
  end.

(** Truth value of a list: [not l] is [True] exactly on the empty list. *)
Definition truthy {A : Type} (l : list A) : bool :=
  match l with [] => false | _ :: _ => true end.

(** Division of two Python floats. *)
Definition float_div (x y : R) : outcome R :=
  if Req_dec_T y 0 then Raised ZeroDivisionError else Returned (x / y).

(** [int(x)] on a float that is already integral or non-negative is its floor. *)
Definition floor (x : R) : Z := Int_part x.

Definition str (z : Z) : string := NilZero.string_of_int (Z.to_int z).

(** [sum(l)], [max(l)] and [min(l)] on a list of floats.  [max] and [min]
    raise on the empty list; every call in the code is guarded by a test
    that the list is not empty, so the value given here for [[]] is never
    read. *)
Definition py_sum (l : list R) : R := fold_left Rplus l 0.

Definition py_max (l : list R) : R :=
  match l with
  | [] => 0
  | x :: rest => fold_left Rmax rest x
  end.

Definition py_min (l : list R) : R :=
  match l with
  | [] => 0
  | x :: rest => fold_left Rmin rest x
  end.

(** [l[a:b]] for [0 <= a] and [0 <= b] *)
Definition slice {A : Type} (l : list A) (a b : nat) : list A :=
  firstn (b - a) (skipn a l).

(** * path_transitions.py *)

Module PathTransitionHandler.

Record t : Type := {
  write_altitude : R;
  transit_altitude : R
}.

(** [__init__(self, write_altitude_m=30, transit_altitude_offset_m=10)] *)
Definition init (write_altitude_m transit_altitude_offset_m : R) : t :=
  {| write_altitude := write_altitude_m;
     transit_altitude := write_altitude_m + transit_altitude_offset_m |}.

(** The duplicate test of [add_transitions]:
    [prev_end[0] == curr_start[0] and prev_end[1] == curr_start[1]]. *)
Definition same_point (p q : Point2D) : bool :=
  if Req_dec_T (fst p) (fst q)
  then (if Req_dec_T (snd p) (snd q) then true else false)
  else false.

(** One iteration of [for i, path in enumerate(paths)].  The guards
    [if not path: continue] and [paths[i-1]] make both index accesses safe,
    so the defaults of [nth] and [last] are never read. *)
Definition add_transitions_body (self : t) (paths : list Stroke)
  (waypoints_3d : list Waypoint3D) (i : nat) : list Waypoint3D :=
  let path := nth i paths [] in
  if negb (truthy path) then waypoints_3d
  else
    let start_idx :=
      if (0 <? i)%nat && truthy (nth (i - 1) paths [])
      then
        let prev_end := last (nth (i - 1) paths []) origin in
        let curr_start := hd origin path in
        if same_point prev_end curr_start then 1%nat else 0%nat
      else 0%nat in
    waypoints_3d
      ++ map (fun p : Point2D => (fst p, snd p, write_altitude self))
             (skipn start_idx path).

Definition add_transitions (self : t) (paths : list Stroke) : list Waypoint3D :=
  if negb (truthy paths) then []
  else fold_left (add_transitions_body self paths)
                 (range 0 (length paths)) [].

(** [_point_distance] *)
Definition _point_distance (p1 p2 : Point2D) : R :=
  sqrt ((fst p1 - fst p2) ^ 2 + (snd p1 - snd p2) ^ 2).

(** The result dictionary of [calculate_mission_time]. *)
Record TimeEstimate : Type := {
  total_time_s : R;
  total_time_formatted : string;
  total_distance_m : R
}.

Definition segment_distance (prev curr : Waypoint3D) : R :=
  sqrt ((w0 curr - w0 prev) ^ 2 + (w1 curr - w1 prev) ^ 2
        + (w2 curr - w2 prev) ^ 2).

(** The time of one segment of length [dist].  [flight_speed_m_s] and
    [acceleration_m_s2] are Python floats, so the first division raises on a
    zero acceleration; [dist] is a NumPy scalar, so the later divisions do
    not raise.  At a zero speed NumPy's quotient [d_cruise / flight_speed_m_s]
    is infinite, which [R] does not have: the model stands for the code at
    non-zero speeds, and the statements about a returned estimate assume
    one. *)
Definition segment_time (dist flight_speed_m_s acceleration_m_s2 : R)
  : outcome R :=
  t_accel <- float_div flight_speed_m_s acceleration_m_s2 ;;
  let d_accel := 0.5 * acceleration_m_s2 * t_accel ^ 2 in
  let t_decel := t_accel in
  let d_decel := d_accel in
  if Rle_dec dist (d_accel + d_decel)
  then Returned (2 * sqrt (dist / acceleration_m_s2))
  else
    let d_cruise := dist - d_accel - d_decel in
    let t_cruise := d_cruise / flight_speed_m_s in
    Returned (t_accel + t_cruise + t_decel).

(** One iteration of [for i in range(1, len(waypoints_3d))] on the pair
    [(total_time, total_distance)]. *)
Definition mission_time_body (waypoints_3d : list Waypoint3D)
  (flight_speed_m_s acceleration_m_s2 : R) (acc : R * R) (i : nat)
  : outcome (R * R) :=
  let '(total_time, total_distance) := acc in
  let prev := nth (i - 1) waypoints_3d origin3 in
  let curr := nth i waypoints_3d origin3 in
  let dist := segment_distance prev curr in
  let total_distance := total_distance + dist in
  t <- segment_time dist flight_speed_m_s acceleration_m_s2 ;;
  Returned (total_time + t, total_distance).

Definition format_time (total_time : R) : string :=
  let minutes := floor (total_time / 60) in
  let seconds := floor (total_time - 60 * IZR minutes) in
  if (0 <? minutes)%Z
  then (str minutes ++ "m " ++ str seconds ++ "s")%string
  else (str seconds ++ "s")%string.

Definition calculate_mission_time (waypoints_3d : list Waypoint3D)
  (flight_speed_m_s acceleration_m_s2 : R) : outcome TimeEstimate :=
  if (length waypoints_3d <=? 1)%nat
  then Returned {| total_time_s := 0;
                   total_time_formatted := "0s";
                   total_distance_m := 0 |}
  else
    acc <- for_each (range 1 (length waypoints_3d)) (0, 0)
             (mission_time_body waypoints_3d flight_speed_m_s acceleration_m_s2) ;;
    let '(total_time, total_distance) := acc in
    Returned {| total_time_s := total_time;
                total_time_formatted := format_time total_time;
                total_distance_m := total_distance |}.

(** [enumerate(l)] *)
Definition enumerate {A : Type} (l : list A) : list (nat * A) :=
  combine (seq 0 (length l)) l.

(** [dist < min_dist], where [min_dist] starts as [float('inf')] ([None]). *)
Definition below (dist : R) (min_dist : option R) : bool :=
  match min_dist with
  | None => true
  | Some m => if Rlt_dec dist m then true else false
  end.

(** One iteration of [for i, path in enumerate(remaining)] on the pair
    [(min_dist, nearest_idx)]; a negative index marks a reversal. *)
Definition scan_body (current_end : Point2D) (st : option R * Z)
  (ip : nat * Stroke) : outcome (option R * Z) :=
  let '(min_dist, nearest_idx) := st in
  let '(i, path) := ip in
  path_0 <- first_item path ;;
  let dist := _point_distance current_end path_0 in
  path_last <- last_item path ;;
  let dist_reverse := _point_distance current_end path_last in
  if Rlt_dec dist_reverse dist
  then
    let dist := dist_reverse in
    if below dist min_dist
    then Returned (Some dist, (- Z.of_nat i - 1)%Z)
    else Returned (min_dist, nearest_idx)
  else
    if below dist min_dist
    then Returned (Some dist, Z.of_nat i)
    else Returned (min_dist, nearest_idx).

(** The body of [while remaining]. *)
Definition nn_step (ordered remaining : list Stroke)
  : outcome (list Stroke * list Stroke) :=
  ordered_last <- last_item ordered ;;
  current_end <- last_item ordered_last ;;
  st <- for_each (enumerate remaining) (None, 0%Z) (scan_body current_end) ;;
  let nearest_idx := snd st in
  if (nearest_idx <? 0)%Z
  then
    let path_idx := Z.to_nat (- nearest_idx - 1) in
    path <- item remaining path_idx ;;
    remaining' <- pop remaining path_idx ;;
    Returned (ordered ++ [rev path], remaining')
  else
    path <- item remaining (Z.to_nat nearest_idx) ;;
    remaining' <- pop remaining (Z.to_nat nearest_idx) ;;
    Returned (ordered ++ [path], remaining').

Lemma pop_length {A : Type} (l l' : list A) (i : nat) :
  pop l i = Returned l' -> S (length l') = length l.
Proof.
  unfold pop. destruct (nth_error l i) eqn:E; [| discriminate].
  assert (i < length l)%nat by (apply nth_error_Some; congruence).
  assert (S (length (firstn i l ++ skipn (S i) l)) = length l)
    by (rewrite length_app, length_firstn, length_skipn; lia).
  intros Heq. injection Heq as <-. assumption.
Qed.

Lemma nn_step_length ordered remaining ordered' remaining' :
  nn_step ordered remaining = Returned (ordered', remaining') ->
  S (length remaining') = length remaining.
Proof.
  unfold nn_step.
  destruct (last_item ordered) as [ol |]; [cbn [bind] | discriminate].
  destruct (last_item ol) as [ce |]; [cbn [bind] | discriminate].
  destruct (for_each _ _ _) as [st |]; [cbn [bind] | discriminate].
  destruct (snd st <? 0)%Z.
  - destruct (item _ _); [cbn [bind] | discriminate].
    destruct (pop _ _) eqn:E; [cbn [bind] | discriminate].
    intros [= _ <-]. eapply pop_length, E.
  - destruct (item _ _); [cbn [bind] | discriminate].
    destruct (pop _ _) eqn:E; [cbn [bind] | discriminate].
    intros [= _ <-]. eapply pop_length, E.
Qed.

(** [while remaining: ...]; every iteration pops one stroke. *)
Equations? nn_loop (ordered remaining : list Stroke) : outcome (list Stroke)
  by wf (length remaining) lt :=
nn_loop ordered [] := Returned ordered;
nn_loop ordered (r :: rs) with inspect (nn_step ordered (r :: rs)) := {
  | exist _ (Raised e) _ := Raised e
  | exist _ (Returned (ordered', remaining')) Hstep := nn_loop ordered' remaining' }.
Proof. apply nn_step_length in Hstep. cbn [length] in Hstep. lia. Qed.

(** [_nearest_neighbor_order] *)
Definition _nearest_neighbor_order (paths : list Stroke) : outcome (list Stroke) :=
  if negb (truthy paths) then Returned []
  else
    paths_0 <- first_item paths ;;
    let ordered := [paths_0] in
    let remaining := skipn 1 paths in
    nn_loop ordered remaining.

(** The [method] argument: the two strings the code tests for, and any
    other string. *)
Inductive method_t : Type := original | nearest_neighbor | other_method.

Definition is_original (method : method_t) : bool :=
  match method with original => true | _ => false end.

Definition is_nearest_neighbor (method : method_t) : bool :=
  match method with nearest_neighbor => true | _ => false end.

(** [optimize_stroke_order(self, paths, method='nearest_neighbor')] *)
Definition optimize_stroke_order (paths : list Stroke) (method : method_t)
  : outcome (list Stroke) :=
  if is_original method || (length paths <=? 1)%nat then Returned paths
  else if is_nearest_neighbor method then _nearest_neighbor_order paths
  else Returned paths.

(** The result dictionary of [calculate_transition_stats]. *)
Record TransitionStats : Type := {
  num_transitions : nat;
  total_transition_distance : R;
  avg_transition_distance : R;
  max_transition_distance : R
}.

(** One iteration of [for i in range(1, len(paths))] on [distances]. *)
Definition transition_stats_body (paths : list Stroke) (distances : list R)
  (i : nat) : outcome (list R) :=
  paths_prev <- item paths (i - 1) ;;
  prev_end <- last_item paths_prev ;;
  paths_i <- item paths i ;;
  curr_start <- first_item paths_i ;;
  let dist := _point_distance prev_end curr_start in
  Returned (distances ++ [dist]).

(** [calculate_transition_stats]; [np.mean] is the sum over the count. *)
Definition calculate_transition_stats (paths : list Stroke)
  : outcome TransitionStats :=
  if (length paths <=? 1)%nat
  then Returned {| num_transitions := 0;
                   total_transition_distance := 0;
                   avg_transition_distance := 0;
                   max_transition_distance := 0 |}
  else
    distances <- for_each (range 1 (length paths)) []
                   (transition_stats_body paths) ;;
    Returned {| num_transitions := length distances;
                total_transition_distance := py_sum distances;
                avg_transition_distance :=
                  if truthy distances
                  then py_sum distances / INR (length distances) else 0;
                max_transition_distance :=
                  if truthy distances then py_max distances else 0 |}.

End PathTransitionHandler.

(** * path_simplifier.py *)

Module PathSimplifier.

Record t : Type := {
  epsilon : R;
  letter_height_m : R
}.

(** [__init__(self, epsilon=None, letter_height_m=20)] *)
Definition init (epsilon : option R) (letter_height_m : R) : t :=
  {| epsilon := match epsilon with
                | None => letter_height_m * 0.02
                | Some e => e
                end;
     letter_height_m := letter_height_m |}.

(** Modelled from the spec: [simplify_coords] comes from the external
    [simplification] package, whose code is not part of the repository.  The
    specification describes it as a Douglas-Peucker reduction: find the point
    of maximum perpendicular distance from the line joining the first and
    the last point; if that distance exceeds [epsilon], keep the point and
    process both halves; otherwise collapse to the two endpoints.

    [perpendicular_distance p a b] is the distance from [p] to the line
    through [a] and [b] (to the point [a] when [a] and [b] coincide). *)
Definition perpendicular_distance (p a b : Point2D) : R :=
  let dx := fst b - fst a in
  let dy := snd b - snd a in
  let norm := sqrt (dx ^ 2 + dy ^ 2) in
  if Req_dec_T norm 0
  then sqrt ((fst p - fst a) ^ 2 + (snd p - snd a) ^ 2)
  else Rabs (dx * (snd a - snd p) - (fst a - fst p) * dy) / norm.

(** Modelled from the spec: the interior index of maximum perpendicular
    distance, with that distance; among equal maxima the first one. *)
Definition farthest_body (points : list Point2D) (best : nat * R) (i : nat)
  : nat * R :=
  let d := perpendicular_distance (nth i points origin)
             (hd origin points) (last points origin) in
  if Rgt_dec d (snd best) then (i, d) else best.

(** Modelled from the spec: the scan [for i in range(2, len(points) - 1)]
    for that index, started at the first interior point. *)
Definition farthest (points : list Point2D) : nat * R :=
  fold_left (farthest_body points) (range 2 (length points - 1))
    (1%nat, perpendicular_distance (nth 1 points origin)
              (hd origin points) (last points origin)).

Lemma farthest_fold_bounds points idxs best lo hi :
  (lo <= fst best <= hi)%nat ->
  Forall (fun i => lo <= i <= hi)%nat idxs ->
  (lo <= fst (fold_left (farthest_body points) idxs best) <= hi)%nat.
Proof.
  intros Hb Hall. revert best Hb.
  induction Hall as [| i idxs Hi _ IH]; intros best Hb; cbn [fold_left].
  - exact Hb.
  - apply IH. unfold farthest_body. destruct (Rgt_dec _ _); cbn [fst]; lia.
Qed.

Lemma farthest_bounds points :
  (2 < length points)%nat ->
  (1 <= fst (farthest points) <= length points - 2)%nat.
Proof.
  intros Hlen. unfold farthest. apply farthest_fold_bounds.
  - cbn [fst]. lia.
  - apply Forall_forall. intros i Hi. unfold range in Hi.
    apply in_seq in Hi. lia.
Qed.

(** Modelled from the spec: the Douglas-Peucker recursion.  The two halves
    share the kept point, which appears once in the result. *)
Equations? rdp (points : list Point2D) (eps : R) : list Point2D
  by wf (length points) lt :=
rdp points eps with le_lt_dec (length points) 2 := {
  | left _ := points
  | right Hlen with inspect (farthest points) := {
      | exist _ (index, dmax) Hfar with Rgt_dec dmax eps := {
          | left _ :=
              removelast (rdp (firstn (S index) points) eps)
                ++ rdp (skipn index points) eps
          | right _ := [hd origin points; last points origin] } } }.
Proof.
  all: pose proof (farthest_bounds points Hlen) as Hb;
       rewrite Hfar in Hb; cbn [fst] in Hb.
  - change (length (firstn (S index) points) < length points)%nat.
    rewrite length_firstn. lia.
  - rewrite length_skipn. lia.
Qed.

(** Modelled from the spec: [simplify_coords(points, epsilon)] is that
    recursion on the whole polyline. *)
Definition simplify_coords (points : list Point2D) (epsilon : R)
  : list Point2D :=
  rdp points epsilon.

(** [simplify_path] *)
Definition simplify_path (self : t) (points : list Point2D) : list Point2D :=
  if (length points <? 3)%nat then points
  else simplify_coords points (epsilon self).

(** [np.clip(x, lo, hi)] and [np.degrees(x)] *)
Definition clip (x lo hi : R) : R := Rmin (Rmax x lo) hi.
Definition degrees (x : R) : R := x * (180 / PI).

(** [np.linalg.norm] and [np.dot] on 2-vectors; [p - q] on 2-arrays *)
Definition norm (v : Point2D) : R := sqrt (fst v ^ 2 + snd v ^ 2).
Definition dot (u v : Point2D) : R := fst u * fst v + snd u * snd v.
Definition vsub (p q : Point2D) : Point2D := (fst p - fst q, snd p - snd q).

Definition is_zero (x : R) : bool := if Req_dec_T x 0 then true else false.

(** One iteration of [for i in range(1, len(points) - 1)]. *)
Definition detect_corners_body (points : list Point2D) (angle_threshold : R)
  (corners : list nat) (i : nat) : list nat :=
  let p1 := nth (i - 1) points origin in
  let p2 := nth i points origin in
  let p3 := nth (i + 1) points origin in
  let v1 := vsub p1 p2 in
  let v2 := vsub p3 p2 in
  let v1_norm := norm v1 in
  let v2_norm := norm v2 in
  if is_zero v1_norm || is_zero v2_norm then corners
  else
    let cos_angle := dot v1 v2 / (v1_norm * v2_norm) in
    let cos_angle := clip cos_angle (-1) 1 in
    let angle_deg := degrees (acos cos_angle) in
    if Rgt_dec angle_deg angle_threshold then corners ++ [i] else corners.

(** [_detect_corners] *)
Definition _detect_corners (points : list Point2D) (angle_threshold : R)
  : list nat :=
  fold_left (detect_corners_body points angle_threshold)
            (range 1 (length points - 1)) [].

(** [simplify_paths] *)
Definition simplify_paths (self : t) (paths : list (list Point2D))
  : list (list Point2D) :=
  map (simplify_path self) paths.

(** One iteration of [for corner_idx in corner_indices + [len(points)]] on
    the pair [(segments, start_idx)]. *)
Definition corner_split_body (self : t) (points : list Point2D)
  (st : list (list Point2D) * nat) (corner_idx : nat)
  : list (list Point2D) * nat :=
  let '(segments, start_idx) := st in
  let segment := slice points start_idx (corner_idx + 1) in
  let segments :=
    if (2 <=? length segment)%nat
    then
      let simplified_segment := simplify_path self segment in
      if truthy segments && (0 <? length simplified_segment)%nat
      then segments ++ [skipn 1 simplified_segment]
      else segments ++ [simplified_segment]
    else segments in
  (segments, corner_idx).

(** [simplify_with_corner_preservation] *)
Definition simplify_with_corner_preservation (self : t)
  (points : list Point2D) (corner_angle_threshold : R) : list Point2D :=
  if (length points <? 3)%nat then points
  else
    let corner_indices := _detect_corners points corner_angle_threshold in
    if negb (truthy corner_indices) then simplify_path self points
    else
      let '(segments, _) :=
        fold_left (corner_split_body self points)
                  (corner_indices ++ [length points]) ([], 0%nat) in
      fold_left (fun result seg => result ++ seg) segments [].

(** [get_recommended_epsilon] *)
Definition get_recommended_epsilon (letter_height_m : R) : R :=
  if Rle_dec letter_height_m 10 then 0.2
  else if Rle_dec letter_height_m 20 then 0.4
  else if Rle_dec letter_height_m 50 then 0.75
  else 1.5.

End PathSimplifier.

(** * coord_transformer.py *)

Module CoordinateTransformer.

Section Geodesy.

(** [pymap3d.enu2geodetic(e, n, u, lat0, lon0, h0)], an external library
    function returning [(lat, lon, alt_msl)]. *)
Variable enu2geodetic : R -> R -> R -> R -> R -> R -> R * R * R.

Record t : Type := {
  home_lat : R;
  home_lon : R;
  home_alt : R;
  rotation_deg : R;
  cos_r : R;
  sin_r : R
}.

(** [np.radians] *)
Definition radians (deg : R) : R := deg * (PI / 180).

(** [__init__(self, home_lat, home_lon, home_alt=0.0, rotation_deg=0.0)] *)
Definition init (home_lat home_lon home_alt rotation_deg : R) : t :=
  let rad := radians rotation_deg in
  {| home_lat := home_lat;
     home_lon := home_lon;
     home_alt := home_alt;
     rotation_deg := rotation_deg;
     cos_r := cos rad;
     sin_r := sin rad |}.

(** The rotation branch of [local_to_gps]. *)
Definition rotated (self : t) (x y : R) : R * R :=
  (x * cos_r self - y * sin_r self, x * sin_r self + y * cos_r self).

Definition nonzero (x : R) : bool := if Req_dec_T x 0 then false else true.

(** [local_to_gps] *)
Definition local_to_gps (self : t) (x y altitude : R) : R * R * R :=
  let '(rotated_x, rotated_y) :=
    if nonzero (rotation_deg self) then rotated self x y else (x, y) in
  let '(lat, lon, alt_msl) :=
    enu2geodetic rotated_x rotated_y altitude
      (home_lat self) (home_lon self) (home_alt self) in
  let alt_relative := altitude in
  (lat, lon, alt_relative).

(** [path_to_gps] *)
Definition path_to_gps (self : t) (path : list Point2D) (altitude : R)
  : list (R * R * R) :=
  fold_left
    (fun gps_path (p : Point2D) =>
       let '(lat, lon, alt) := local_to_gps self (fst p) (snd p) altitude in
       gps_path ++ [(lat, lon, alt)])
    path [].

(** [get_bounds] *)
Definition get_bounds (paths : list (list Point2D)) : R * R * R * R :=
  let all_points := fold_left (fun all path => all ++ path) paths [] in
  if negb (truthy all_points) then (0, 0, 0, 0)
  else
    let xs := map fst all_points in
    let ys := map snd all_points in
    (py_min xs, py_max xs, py_min ys, py_max ys).

End Geodesy.

End CoordinateTransformer.

(** * font_extractor.py *)

Module FontExtractor.

(** A line segment of the Hershey font, [((x1, y1), (x2, y2))].  The
    segments of a text come from the external [HersheyFonts] package; the
    functions below take the list [self.font.lines_for_text(text)] as their
    argument. *)
Definition Line : Type := Point2D * Point2D.

Definition no_line : Line := (origin, origin).

(** [extract_strokes] *)
Definition extract_strokes (lines : list Line) : list Stroke :=
  fold_left (fun strokes (l : Line) => strokes ++ [[fst l; snd l]]) lines [].

(** One iteration of [for i in range(1, len(lines))] on the pair
    [(paths, current_path)]. *)
Definition continuous_body (lines : list Line)
  (st : list Stroke * Stroke) (i : nat) : list Stroke * Stroke :=
  let '(paths, current_path) := st in
  let prev_end := snd (nth (i - 1) lines no_line) in
  let curr_start := fst (nth i lines no_line) in
  let distance := sqrt ((fst curr_start - fst prev_end) ^ 2
                        + (snd curr_start - snd prev_end) ^ 2) in
  if Rlt_dec distance 0.1
  then (paths, current_path ++ [snd (nth i lines no_line)])
  else (paths ++ [current_path],
        [fst (nth i lines no_line); snd (nth i lines no_line)]).

(** [extract_continuous_paths] *)
Definition extract_continuous_paths (lines : list Line) : list Stroke :=
  if negb (truthy lines) then []
  else
    let paths : list Stroke := [] in
    let current_path :=
      [fst (nth 0 lines no_line); snd (nth 0 lines no_line)] in
    let '(paths, current_path) :=
      fold_left (continuous_body lines) (range 1 (length lines))
                (paths, current_path) in
    if truthy current_path then paths ++ [current_path] else paths.

End FontExtractor.

(** * mission_generator.py *)

Module MissionGenerator.

Record t : Type := {
  acceptance_radius : R;
  flight_speed : R
}.

(** [__init__(self, acceptance_radius_m=1.5, flight_speed_m_s=3.0)] *)
Definition init (acceptance_radius_m flight_speed_m_s : R) : t :=
  {| acceptance_radius := acceptance_radius_m;
     flight_speed := flight_speed_m_s |}.

(** A mission item dictionary; a parameter is a number or [None]. *)
Record MissionItem : Type := {
  item_type : string;
  command : nat;
  frame : nat;
  autoContinue : bool;
  doJumpId : nat;
  params : list (option R)
}.

(** [_create_mission_item] *)
Definition _create_mission_item (command frame item_id : nat)
  (params : list (option R)) : MissionItem :=
  {| item_type := "SimpleItem";
     command := command;
     frame := frame;
     autoContinue := true;
     doJumpId := item_id;
     params := params |}.

(** [create_waypoint_item(self, lat, lon, alt, item_id, hold_time=0,
    yaw=None, is_fly_through=True)] *)
Definition create_waypoint_item (self : t) (lat lon alt : R) (item_id : nat)
  (hold_time : R) (yaw : option R) (is_fly_through : bool) : MissionItem :=
  _create_mission_item 16 3 item_id
    [Some hold_time; Some (acceptance_radius self);
     Some (if is_fly_through then acceptance_radius self else 0);
     yaw; Some lat; Some lon; Some alt].

(** [create_takeoff_item(self, lat, lon, alt, item_id=1, min_pitch=0,
    yaw=None)] *)
Definition create_takeoff_item (lat lon alt : R) (item_id : nat)
  (min_pitch : R) (yaw : option R) : MissionItem :=
  _create_mission_item 22 3 item_id
    [Some min_pitch; Some 0; Some 0; yaw; Some lat; Some lon; Some alt].

(** [create_rtl_item] *)
Definition create_rtl_item (item_id : nat) : MissionItem :=
  _create_mission_item 20 2 item_id
    [Some 0; Some 0; Some 0; Some 0; Some 0; Some 0; Some 0].

(** [create_speed_item] *)
Definition create_speed_item (speed_m_s : R) (item_id : nat) : MissionItem :=
  _create_mission_item 178 2 item_id
    [Some 1; Some speed_m_s; Some (-1); Some 0; Some 0; Some 0; Some 0].

(** The ["mission"] dictionary of a plan. *)
Record Mission : Type := {
  cruiseSpeed : R;
  firmwareType : nat;
  globalPlanAltitudeMode : nat;
  hoverSpeed : R;
  items : list MissionItem;
  plannedHomePosition : list R;
  vehicleType : nat;
  mission_version : nat
}.

(** The plan dictionary.  The geofence and the rally points are empty
    constants ([circles], [polygons] and [points] are [[]], both versions
    are 2) and are omitted. *)
Record Plan : Type := {
  fileType : string;
  groundStation : string;
  mission : Mission;
  version : nat
}.

(** The part of [generate_plan] that builds [mission_items]: the pair
    [(mission_items, item_id)] after the loop over the waypoints. *)
Definition waypoint_items (self : t) (gps_waypoints : list (R * R * R))
  (st : list MissionItem * nat) : list MissionItem * nat :=
  fold_left
    (fun (st : list MissionItem * nat) (wp : R * R * R) =>
       let '(mission_items, item_id) := st in
       let '(lat, lon, alt) := wp in
       (mission_items
          ++ [create_waypoint_item self lat lon alt item_id 0 None true],
        (item_id + 1)%nat))
    gps_waypoints st.

Definition mission_items_of (self : t) (gps_waypoints : list (R * R * R))
  (home_position : R * R * R) (include_takeoff include_rtl : bool)
  : list MissionItem :=
  let mission_items : list MissionItem := [] in
  let item_id := 1%nat in
  let '(mission_items, item_id) :=
    if include_takeoff
    then
      (mission_items
         ++ [create_takeoff_item (w0 home_position) (w1 home_position)
               (if truthy gps_waypoints
                then w2 (nth 0 gps_waypoints origin3) else 30)
               item_id 0 None],
       (item_id + 1)%nat)
    else (mission_items, item_id) in
  let mission_items :=
    mission_items ++ [create_speed_item (flight_speed self) item_id] in
  let item_id := (item_id + 1)%nat in
  let '(mission_items, item_id) :=
    waypoint_items self gps_waypoints (mission_items, item_id) in
  if include_rtl
  then mission_items ++ [create_rtl_item item_id]
  else mission_items.

(** [generate_plan]: the plan that is written to [output_file] as JSON, and
    the returned file name.  Writing the file is not modelled. *)
Definition generate_plan (self : t) (gps_waypoints : list (R * R * R))
  (home_position : R * R * R) (output_file : string)
  (include_takeoff include_rtl : bool) : Plan * string :=
  let mission_items :=
    mission_items_of self gps_waypoints home_position
      include_takeoff include_rtl in
  let plan :=
    {| fileType := "Plan";
       groundStation := "QGroundControl";
       mission :=
         {| cruiseSpeed := flight_speed self;
            firmwareType := 12;
            globalPlanAltitudeMode := 1;
            hoverSpeed := flight_speed self;
            items := mission_items;
            plannedHomePosition :=
              [w0 home_position; w1 home_position; w2 home_position];
            vehicleType := 2;
            mission_version := 2 |};
       version := 1 |} in
  (plan, output_file).

(** The messages of [validate_mission], each with the values it
    interpolates; their rendering as text is not modelled. *)
Inductive issue : Type :=
| TooManyWaypoints (count max_waypoints : nat)
| NoWaypoints
| LargeAltitudeVariation (variation : R).

(** [validate_mission(self, gps_waypoints, max_waypoints=500)] *)
Definition validate_mission (gps_waypoints : list (R * R * R))
  (max_waypoints : nat) : bool * list issue :=
  let issues : list issue := [] in
  let issues :=
    if (max_waypoints <? length gps_waypoints)%nat
    then issues ++ [TooManyWaypoints (length gps_waypoints) max_waypoints]
    else issues in
  let issues :=
    if (length gps_waypoints =? 0)%nat
    then issues ++ [NoWaypoints]
    else issues in
  let issues :=
    if truthy gps_waypoints
    then
      let altitudes := map w2 gps_waypoints in
      if Rgt_dec (py_max altitudes - py_min altitudes) 1000
      then issues ++ [LargeAltitudeVariation
                        (py_max altitudes - py_min altitudes)]
      else issues
    else issues in
  ((length issues =? 0)%nat, issues).

End MissionGenerator.

(** * The vocabulary of the statements *)

Module TransitionSpec.

Import PathTransitionHandler.

(** ** The scenario and the failure the specification asks for *)

(** The stroke set of the self-test of [path_transitions.py]. *)
Definition test_paths : list Stroke :=
  [ [(0, 0); (10, 0); (10, 10)];
    [(20, 0); (20, 10); (30, 10)];
    [(40, 0); (40, 10)] ].

(** The scenario of the specification, with the expected total distance and
    the tolerance read for "approximately" left open. *)
Definition scenario (expected_distance tolerance : R) : Prop :=
  let waypoints_3d := add_transitions (init 30 10) test_paths in
  length waypoints_3d = 8%nat
  /\ Forall (fun w => w2 w = 30) waypoints_3d
  /\ exists r,
       calculate_mission_time waypoints_3d 3 3 = Returned r
       /\ Rabs (total_distance_m r - expected_distance) <= tolerance
       /\ 0 < total_time_s r.

(** What the specification asks of invalid configuration. *)
Definition fails_fast {A : Type} (o : outcome A) : Prop :=
  o = Raised ConfigurationError.

End TransitionSpec.

Module CornerSpec.

Import PathSimplifier.

(** ** Angles at an interior point *)

(** The angle the code measures at [p2]: between the reversed incoming
    vector [p1 - p2] and the outgoing vector [p3 - p2], in degrees. *)
Definition measured_angle_deg (p1 p2 p3 : Point2D) : R :=
  let v1 := vsub p1 p2 in
  let v2 := vsub p3 p2 in
  degrees (acos (clip (dot v1 v2 / (norm v1 * norm v2)) (-1) 1)).

(** The turn angle at [p2], the deviation from going straight: the angle
    between the incoming direction [p2 - p1] and the outgoing direction
    [p3 - p2], in degrees. *)
Definition turn_angle_deg (p1 p2 p3 : Point2D) : R :=
  let u := vsub p2 p1 in
  let v2 := vsub p3 p2 in
  degrees (acos (clip (dot u v2 / (norm u * norm v2)) (-1) 1)).

End CornerSpec.

Module OrderingSpec.

Import PathTransitionHandler.

(** ** The ordering rule in the specification's words *)

(** Distances from the current end point to the two ends of a stroke, and
    to its nearest end. *)
Definition start_distance (current_end : Point2D) (s : Stroke) : R :=
  _point_distance current_end (hd origin s).

Definition end_distance (current_end : Point2D) (s : Stroke) : R :=
  _point_distance current_end (last s origin).

Definition endpoint_distance (current_end : Point2D) (s : Stroke) : R :=
  Rmin (start_distance current_end s) (end_distance current_end s).

(** The stroke as it is appended: reversed exactly when its end point is
    strictly nearer than its start point. *)
Definition placed (current_end : Point2D) (s : Stroke) : Stroke :=
  if Rlt_dec (end_distance current_end s) (start_distance current_end s)
  then rev s else s.

(** Stroke [s], at index [k] of the remaining strokes, is the selection of
    one step: no remaining stroke has a nearer endpoint, and every stroke
    met before it is strictly farther (first-encountered wins a tie). *)
Record selected (current_end : Point2D) (remaining : list Stroke)
  (k : nat) (s : Stroke) : Prop := {
  selected_at : nth_error remaining k = Some s;
  selected_nearest :
    forall j t, nth_error remaining j = Some t ->
      endpoint_distance current_end s <= endpoint_distance current_end t;
  selected_first :
    forall j t, (j < k)%nat -> nth_error remaining j = Some t ->
      endpoint_distance current_end s < endpoint_distance current_end t
}.

(** A whole run of the rule: from [ordered] and [remaining] to the final
    order. *)
Inductive nn_run : list Stroke -> list Stroke -> list Stroke -> Prop :=
| nn_run_done ordered :
    nn_run ordered [] ordered
| nn_run_pick ordered remaining k s final :
    let current_end := last (last ordered []) origin in
    selected current_end remaining k s ->
    nn_run (ordered ++ [placed current_end s])
           (firstn k remaining ++ skipn (S k) remaining) final ->
    nn_run ordered remaining final.

(** The ordering of a stroke set: seeded with the first stroke as given. *)
Definition nn_ordering (paths ordered : list Stroke) : Prop :=
  match paths with
  | [] => ordered = []
  | seed :: rest => nn_run [seed] rest ordered
  end.

(** [out] lists every stroke of [paths] exactly once, as it is or with its
    points reversed. *)
Definition same_or_reversed (s s' : Stroke) : Prop := s' = s \/ s' = rev s.

Definition reordering (paths out : list Stroke) : Prop :=
  exists paths', Permutation paths paths' /\ Forall2 same_or_reversed paths' out.

(** A stroke has at least one point. *)
Definition nonempty (s : Stroke) : Prop := s <> [].

(** The index the scan leaves for stroke [s] at position [j]. *)
Definition encoded (current_end : Point2D) (j : nat) (s : Stroke) : Z :=
  if Rlt_dec (end_distance current_end s) (start_distance current_end s)
  then (- Z.of_nat j - 1)%Z else Z.of_nat j.

(** What the scan knows after the strokes [seen]. *)
Definition scan_inv (current_end : Point2D) (seen : list Stroke)
  (st : option R * Z) : Prop :=
  (seen = [] /\ st = (None, 0%Z))
  \/ exists j s,
       selected current_end seen j s
       /\ st = (Some (endpoint_distance current_end s), encoded current_end j s).

End OrderingSpec.

Module SimplifySpec.

Import PathSimplifier.

(** ** The farthest interior point *)

(** The distance the scan of [points] measures at index [i]. *)
Definition deviation (points : list Point2D) (i : nat) : R :=
  perpendicular_distance (nth i points origin)
    (hd origin points) (last points origin).

(** [(k, d)] is the first maximum of [g] over the indices [1 .. m-1]. *)
Definition first_max (g : nat -> R) (m k : nat) (d : R) : Prop :=
  (1 <= k < m)%nat
  /\ d = g k
  /\ (forall i, (1 <= i < m)%nat -> g i <= d)
  /\ (forall i, (1 <= i < k)%nat -> g i < d).

End SimplifySpec.

Module AssemblySpec.

Import PathTransitionHandler.

(** ** Paths and their lengths *)

(** A planar point at the write altitude. *)
Definition lift (self : t) (p : Point2D) : Waypoint3D :=
  (fst p, snd p, write_altitude self).

(** The number of leading points [add_transitions] skips in [path] when it
    follows [prev]. *)
Definition join_start (prev path : Stroke) : nat :=
  if truthy prev && same_point (last prev origin) (hd origin path)
  then 1%nat else 0%nat.

(** The planar points [add_transitions] keeps, stroke by stroke; [prev] is
    the stroke before the first one ([[]] at the start). *)
Fixpoint assemble (prev : Stroke) (paths : list Stroke) : list Point2D :=
  match paths with
  | [] => []
  | path :: rest =>
      (if truthy path then skipn (join_start prev path) path else [])
        ++ assemble path rest
  end.

(** The number of points of a stroke set. *)
Definition total_points (paths : list Stroke) : nat :=
  list_sum (map (@length Point2D) paths).

(** No two neighbours of the list are equal. *)
Fixpoint no_repeat {A : Type} (l : list A) : Prop :=
  match l with
  | x :: ((y :: _) as rest) => x <> y /\ no_repeat rest
  | _ => True
  end.

Definition Rsum (l : list R) : R := fold_right Rplus 0 l.

(** The lengths of the segments of a 3D path and of a planar path. *)
Fixpoint segment_lengths (waypoints : list Waypoint3D) : list R :=
  match waypoints with
  | p :: ((q :: _) as rest) => segment_distance p q :: segment_lengths rest
  | _ => []
  end.

Fixpoint planar_lengths (points : list Point2D) : list R :=
  match points with
  | p :: ((q :: _) as rest) => _point_distance p q :: planar_lengths rest
  | _ => []
  end.

Definition stroke_length (s : Stroke) : R := Rsum (planar_lengths s).

(** The pen-up gaps of a stroke set: from the end of each stroke to the
    start of the next. *)
Fixpoint gaps (paths : list Stroke) : list R :=
  match paths with
  | prev :: ((cur :: _) as rest) =>
      _point_distance (last prev origin) (hd origin cur) :: gaps rest
  | _ => []
  end.

(** The time of one segment, when the acceleration is not zero. *)
Definition segment_time_value (dist v a : R) : R :=
  if Rle_dec dist (0.5 * a * (v / a) ^ 2 + 0.5 * a * (v / a) ^ 2)
  then 2 * sqrt (dist / a)
  else v / a + (dist - 0.5 * a * (v / a) ^ 2 - 0.5 * a * (v / a) ^ 2) / v
       + v / a.

End AssemblySpec.

Module FontSpec.

Import FontExtractor.

(** ** Breaks between font segments *)

(** Segment [i] does not continue segment [i - 1]: its start is 0.1 or
    more away from the previous end. *)
Definition broken (lines : list Line) (i : nat) : bool :=
  let prev_end := snd (nth (i - 1) lines no_line) in
  let curr_start := fst (nth i lines no_line) in
  if Rlt_dec (sqrt ((fst curr_start - fst prev_end) ^ 2
                    + (snd curr_start - snd prev_end) ^ 2)) 0.1
  then false else true.

(** The number of breaks among the segments with index below [i]. *)
Definition breaks_before (lines : list Line) (i : nat) : nat :=
  length (filter (broken lines) (seq 1 (i - 1))).

(** What the loop of [extract_continuous_paths] has built when it reaches
    segment [i]. *)
Definition built (lines : list Line) (i : nat) (st : list Stroke * Stroke)
  : Prop :=
  let all := fst st ++ [snd st] in
  Forall (fun s : Stroke => (2 <= length s)%nat) all
  /\ length (fst st) = breaks_before lines i
  /\ concat (map (skipn 1) all) = map snd (firstn i lines)
  /\ hd origin (hd [] all) = fst (nth 0 lines no_line).

End FontSpec.

Module MissionSpec.

Import MissionGenerator.

(** ** Reading a plan back *)

(** The waypoint items for [gps_waypoints], numbered from [item_id]. *)
Fixpoint numbered_waypoints (self : t) (item_id : nat)
  (gps_waypoints : list (R * R * R)) : list MissionItem :=
  match gps_waypoints with
  | [] => []
  | (lat, lon, alt) :: rest =>
      create_waypoint_item self lat lon alt item_id 0 None true
        :: numbered_waypoints self (S item_id) rest
  end.

(** The position a mission item carries in its last three parameters. *)
Definition position_of (item : MissionItem) : option (R * R * R) :=
  match params item with
  | [_; _; _; _; Some lat; Some lon; Some alt] => Some (lat, lon, alt)
  | _ => None
  end.

Definition is_waypoint (item : MissionItem) : bool := (command item =? 16)%nat.

Definition bool_count (b : bool) : nat := if b then 1%nat else 0%nat.

End MissionSpec.

Module CornerSplitSpec.

Import PathSimplifier.

(** ** Splitting at corners *)

(** The test of [_detect_corners] at index [i]: both neighbouring segments
    have a length, and the measured angle exceeds the threshold. *)
Definition reported (points : list Point2D) (angle_threshold : R) (i : nat)
  : bool :=
  let v1 := vsub (nth (i - 1) points origin) (nth i points origin) in
  let v2 := vsub (nth (i + 1) points origin) (nth i points origin) in
  if is_zero (norm v1) || is_zero (norm v2) then false
  else
    if Rgt_dec (degrees (acos (clip (dot v1 v2 / (norm v1 * norm v2)) (-1) 1)))
               angle_threshold
    then true else false.

(** The joined result [joined] ends at index [stop] of [points], starts
    where [points] starts, and is no longer than [points] up to [stop]. *)
Definition joined_upto (points joined : list Point2D) (stop : nat) : Prop :=
  joined <> []
  /\ nth 0 joined origin = nth 0 points origin
  /\ last joined origin = nth stop points origin
  /\ (length joined <= stop + 1)%nat.

(** What the loop of [simplify_with_corner_preservation] has built when
    the corners below index [i] have been handled. *)
Definition split_upto (points : list Point2D) (angle_threshold : R) (i : nat)
  (st : list (list Point2D) * nat) : Prop :=
  (snd st < i)%nat
  /\ ((fst st = [] /\ snd st = 0%nat)
      \/ (fst st <> [] /\ joined_upto points (concat (fst st)) (snd st)))
  /\ (forall j, (1 <= j < i)%nat -> reported points angle_threshold j = true ->
        In (nth j points origin) (concat (fst st))).

End CornerSplitSpec.

(** * Properties of the transition engine *)

Module TransitionFacts.

Import PathTransitionHandler TransitionSpec.

Lemma same_point_false_fst p q : fst p <> fst q -> same_point p q = false.
Proof.
  unfold same_point. intros H.
  destruct (Req_dec_T (fst p) (fst q)); [contradiction | reflexivity].
Qed.

Lemma scenario_waypoints :
  add_transitions (init 30 10) test_paths =
  [ (0, 0, 30); (10, 0, 30); (10, 10, 30); (20, 0, 30);
    (20, 10, 30); (30, 10, 30); (40, 0, 30); (40, 10, 30) ].
Proof.
  unfold add_transitions, test_paths.
  cbn [truthy negb length range seq Nat.sub fold_left].
  unfold add_transitions_body.
  cbn [nth truthy negb Nat.ltb Nat.leb Nat.sub andb last hd init write_altitude].
  rewrite !same_point_false_fst by (cbn; lra).
  reflexivity.
Qed.

Lemma float_div_nonzero x y : y <> 0 -> float_div x y = Returned (x / y).
Proof.
  intros H. unfold float_div.
  destruct (Req_dec_T y 0); [contradiction | reflexivity].
Qed.

Lemma segment_time_trapezoid dist v a :
  a <> 0 -> 0.5 * a * (v / a) ^ 2 + 0.5 * a * (v / a) ^ 2 < dist ->
  segment_time dist v a =
  Returned (v / a
            + (dist - 0.5 * a * (v / a) ^ 2 - 0.5 * a * (v / a) ^ 2) / v
            + v / a).
Proof.
  intros Ha Hd. unfold segment_time. rewrite float_div_nonzero by exact Ha.
  cbn [bind]. destruct (Rle_dec _ _) as [H | H]; [lra | reflexivity].
Qed.

Lemma segment_time_triangle dist v a :
  a <> 0 -> dist <= 0.5 * a * (v / a) ^ 2 + 0.5 * a * (v / a) ^ 2 ->
  segment_time dist v a = Returned (2 * sqrt (dist / a)).
Proof.
  intros Ha Hd. unfold segment_time. rewrite float_div_nonzero by exact Ha.
  cbn [bind]. destruct (Rle_dec _ _) as [H | H]; [reflexivity | lra].
Qed.

Lemma sqrt_between lo hi x :
  0 <= lo -> 0 <= hi -> lo * lo < x < hi * hi -> lo < sqrt x < hi.
Proof.
  intros Hlo Hhi [H1 H2]. split.
  - rewrite <- (sqrt_square lo Hlo). apply sqrt_lt_1; nra.
  - rewrite <- (sqrt_square hi Hhi). apply sqrt_lt_1; nra.
Qed.

(** Two waypoints at the same altitude: the vertical term vanishes. *)
Lemma segment_distance_level x1 y1 x2 y2 z s :
  (x2 - x1) ^ 2 + (y2 - y1) ^ 2 = s ->
  segment_distance (x1, y1, z) (x2, y2, z) = sqrt s.
Proof.
  intros H. unfold segment_distance, w0, w1, w2. cbn [fst snd].
  f_equal. rewrite <- H. ring.
Qed.

Lemma sqrt_100 : sqrt 100 = 10.
Proof. replace 100 with (10 ^ 2) by lra. apply sqrt_pow2. lra. Qed.

(** The estimate on the scenario: five segments of 10 m and two diagonals
    of [sqrt 200] m, all long enough for the trapezoidal profile. *)
Lemma scenario_estimate :
  exists r,
    calculate_mission_time (add_transitions (init 30 10) test_paths) 3 3
    = Returned r
    /\ total_distance_m r = 50 + 2 * sqrt 200
    /\ 0 < total_time_s r.
Proof.
  rewrite scenario_waypoints.
  unfold calculate_mission_time.
  cbn [length Nat.leb range Nat.sub seq for_each].
  unfold mission_time_body. cbn [nth Nat.sub].
  pose proof (sqrt_between 14 15 200 ltac:(lra) ltac:(lra) ltac:(lra)) as Hs.
  repeat first
    [ rewrite (segment_distance_level _ _ _ _ _ 100), sqrt_100 by lra
    | rewrite (segment_distance_level _ _ _ _ _ 200) by lra
    | rewrite segment_time_trapezoid by lra
    | progress cbn [bind] ].
  eexists. split; [reflexivity |]. cbn [total_distance_m total_time_s].
  split; lra.
Qed.

Lemma scenario_shape :
  let waypoints_3d := add_transitions (init 30 10) test_paths in
  length waypoints_3d = 8%nat /\ Forall (fun w => w2 w = 30) waypoints_3d.
Proof.
  cbv zeta. rewrite scenario_waypoints. split; [reflexivity |].
  repeat constructor.
Qed.

(** C1 (as stated, refuted): on the self-test strokes at write altitude 30
    the assembled path has 8 waypoints at z = 30, but the total distance of
    the estimate is not within 17 m of the stated 61.2 m. *)
Lemma scenario_distance_is_not_61 : ~ scenario 61.2 17.
Proof.
  unfold scenario. cbv zeta. intros (_ & _ & r & Hr & Hd & _).
  destruct scenario_estimate as (r' & Hr' & Hd' & _).
  rewrite Hr' in Hr. injection Hr as <-. rewrite Hd' in Hd.
  pose proof (sqrt_between 14.1 15 200 ltac:(lra) ltac:(lra) ltac:(lra)) as Hs.
  unfold Rabs in Hd. destruct (Rcase_abs _); lra.
Qed.

(** C1 (amended): on the self-test strokes at write altitude 30 the
    assembled path has exactly 8 waypoints, each with z = 30, and the
    estimate at cruise speed 3 and acceleration 3 returns a total distance
    within 0.01 of 78.28 (it is 50 + 2 * sqrt 200) and a strictly positive
    total time. *)
Theorem scenario_distance_is_78 : scenario 78.28 0.01.
Proof.
  unfold scenario. cbv zeta.
  destruct scenario_shape as [Hlen Hz].
  destruct scenario_estimate as (r & Hr & Hd & Ht).
  repeat split; [exact Hlen | exact Hz |].
  exists r. repeat split; [exact Hr | | exact Ht].
  rewrite Hd.
  pose proof (sqrt_between 14.14 14.145 200 ltac:(lra) ltac:(lra) ltac:(lra)) as Hs.
  unfold Rabs. destruct (Rcase_abs _); lra.
Qed.

(** ** The kinematic estimate at the regime boundary *)

(** The distance covered while accelerating to [v] and braking again. *)
Lemma accel_decel_distance v a :
  a <> 0 -> 0.5 * a * (v / a) ^ 2 + 0.5 * a * (v / a) ^ 2 = v ^ 2 / a.
Proof. intros Ha. replace 0.5 with (1 / 2) by lra. field. exact Ha. Qed.

Lemma triangle_time_at_boundary v a :
  0 < v -> 0 < a -> 2 * sqrt (v ^ 2 / a / a) = 2 * (v / a).
Proof.
  intros Hv Ha. f_equal.
  replace (v ^ 2 / a / a) with ((v / a) ^ 2) by (field; lra).
  apply sqrt_pow2. apply Rlt_le, Rdiv_lt_0_compat; assumption.
Qed.

(** C4: for cruise speed v > 0 and acceleration a > 0, the estimate on a
    two-waypoint path whose segment has 3D length v^2/a (the sum of the
    acceleration and deceleration distances) returns the total time
    2*(v/a), hence within 1e-6 of it; it is the triangular value
    2*sqrt(d/a), and the trapezoidal formula gives the same value there. *)
Theorem boundary_total_time (p q : Waypoint3D) (v a : R) :
  0 < v -> 0 < a ->
  segment_distance p q = v ^ 2 / a ->
  exists r,
    calculate_mission_time [p; q] v a = Returned r
    /\ total_time_s r = 2 * (v / a)
    /\ Rabs (total_time_s r - 2 * (v / a)) <= 1 / 10 ^ 6
    /\ 2 * sqrt (v ^ 2 / a / a)
       = v / a
         + (v ^ 2 / a - 0.5 * a * (v / a) ^ 2 - 0.5 * a * (v / a) ^ 2) / v
         + v / a.
Proof.
  intros Hv Ha Hd.
  unfold calculate_mission_time.
  cbn [length Nat.leb range Nat.sub seq for_each].
  unfold mission_time_body. cbn [nth Nat.sub]. rewrite Hd.
  rewrite segment_time_triangle
    by (try rewrite accel_decel_distance; lra).
  cbn [bind]. eexists. split; [reflexivity |]. cbn [total_time_s].
  rewrite triangle_time_at_boundary by assumption.
  assert (Heq : 0 + 2 * (v / a) = 2 * (v / a)) by ring.
  split; [exact Heq |]. split.
  - rewrite Heq. unfold Rminus. rewrite Rplus_opp_r, Rabs_R0. lra.
  - rewrite <- (accel_decel_distance v a) by lra. field. lra.
Qed.

(** An instance: speed 3, acceleration 3, one segment of 3 m. *)
Lemma boundary_total_time_witness :
  0 < 3 /\ 0 < 3
  /\ segment_distance (0, 0, 0) (3, 0, 0) = 3 ^ 2 / 3
  /\ exists r,
       calculate_mission_time [(0, 0, 0); (3, 0, 0)] 3 3 = Returned r
       /\ total_time_s r = 2 * (3 / 3).
Proof.
  assert (H3 : 0 < 3) by lra.
  assert (Hd : segment_distance (0, 0, 0) (3, 0, 0) = 3 ^ 2 / 3).
  { rewrite (segment_distance_level _ _ _ _ _ (3 ^ 2)) by ring.
    rewrite sqrt_pow2 by lra. field. }
  split; [exact H3 |]. split; [exact H3 |]. split; [exact Hd |].
  destruct (boundary_total_time (0, 0, 0) (3, 0, 0) 3 3 H3 H3 Hd)
    as (r & Hr & Ht & _).
  exists r. split; [exact Hr | exact Ht].
Defined.

(** ** Invalid configuration *)

Lemma segment_time_returns dist v a :
  a <> 0 -> exists t, segment_time dist v a = Returned t.
Proof.
  intros Ha. unfold segment_time. rewrite float_div_nonzero by exact Ha.
  cbn [bind]. destruct (Rle_dec _ _); eexists; reflexivity.
Qed.

Lemma mission_loop_returns waypoints_3d v a idxs acc :
  a <> 0 ->
  exists acc',
    for_each idxs acc (mission_time_body waypoints_3d v a) = Returned acc'.
Proof.
  intros Ha. revert acc.
  induction idxs as [| i idxs IH]; intros [total_time total_distance];
    cbn [for_each].
  - eexists. reflexivity.
  - unfold mission_time_body at 1.
    destruct (segment_time_returns
                (segment_distance (nth (i - 1) waypoints_3d origin3)
                                  (nth i waypoints_3d origin3)) v a Ha)
      as [t Ht].
    rewrite Ht. cbn [bind]. apply IH.
Qed.

Lemma mission_time_returns waypoints_3d v a :
  a <> 0 -> exists r, calculate_mission_time waypoints_3d v a = Returned r.
Proof.
  intros Ha. unfold calculate_mission_time.
  destruct (length waypoints_3d <=? 1)%nat; [eexists; reflexivity |].
  destruct (mission_loop_returns waypoints_3d v a
              (range 1 (length waypoints_3d)) (0, 0) Ha)
    as [[total_time total_distance] Hacc].
  rewrite Hacc. cbn [bind]. eexists. reflexivity.
Qed.

(** The only exception of the estimate: a zero acceleration on a path with
    at least one segment. *)
Lemma mission_time_zero_acceleration p q rest v :
  calculate_mission_time (p :: q :: rest) v 0 = Raised ZeroDivisionError.
Proof.
  unfold calculate_mission_time.
  cbn [length Nat.leb range Nat.sub seq for_each].
  unfold mission_time_body at 1. unfold segment_time, float_div.
  destruct (Req_dec_T 0 0) as [_ | H]; [reflexivity | contradiction].
Qed.

(** C3 (as stated, refuted): with acceleration -3 the estimate over the
    segment from (0,0,0) to (10,0,0) does not raise ConfigurationError; it
    returns a time of 7/3 s over 10 m. *)
Lemma negative_acceleration_returns :
  ~ fails_fast (calculate_mission_time [(0, 0, 0); (10, 0, 0)] 3 (-3))
  /\ exists r,
       calculate_mission_time [(0, 0, 0); (10, 0, 0)] 3 (-3) = Returned r
       /\ total_time_s r = 7 / 3
       /\ total_distance_m r = 10.
Proof.
  assert (H : exists r,
             calculate_mission_time [(0, 0, 0); (10, 0, 0)] 3 (-3) = Returned r
             /\ total_time_s r = 7 / 3 /\ total_distance_m r = 10).
  { unfold calculate_mission_time.
    cbn [length Nat.leb range Nat.sub seq for_each].
    unfold mission_time_body. cbn [nth Nat.sub].
    rewrite (segment_distance_level _ _ _ _ _ 100), sqrt_100 by lra.
    rewrite segment_time_trapezoid by lra.
    cbn [bind]. eexists. split; [reflexivity |].
    cbn [total_time_s total_distance_m]. split; lra. }
  split; [| exact H].
  destruct H as (r & Hr & _). unfold fails_fast. rewrite Hr. discriminate.
Qed.

(** C3 (amended): the code validates nothing.  For a negative acceleration
    the estimate returns a result value on every path and every non-zero
    speed, and does not raise ConfigurationError; for a negative epsilon the
    simplifier is built and stores that epsilon as it is. *)
Theorem negative_configuration_accepted
  (waypoints_3d : list Waypoint3D) (v a eps letter_height : R) :
  v <> 0 -> a < 0 -> eps < 0 ->
  (exists r, calculate_mission_time waypoints_3d v a = Returned r)
  /\ ~ fails_fast (calculate_mission_time waypoints_3d v a)
  /\ PathSimplifier.epsilon (PathSimplifier.init (Some eps) letter_height) = eps.
Proof.
  intros _ Ha _.
  destruct (mission_time_returns waypoints_3d v a) as [r Hr]; [lra |].
  split; [exists r; exact Hr |]. split; [| reflexivity].
  unfold fails_fast. rewrite Hr. discriminate.
Qed.

(** An instance: speed 3 and acceleration -3 over a 10 m segment,
    epsilon -1. *)
Lemma negative_configuration_accepted_witness :
  3 <> 0 /\ -3 < 0 /\ -1 < 0
  /\ (exists r, calculate_mission_time [(0, 0, 0); (10, 0, 0)] 3 (-3) = Returned r)
  /\ PathSimplifier.epsilon (PathSimplifier.init (Some (-1)) 20) = -1.
Proof.
  assert (Hv : 3 <> 0) by lra.
  assert (Ha : -3 < 0) by lra.
  assert (He : -1 < 0) by lra.
  destruct (negative_configuration_accepted
              [(0, 0, 0); (10, 0, 0)] 3 (-3) (-1) 20 Hv Ha He)
    as (Hr & _ & Hinit).
  split; [exact Hv |]. split; [exact Ha |]. split; [exact He |].
  split; [exact Hr | exact Hinit].
Defined.

End TransitionFacts.

(** * Properties of the projector *)

Module ProjectorFacts.

Import CoordinateTransformer.

Lemma radians_0 : radians 0 = 0.
Proof. unfold radians. ring. Qed.

(** With the sine and cosine cached for zero degrees the rotation formula
    is the identity. *)
Lemma rotated_zero lat0 lon0 h0 x y :
  rotated (init lat0 lon0 h0 0) x y = (x, y).
Proof.
  unfold rotated, init. cbn [cos_r sin_r].
  rewrite radians_0, cos_0, sin_0. f_equal; ring.
Qed.

(** C9: a transformer built with rotation 0 returns, for every local point
    and relative altitude, the latitude and longitude of the plain
    ENU-to-geodetic conversion of the unrotated point, with the relative
    altitude passed through; and the rotation branch, evaluated with the
    values cached for 0 degrees, leaves the point unchanged, so both
    branches agree (exactly, hence within 1e-9 degrees). *)
Theorem zero_rotation_is_plain_conversion
  (enu2geodetic : R -> R -> R -> R -> R -> R -> R * R * R)
  (lat0 lon0 h0 x y altitude : R) :
  let self := init lat0 lon0 h0 0 in
  let plain := enu2geodetic x y altitude lat0 lon0 h0 in
  local_to_gps enu2geodetic self x y altitude
  = (fst (fst plain), snd (fst plain), altitude)
  /\ rotated self x y = (x, y)
  /\ Rabs (fst (fst (local_to_gps enu2geodetic self x y altitude))
           - fst (fst plain)) <= 1 / 10 ^ 9
  /\ Rabs (snd (fst (local_to_gps enu2geodetic self x y altitude))
           - snd (fst plain)) <= 1 / 10 ^ 9.
Proof.
  cbv zeta.
  assert (Heq : local_to_gps enu2geodetic (init lat0 lon0 h0 0)
                  x y altitude
                = (fst (fst (enu2geodetic x y altitude lat0 lon0 h0)),
                   snd (fst (enu2geodetic x y altitude lat0 lon0 h0)),
                   altitude)).
  { unfold local_to_gps, nonzero, init.
    cbn [rotation_deg home_lat home_lon home_alt].
    destruct (Req_dec_T 0 0) as [_ | H]; [| contradiction].
    destruct (enu2geodetic x y altitude lat0 lon0 h0)
      as [[lat lon] alt_msl].
    reflexivity. }
  split; [exact Heq |]. split; [apply rotated_zero |].
  rewrite Heq. cbn [fst snd]. unfold Rminus.
  rewrite !Rplus_opp_r, Rabs_R0. split; lra.
Qed.

End ProjectorFacts.

(** * Properties of the simplifier *)

Module CornerFacts.

Import PathSimplifier CornerSpec.

Lemma is_zero_false x : x <> 0 -> is_zero x = false.
Proof.
  intros H. unfold is_zero. destruct (Req_dec_T x 0); [contradiction | reflexivity].
Qed.

Lemma is_zero_true_iff x : is_zero x = true <-> x = 0.
Proof.
  unfold is_zero. destruct (Req_dec_T x 0); split; intros; congruence.
Qed.

Lemma norm_vsub_sym p q : norm (vsub p q) = norm (vsub q p).
Proof. unfold norm, vsub. cbn [fst snd]. f_equal. ring. Qed.

Lemma dot_vsub_opp p q w : dot (vsub p q) w = - dot (vsub q p) w.
Proof. unfold dot, vsub. cbn [fst snd]. ring. Qed.

Lemma clip_low c : c <= -1 -> clip c (-1) 1 = -1.
Proof. intros H. unfold clip. rewrite Rmax_right, Rmin_left; lra. Qed.

Lemma clip_mid c : -1 <= c <= 1 -> clip c (-1) 1 = c.
Proof. intros H. unfold clip. rewrite Rmax_left, Rmin_left; lra. Qed.

Lemma clip_high c : 1 <= c -> clip c (-1) 1 = 1.
Proof. intros H. unfold clip. rewrite Rmax_left, Rmin_right; lra. Qed.

Lemma clip_opp c : clip (- c) (-1) 1 = - clip c (-1) 1.
Proof.
  destruct (Rle_dec c (-1)); [| destruct (Rle_dec 1 c)].
  - rewrite (clip_low c), (clip_high (- c)); lra.
  - rewrite (clip_high c), (clip_low (- c)); lra.
  - rewrite (clip_mid c), (clip_mid (- c)); lra.
Qed.

Lemma degrees_PI_minus t : degrees (PI - t) = 180 - degrees t.
Proof. unfold degrees. field. apply PI_neq0. Qed.

(** The measured angle is the supplement of the turn angle. *)
Lemma measured_is_supplement p1 p2 p3 :
  measured_angle_deg p1 p2 p3 = 180 - turn_angle_deg p1 p2 p3.
Proof.
  unfold measured_angle_deg, turn_angle_deg. cbv zeta.
  rewrite (norm_vsub_sym p1 p2), dot_vsub_opp.
  replace (- dot (vsub p2 p1) (vsub p3 p2) / (norm (vsub p2 p1) * norm (vsub p3 p2)))
    with (- (dot (vsub p2 p1) (vsub p3 p2) / (norm (vsub p2 p1) * norm (vsub p3 p2))))
    by (unfold Rdiv; ring).
  rewrite clip_opp, acos_opp. apply degrees_PI_minus.
Qed.

(** The loop body, read off the source: index [i] is appended exactly when
    both adjacent segments have non-zero length and the measured angle
    exceeds the threshold. *)
Lemma detect_corners_body_spec points thr corners i :
  let p1 := nth (i - 1) points origin in
  let p2 := nth i points origin in
  let p3 := nth (i + 1) points origin in
  (norm (vsub p1 p2) <> 0 /\ norm (vsub p3 p2) <> 0
   /\ measured_angle_deg p1 p2 p3 > thr
   /\ detect_corners_body points thr corners i = corners ++ [i])
  \/ (~ (norm (vsub p1 p2) <> 0 /\ norm (vsub p3 p2) <> 0
         /\ measured_angle_deg p1 p2 p3 > thr)
      /\ detect_corners_body points thr corners i = corners).
Proof.
  cbv zeta. unfold detect_corners_body, measured_angle_deg. cbv zeta.
  unfold is_zero.
  destruct (Req_dec_T (norm (vsub (nth (i - 1) points origin) (nth i points origin))) 0)
    as [H1 | H1]; cbn [orb].
  - right. split; [tauto | reflexivity].
  - destruct (Req_dec_T (norm (vsub (nth (i + 1) points origin) (nth i points origin))) 0)
      as [H2 | H2].
    + right. split; [tauto | reflexivity].
    + destruct (Rgt_dec _ thr) as [Hgt | Hgt].
      * left. repeat split; assumption.
      * right. split; [tauto | reflexivity].
Qed.

Lemma detect_corners_fold points thr idxs corners i :
  In i (fold_left (detect_corners_body points thr) idxs corners) <->
  In i corners
  \/ (In i idxs
      /\ norm (vsub (nth (i - 1) points origin) (nth i points origin)) <> 0
      /\ norm (vsub (nth (i + 1) points origin) (nth i points origin)) <> 0
      /\ measured_angle_deg (nth (i - 1) points origin) (nth i points origin)
           (nth (i + 1) points origin) > thr).
Proof.
  revert corners. induction idxs as [| j idxs IH]; intros corners; cbn [fold_left].
  - cbn [In]. tauto.
  - rewrite IH.
    destruct (detect_corners_body_spec points thr corners j)
      as [(H1 & H2 & H3 & ->) | (Hn & ->)]; cbv zeta in *.
    + rewrite in_app_iff. cbn [In]. intuition (subst; auto).
    + cbn [In]. intuition (subst; tauto).
Qed.

(** What [_detect_corners] reports, for every polyline and index. *)
Lemma detect_corners_spec points thr i :
  In i (_detect_corners points thr) <->
  (1 <= i <= length points - 2)%nat
  /\ norm (vsub (nth (i - 1) points origin) (nth i points origin)) <> 0
  /\ norm (vsub (nth (i + 1) points origin) (nth i points origin)) <> 0
  /\ turn_angle_deg (nth (i - 1) points origin) (nth i points origin)
       (nth (i + 1) points origin) < 180 - thr.
Proof.
  unfold _detect_corners. rewrite detect_corners_fold.
  rewrite measured_is_supplement. unfold range. rewrite in_seq. cbn [In].
  split.
  - intros [[] | (Hi & H1 & H2 & H3)]. repeat split; try assumption; lia || lra.
  - intros (Hi & H1 & H2 & H3). right. repeat split; try assumption; lia || lra.
Qed.

(** An interior point next to a zero-length segment is never reported. *)
Lemma degenerate_never_reported points thr i :
  nth (i - 1) points origin = nth i points origin
  \/ nth (i + 1) points origin = nth i points origin ->
  ~ In i (_detect_corners points thr).
Proof.
  intros Hdeg Hin. apply detect_corners_spec in Hin.
  destruct Hin as (_ & H1 & H2 & _).
  assert (Hz : forall p : Point2D, norm (vsub p p) = 0).
  { intros p. unfold norm, vsub. cbn [fst snd].
    replace ((fst p - fst p) ^ 2 + (snd p - snd p) ^ 2) with 0 by ring.
    apply sqrt_0. }
  destruct Hdeg as [E | E]; rewrite E in *; [apply H1 | apply H2]; apply Hz.
Qed.

Lemma norm_vsub_value p q d :
  0 <= d -> (fst p - fst q) ^ 2 + (snd p - snd q) ^ 2 = d ^ 2 ->
  norm (vsub p q) = d.
Proof.
  intros Hd H. unfold norm, vsub. cbn [fst snd]. rewrite H.
  apply sqrt_pow2, Hd.
Qed.

(** Three collinear points, traversed forwards: no turn at the middle. *)
Lemma straight_turn_angle : turn_angle_deg (0, 0) (1, 0) (2, 0) = 0.
Proof.
  unfold turn_angle_deg. cbv zeta.
  rewrite (norm_vsub_value (1, 0) (0, 0) 1), (norm_vsub_value (2, 0) (1, 0) 1)
    by (cbn [fst snd]; lra).
  replace (dot (vsub (1, 0) (0, 0)) (vsub (2, 0) (1, 0)) / (1 * 1)) with 1
    by (unfold dot, vsub; cbn [fst snd]; field).
  rewrite clip_mid by lra. rewrite acos_1. unfold degrees. ring.
Qed.

(** A hairpin: the path comes back on itself, a turn of 180 degrees. *)
Lemma hairpin_turn_angle : turn_angle_deg (0, 0) (1, 0) (0, 0) = 180.
Proof.
  unfold turn_angle_deg. cbv zeta.
  rewrite (norm_vsub_value (1, 0) (0, 0) 1), (norm_vsub_value (0, 0) (1, 0) 1)
    by (cbn [fst snd]; lra).
  replace (dot (vsub (1, 0) (0, 0)) (vsub (0, 0) (1, 0)) / (1 * 1)) with (- (1))
    by (unfold dot, vsub; cbn [fst snd]; field).
  rewrite clip_opp, clip_mid by lra. rewrite acos_opp, acos_1.
  unfold degrees. field. apply PI_neq0.
Qed.

(** C2 (evaluation at the failing input): on the straight polyline
    (0,0),(1,0),(2,0) with threshold 30 the code reports index 1 as a
    corner although the turn angle there is 0; on the hairpin
    (0,0),(1,0),(0,0), whose turn angle is 180, it reports nothing. *)
Theorem straight_line_is_reported :
  _detect_corners [(0, 0); (1, 0); (2, 0)] 30 = [1%nat]
  /\ turn_angle_deg (0, 0) (1, 0) (2, 0) = 0
  /\ _detect_corners [(0, 0); (1, 0); (0, 0)] 30 = []
  /\ turn_angle_deg (0, 0) (1, 0) (0, 0) = 180.
Proof.
  split; [| split; [exact straight_turn_angle | split; [| exact hairpin_turn_angle]]].
  - unfold _detect_corners. cbn [length Nat.sub range seq fold_left].
    destruct (detect_corners_body_spec [(0, 0); (1, 0); (2, 0)] 30 [] 1)
      as [(_ & _ & _ & ->) | (Hn & _)]; [reflexivity |].
    exfalso. apply Hn. cbn [nth Nat.sub Nat.add].
    rewrite measured_is_supplement, straight_turn_angle.
    rewrite (norm_vsub_value (0, 0) (1, 0) 1), (norm_vsub_value (2, 0) (1, 0) 1)
      by (cbn [fst snd]; lra).
    repeat split; lra.
  - unfold _detect_corners. cbn [length Nat.sub range seq fold_left].
    destruct (detect_corners_body_spec [(0, 0); (1, 0); (0, 0)] 30 [] 1)
      as [(_ & _ & Hgt & _) | (_ & ->)]; [| reflexivity].
    exfalso. cbn [nth Nat.sub Nat.add] in Hgt.
    rewrite measured_is_supplement, hairpin_turn_angle in Hgt. lra.
Qed.

End CornerFacts.

(** * Properties of nearest-neighbour ordering *)

Module OrderingFacts.

Import PathTransitionHandler OrderingSpec.

(** ** Reading the source *)

Lemma first_item_nonempty {A : Type} (l : list A) (d : A) :
  l <> [] -> first_item l = Returned (hd d l).
Proof. destruct l; [contradiction | reflexivity]. Qed.

Lemma last_item_nonempty {A : Type} (l : list A) (d : A) :
  l <> [] -> last_item l = Returned (last l d).
Proof.
  intros H. destruct (exists_last H) as (l' & x & ->).
  unfold last_item. rewrite rev_app_distr, last_last. reflexivity.
Qed.

Lemma below_None dist : below dist None = true.
Proof. reflexivity. Qed.

Lemma below_Some dist m : below dist (Some m) = true <-> dist < m.
Proof.
  cbn [below]. destruct (Rlt_dec dist m); split; intros; congruence.
Qed.

Lemma scan_body_returns current_end min_dist nearest_idx i (path : Stroke) :
  path <> [] ->
  scan_body current_end (min_dist, nearest_idx) (i, path)
  = Returned
      (if below (endpoint_distance current_end path) min_dist
       then (Some (endpoint_distance current_end path), encoded current_end i path)
       else (min_dist, nearest_idx)).
Proof.
  intros Hne. unfold scan_body.
  rewrite (first_item_nonempty path origin Hne),
          (last_item_nonempty path origin Hne).
  cbn [bind]. unfold endpoint_distance, encoded, start_distance, end_distance.
  destruct (Rlt_dec (_point_distance current_end (last path origin))
                    (_point_distance current_end (hd origin path))) as [H | H].
  - rewrite Rmin_right by lra. destruct (below _ _); reflexivity.
  - rewrite Rmin_left by lra. destruct (below _ _); reflexivity.
Qed.

Lemma nth_error_snoc {A : Type} (l : list A) (x : A) (j : nat) (y : A) :
  nth_error (l ++ [x]) j = Some y ->
  ((j < length l)%nat /\ nth_error l j = Some y) \/ (j = length l /\ y = x).
Proof.
  intros H. destruct (Nat.lt_ge_cases j (length l)) as [Hlt | Hge].
  - left. rewrite nth_error_app1 in H by exact Hlt. auto.
  - right. rewrite nth_error_app2 in H by exact Hge.
    destruct (j - length l)%nat as [| n] eqn:E; cbn in H.
    + split; [lia | congruence].
    + destruct n; discriminate.
Qed.

Lemma scan_inv_step current_end (seen : list Stroke) st (path : Stroke) :
  path <> [] ->
  scan_inv current_end seen st ->
  exists st',
    scan_body current_end st (length seen, path) = Returned st'
    /\ scan_inv current_end (seen ++ [path]) st'.
Proof.
  intros Hne Hinv. destruct st as [min_dist nearest_idx].
  rewrite scan_body_returns by exact Hne.
  eexists. split; [reflexivity |].
  destruct Hinv as [[-> [= -> ->]] | (j & s & Hsel & [= -> ->])].
  - rewrite below_None. right. exists 0%nat, path. split; [| reflexivity].
    constructor.
    + reflexivity.
    + intros j t Hj. destruct j as [| [| j]]; cbn in Hj; try discriminate.
      injection Hj as <-. lra.
    + intros j t Hj. lia.
  - destruct Hsel as [Hat Hmin Hfirst].
    assert (Hj : (j < length seen)%nat) by (apply nth_error_Some; congruence).
    destruct (below _ _) eqn:Hb.
    + apply below_Some in Hb. right. exists (length seen), path.
      split; [| reflexivity]. constructor.
      * rewrite nth_error_app2, Nat.sub_diag by lia. reflexivity.
      * intros j' t Hj'. apply nth_error_snoc in Hj'.
        destruct Hj' as [[_ Hj'] | [_ ->]]; [| lra].
        specialize (Hmin j' t Hj'). lra.
      * intros j' t Hlt Hj'. rewrite nth_error_app1 in Hj' by exact Hlt.
        specialize (Hmin j' t Hj'). lra.
    + assert (Hge : endpoint_distance current_end s
                    <= endpoint_distance current_end path).
      { destruct (Rle_dec (endpoint_distance current_end s)
                          (endpoint_distance current_end path)) as [H | H];
          [exact H |].
        assert (Hlt : endpoint_distance current_end path
                      < endpoint_distance current_end s) by lra.
        apply below_Some in Hlt. congruence. }
      right. exists j, s. split; [| reflexivity]. constructor.
      * rewrite nth_error_app1 by exact Hj. exact Hat.
      * intros j' t Hj'. apply nth_error_snoc in Hj'.
        destruct Hj' as [[_ Hj'] | [_ ->]]; [eauto | exact Hge].
      * intros j' t Hlt Hj'. rewrite nth_error_app1 in Hj' by lia. eauto.
Qed.

(** The whole scan [for i, path in enumerate(remaining)], started after
    the strokes [seen]. *)
Lemma scan_from current_end (todo : list Stroke) : forall (seen : list Stroke) st,
  Forall nonempty todo ->
  scan_inv current_end seen st ->
  exists st',
    for_each (combine (seq (length seen) (length todo)) todo) st
             (scan_body current_end) = Returned st'
    /\ scan_inv current_end (seen ++ todo) st'.
Proof.
  induction todo as [| path todo IH]; intros seen st Hne Hinv.
  - exists st. rewrite app_nil_r. split; [reflexivity | exact Hinv].
  - inversion Hne as [| ? ? Hpath Htodo]; subst.
    destruct (scan_inv_step current_end seen st path Hpath Hinv)
      as (st1 & Hbody & Hinv1).
    destruct (IH (seen ++ [path]) st1 Htodo Hinv1) as (st' & Hloop & Hinv').
    rewrite length_app, Nat.add_1_r in Hloop. cbn [length] in Hloop.
    exists st'. split.
    + change (length (path :: todo)) with (S (length todo)).
      cbn [seq combine for_each]. rewrite Hbody. cbn [bind]. exact Hloop.
    + rewrite <- app_assoc in Hinv'. exact Hinv'.
Qed.

Lemma scan_selects current_end (remaining : list Stroke) :
  remaining <> [] -> Forall nonempty remaining ->
  exists j s,
    selected current_end remaining j s
    /\ for_each (enumerate remaining) (None, 0%Z) (scan_body current_end)
       = Returned (Some (endpoint_distance current_end s),
                   encoded current_end j s).
Proof.
  intros Hrem Hne.
  destruct (scan_from current_end remaining [] (None, 0%Z) Hne) as (st & Hloop & Hinv).
  { left. split; reflexivity. }
  cbn [length app] in *.
  destruct Hinv as [[Hnil _] | (j & s & Hsel & ->)]; [contradiction |].
  exists j, s. split; [exact Hsel | exact Hloop].
Qed.

(** Decoding the index left by the scan. *)
Lemma encoded_decode current_end j s :
  (if (encoded current_end j s <? 0)%Z
   then Z.to_nat (- encoded current_end j s - 1)
   else Z.to_nat (encoded current_end j s)) = j
  /\ ((encoded current_end j s <? 0)%Z = true
      <-> end_distance current_end s < start_distance current_end s).
Proof.
  unfold encoded.
  destruct (Rlt_dec (end_distance current_end s) (start_distance current_end s))
    as [H | H].
  - assert (E : (- Z.of_nat j - 1 <? 0)%Z = true) by (apply Z.ltb_lt; lia).
    rewrite E. split; [lia | tauto].
  - assert (E : (Z.of_nat j <? 0)%Z = false) by (apply Z.ltb_ge; lia).
    rewrite E. split; [lia | split; [discriminate | contradiction]].
Qed.

Lemma item_at {A : Type} (l : list A) (i : nat) (x : A) :
  nth_error l i = Some x -> item l i = Returned x.
Proof. intros H. unfold item. rewrite H. reflexivity. Qed.

Lemma pop_at {A : Type} (l : list A) (i : nat) (x : A) :
  nth_error l i = Some x -> pop l i = Returned (firstn i l ++ skipn (S i) l).
Proof. intros H. unfold pop. rewrite H. reflexivity. Qed.

(** One turn of the [while] loop performs one step of the rule. *)
Lemma nn_step_selects (ordered remaining : list Stroke) :
  ordered <> [] -> last ordered [] <> [] ->
  remaining <> [] -> Forall nonempty remaining ->
  let current_end := last (last ordered []) origin in
  exists k s,
    selected current_end remaining k s
    /\ nn_step ordered remaining
       = Returned (ordered ++ [placed current_end s],
                   firstn k remaining ++ skipn (S k) remaining).
Proof.
  intros Hord Hlast Hrem Hne current_end.
  destruct (scan_selects current_end remaining Hrem Hne) as (k & s & Hsel & Hscan).
  exists k, s. split; [exact Hsel |].
  unfold nn_step.
  rewrite (last_item_nonempty ordered [] Hord). cbn [bind].
  rewrite (last_item_nonempty (last ordered []) origin Hlast). cbn [bind].
  fold current_end. rewrite Hscan. cbn [bind snd].
  destruct (encoded_decode current_end k s) as [Hidx Hsign].
  pose proof (selected_at _ _ _ _ Hsel) as Hat.
  unfold placed.
  destruct (encoded current_end k s <? 0)%Z eqn:E; rewrite Hidx.
  - rewrite (item_at _ _ _ Hat), (pop_at _ _ _ Hat). cbn [bind].
    destruct (Rlt_dec _ _) as [H | H]; [reflexivity |].
    exfalso. apply H, Hsign. reflexivity.
  - rewrite (item_at _ _ _ Hat), (pop_at _ _ _ Hat). cbn [bind].
    destruct (Rlt_dec _ _) as [H | H]; [| reflexivity].
    apply Hsign in H. discriminate.
Qed.

Lemma nn_loop_nil ordered : nn_loop ordered [] = Returned ordered.
Proof. simp nn_loop. reflexivity. Qed.

Lemma nn_loop_cons ordered remaining ordered' remaining' :
  remaining <> [] ->
  nn_step ordered remaining = Returned (ordered', remaining') ->
  nn_loop ordered remaining = nn_loop ordered' remaining'.
Proof.
  intros Hrem Hstep. destruct remaining as [| r rs]; [contradiction |].
  simp nn_loop.
  destruct (inspect (nn_step ordered (r :: rs))) as [[[o1 r1] | e] Heq];
    simp nn_loop; congruence.
Qed.

Lemma placed_nonempty current_end (s : Stroke) : s <> [] -> placed current_end s <> [].
Proof.
  intros H. unfold placed. destruct (Rlt_dec _ _); [| exact H].
  intros E. apply H. rewrite <- (rev_involutive s), E. reflexivity.
Qed.

Lemma Forall_remove_nth {A : Type} (P : A -> Prop) (l : list A) (k : nat) :
  Forall P l -> Forall P (firstn k l ++ skipn (S k) l).
Proof.
  intros H. rewrite Forall_forall in *. intros x Hx.
  apply in_app_or in Hx. destruct Hx as [Hx | Hx]; apply H.
  - rewrite <- (firstn_skipn k l). apply in_or_app. left. exact Hx.
  - rewrite <- (firstn_skipn (S k) l). apply in_or_app. right. exact Hx.
Qed.

(** The loop terminates with a result, and the result is a run of the rule. *)
Lemma nn_loop_runs : forall n (ordered remaining : list Stroke),
  length remaining = n ->
  ordered <> [] -> last ordered [] <> [] -> Forall nonempty remaining ->
  exists final,
    nn_loop ordered remaining = Returned final
    /\ nn_run ordered remaining final.
Proof.
  induction n as [| n IH]; intros ordered remaining Hlen Hord Hlast Hne.
  - destruct remaining; [| discriminate].
    exists ordered. split; [apply nn_loop_nil | constructor].
  - assert (Hrem : remaining <> []) by (destruct remaining; [discriminate | congruence]).
    destruct (nn_step_selects ordered remaining Hord Hlast Hrem Hne)
      as (k & s & Hsel & Hstep).
    pose proof (selected_at _ _ _ _ Hsel) as Hat.
    destruct (IH (ordered ++ [placed (last (last ordered []) origin) s])
                 (firstn k remaining ++ skipn (S k) remaining))
      as (final & Hloop & Hrun).
    + apply nn_step_length in Hstep. lia.
    + intros E. apply app_eq_nil in E. destruct E; discriminate.
    + rewrite last_last. apply placed_nonempty.
      eapply (proj1 (Forall_forall nonempty remaining) Hne), nth_error_In, Hat.
    + apply Forall_remove_nth, Hne.
    + exists final. split.
      * rewrite (nn_loop_cons _ _ _ _ Hrem Hstep). exact Hloop.
      * eapply nn_run_pick; [exact Hsel | exact Hrun].
Qed.

(** ** The rule determines the result *)

Lemma selected_unique current_end remaining k s k' s' :
  selected current_end remaining k s ->
  selected current_end remaining k' s' ->
  k = k' /\ s = s'.
Proof.
  intros [Hat Hmin Hfirst] [Hat' Hmin' Hfirst'].
  assert (Hk : k = k').
  { destruct (Nat.lt_trichotomy k k') as [Hlt | [Heq | Hgt]]; [| exact Heq |].
    - specialize (Hfirst' k s Hlt Hat). specialize (Hmin k' s' Hat'). lra.
    - specialize (Hfirst k' s' Hgt Hat'). specialize (Hmin' k s Hat). lra. }
  split; [exact Hk |]. subst k'. congruence.
Qed.

Lemma nn_run_unique ordered remaining final final' :
  nn_run ordered remaining final ->
  nn_run ordered remaining final' ->
  final = final'.
Proof.
  intros Hrun. revert final'.
  induction Hrun as [ordered | ordered remaining k s final current_end Hsel _ IH];
    intros final' Hrun'.
  - inversion Hrun' as [| ? ? k' s' ? ? Hsel' _]; subst; [reflexivity |].
    destruct Hsel' as [Hat' _ _]. destruct k'; discriminate.
  - inversion Hrun' as [| ? ? k' s' ? ? Hsel' Hrest']; subst.
    + destruct Hsel as [Hat _ _]. destruct k; discriminate.
    + destruct (selected_unique _ _ _ _ _ _ Hsel Hsel') as [<- <-].
      apply IH, Hrest'.
Qed.

(** ** The result is a reordering *)

Lemma nth_error_middle {A : Type} (l : list A) (k : nat) (x : A) :
  nth_error l k = Some x -> l = firstn k l ++ x :: skipn (S k) l.
Proof.
  revert l. induction k as [| k IH]; intros [| y l] H; try discriminate.
  - cbn in H. injection H as ->. reflexivity.
  - cbn [firstn skipn app]. f_equal. apply IH, H.
Qed.

Lemma same_or_reversed_placed current_end s :
  same_or_reversed s (placed current_end s).
Proof. unfold placed, same_or_reversed. destruct (Rlt_dec _ _); auto. Qed.

Lemma nn_run_reordering ordered remaining final :
  nn_run ordered remaining final ->
  exists tail, final = ordered ++ tail /\ reordering remaining tail.
Proof.
  induction 1 as [ordered | ordered remaining k s final current_end Hsel _ IH].
  - exists []. split; [symmetry; apply app_nil_r |].
    exists []. split; constructor.
  - destruct IH as (tail & -> & rest' & Hperm & Hall).
    exists (placed current_end s :: tail).
    split; [rewrite <- app_assoc; reflexivity |].
    exists (s :: rest'). split.
    + rewrite (nth_error_middle remaining k s (selected_at _ _ _ _ Hsel)) at 1.
      symmetry. apply Permutation_cons_app. symmetry. exact Hperm.
    + constructor; [apply same_or_reversed_placed | exact Hall].
Qed.

Lemma reordering_refl paths : reordering paths paths.
Proof.
  exists paths. split; [apply Permutation_refl |].
  induction paths; constructor; [left; reflexivity | assumption].
Qed.

(** The source function on a non-empty stroke set of non-empty strokes. *)
Lemma nearest_neighbor_runs (seed : Stroke) (rest : list Stroke) :
  Forall nonempty (seed :: rest) ->
  exists ordered,
    _nearest_neighbor_order (seed :: rest) = Returned ordered
    /\ nn_run [seed] rest ordered.
Proof.
  intros Hne. inversion Hne as [| ? ? Hseed Hrest]; subst.
  unfold _nearest_neighbor_order. cbn [truthy negb first_item bind skipn].
  apply (nn_loop_runs (length rest)); try assumption; try reflexivity.
  discriminate.
Qed.

(** C5: on a non-empty list of non-empty strokes the ordering returns a
    result that starts with the first stroke as given and is a run of the
    rule: at every step the chosen stroke is the remaining one whose nearest
    endpoint is closest to the end of the last placed stroke, the first such
    stroke on a tie, appended reversed exactly when its end point is
    strictly nearer than its start point.  The rule leaves no freedom: it
    has one result only. *)
Theorem nearest_neighbor_follows_rule (paths : list Stroke) :
  paths <> [] -> Forall nonempty paths ->
  exists ordered,
    _nearest_neighbor_order paths = Returned ordered
    /\ hd [] ordered = hd [] paths
    /\ nn_ordering paths ordered
    /\ forall ordered', nn_ordering paths ordered' -> ordered' = ordered.
Proof.
  intros Hpaths Hne. destruct paths as [| seed rest]; [contradiction |].
  destruct (nearest_neighbor_runs seed rest Hne) as (ordered & Hret & Hrun).
  exists ordered. split; [exact Hret |]. split; [| split].
  - destruct (nn_run_reordering _ _ _ Hrun) as (tail & -> & _). reflexivity.
  - exact Hrun.
  - intros ordered' Hrun'. cbn [nn_ordering] in Hrun'.
    apply (nn_run_unique _ _ _ _ Hrun' Hrun).
Qed.

(** An instance: two strokes on the x axis. *)
Lemma nearest_neighbor_follows_rule_witness :
  let paths : list Stroke := [[(0, 0); (1, 0)]; [(5, 0); (2, 0)]] in
  paths <> [] /\ Forall nonempty paths
  /\ exists ordered,
       _nearest_neighbor_order paths = Returned ordered
       /\ nn_ordering paths ordered.
Proof.
  cbv zeta.
  assert (H1 : [[(0, 0); (1, 0)]; [(5, 0); (2, 0)]] <> ([] : list Stroke))
    by discriminate.
  assert (H2 : Forall nonempty [[(0, 0); (1, 0)]; [(5, 0); (2, 0)]])
    by (repeat constructor; discriminate).
  split; [exact H1 |]. split; [exact H2 |].
  destruct (nearest_neighbor_follows_rule _ H1 H2) as (ordered & Hret & _ & Hrun & _).
  exists ordered. split; [exact Hret | exact Hrun].
Defined.

(** C10: on strokes that are all non-empty the ordering returns a list in
    which every input stroke occurs exactly once, unchanged or with its
    points reversed: a permutation of the input up to reversal.  The same
    holds for [optimize_stroke_order] under every method. *)
Theorem nearest_neighbor_is_reordering (paths : list Stroke) :
  Forall nonempty paths ->
  (exists out,
     _nearest_neighbor_order paths = Returned out /\ reordering paths out)
  /\ forall method, exists out,
       optimize_stroke_order paths method = Returned out
       /\ reordering paths out.
Proof.
  intros Hne.
  assert (Hnn : exists out,
             _nearest_neighbor_order paths = Returned out /\ reordering paths out).
  { destruct paths as [| seed rest].
    - exists []. split; [reflexivity | apply reordering_refl].
    - destruct (nearest_neighbor_runs seed rest Hne) as (ordered & Hret & Hrun).
      exists ordered. split; [exact Hret |].
      destruct (nn_run_reordering _ _ _ Hrun) as (tail & -> & rest' & Hperm & Hall).
      exists (seed :: rest'). split.
      + apply perm_skip, Hperm.
      + constructor; [left; reflexivity | exact Hall]. }
  split; [exact Hnn |].
  intros method. unfold optimize_stroke_order.
  destruct (is_original method || (length paths <=? 1)%nat);
    [exists paths; split; [reflexivity | apply reordering_refl] |].
  destruct (is_nearest_neighbor method); [exact Hnn |].
  exists paths. split; [reflexivity | apply reordering_refl].
Qed.

(** An instance: the same two strokes. *)
Lemma nearest_neighbor_is_reordering_witness :
  let paths : list Stroke := [[(0, 0); (1, 0)]; [(5, 0); (2, 0)]] in
  Forall nonempty paths
  /\ exists out,
       _nearest_neighbor_order paths = Returned out /\ reordering paths out.
Proof.
  cbv zeta.
  assert (H : Forall nonempty [[(0, 0); (1, 0)]; [(5, 0); (2, 0)]])
    by (repeat constructor; discriminate).
  split; [exact H |].
  exact (proj1 (nearest_neighbor_is_reordering _ H)).
Defined.

(** ** The self-test strokes, ordered *)

Lemma point_distance_value p q s :
  (fst p - fst q) ^ 2 + (snd p - snd q) ^ 2 = s ->
  _point_distance p q = sqrt s.
Proof. intros H. unfold _point_distance. rewrite H. reflexivity. Qed.

Lemma sqrt_of_square x : 0 <= x -> sqrt (x ^ 2) = x.
Proof. apply sqrt_pow2. Qed.

(** On the strokes of the self-test the second stroke follows the first as
    given (its start is [sqrt 200] away, its end 20), and the third is
    traversed backwards (its end is 10 away, its start [sqrt 200]). *)
Example test_paths_ordered :
  _nearest_neighbor_order TransitionSpec.test_paths
  = Returned [ [(0, 0); (10, 0); (10, 10)];
               [(20, 0); (20, 10); (30, 10)];
               [(40, 10); (40, 0)] ].
Proof.
  unfold TransitionSpec.test_paths.
  destruct (nearest_neighbor_runs [(0, 0); (10, 0); (10, 10)]
              [[(20, 0); (20, 10); (30, 10)]; [(40, 0); (40, 10)]])
    as (ordered & Hret & Hrun).
  { repeat constructor; discriminate. }
  transitivity (Returned ordered); [exact Hret |].
  f_equal. eapply nn_run_unique; [exact Hrun |].
  pose proof (TransitionFacts.sqrt_between 14 15 200
                ltac:(lra) ltac:(lra) ltac:(lra)) as H200.
  pose proof (TransitionFacts.sqrt_between 31 32 1000
                ltac:(lra) ltac:(lra) ltac:(lra)) as H1000.
  assert (H400 : sqrt 400 = 20)
    by (replace 400 with (20 ^ 2) by lra; apply sqrt_of_square; lra).
  assert (H900 : sqrt 900 = 30)
    by (replace 900 with (30 ^ 2) by lra; apply sqrt_of_square; lra).
  assert (H100 : sqrt 100 = 10)
    by (replace 100 with (10 ^ 2) by lra; apply sqrt_of_square; lra).
  assert (Hs2 : start_distance (10, 10) [(20, 0); (20, 10); (30, 10)] = sqrt 200)
    by (apply point_distance_value; cbn [hd fst snd]; lra).
  assert (He2 : end_distance (10, 10) [(20, 0); (20, 10); (30, 10)] = 20)
    by (rewrite <- H400; apply point_distance_value; cbn [last fst snd]; lra).
  assert (Hs3 : start_distance (10, 10) [(40, 0); (40, 10)] = sqrt 1000)
    by (apply point_distance_value; cbn [hd fst snd]; lra).
  assert (He3 : end_distance (10, 10) [(40, 0); (40, 10)] = 30)
    by (rewrite <- H900; apply point_distance_value; cbn [last fst snd]; lra).
  assert (Hs3' : start_distance (30, 10) [(40, 0); (40, 10)] = sqrt 200)
    by (apply point_distance_value; cbn [hd fst snd]; lra).
  assert (He3' : end_distance (30, 10) [(40, 0); (40, 10)] = 10)
    by (rewrite <- H100; apply point_distance_value; cbn [last fst snd]; lra).
  eapply (nn_run_pick _ _ 0 [(20, 0); (20, 10); (30, 10)]); cbv zeta; cbn [last].
  { constructor.
    - reflexivity.
    - intros j t Hj. destruct j as [| [| j]]; cbn in Hj.
      + injection Hj as <-. lra.
      + injection Hj as <-. unfold endpoint_distance.
        rewrite Hs2, He2, Hs3, He3, Rmin_left, Rmin_right by lra. lra.
      + destruct j; discriminate.
    - intros j t Hj. lia. }
  unfold placed at 1. rewrite Hs2, He2.
  destruct (Rlt_dec 20 (sqrt 200)) as [H | _]; [lra |].
  cbn [app firstn skipn].
  eapply (nn_run_pick _ _ 0 [(40, 0); (40, 10)]); cbv zeta; cbn [last].
  { constructor.
    - reflexivity.
    - intros j t Hj. destruct j as [| j]; cbn in Hj.
      + injection Hj as <-. lra.
      + destruct j; discriminate.
    - intros j t Hj. lia. }
  unfold placed at 1. rewrite Hs3', He3'.
  destruct (Rlt_dec 10 (sqrt 200)) as [_ | H]; [| lra].
  cbn [app firstn skipn rev]. constructor.
Qed.

End OrderingFacts.

(** * Properties of the reduction *)

Module SimplifyFacts.

Import PathSimplifier SimplifySpec.

Lemma rdp_short points eps :
  (length points <= 2)%nat -> rdp points eps = points.
Proof.
  intros H. simp rdp.
  destruct (le_lt_dec (length points) 2) as [Hle | Hgt]; [| lia].
  simp rdp. reflexivity.
Qed.

Lemma rdp_long points eps :
  (2 < length points)%nat ->
  rdp points eps =
  if Rgt_dec (snd (farthest points)) eps
  then removelast (rdp (firstn (S (fst (farthest points))) points) eps)
         ++ rdp (skipn (fst (farthest points)) points) eps
  else [hd origin points; last points origin].
Proof.
  intros H. simp rdp.
  destruct (le_lt_dec (length points) 2) as [Hle | Hgt]; [lia |].
  simp rdp.
  destruct (inspect (farthest points)) as [[index dmax] Hfar].
  assert (Ei : fst (farthest points) = index) by (rewrite Hfar; reflexivity).
  assert (Ed : snd (farthest points) = dmax) by (rewrite Hfar; reflexivity).
  rewrite Ei, Ed. simp rdp.
  destruct (Rgt_dec dmax eps); simp rdp; reflexivity.
Qed.

(** ** Lists by index *)

Section ListsByIndex.

Context {A : Type}.
Implicit Types (l a b : list A) (d : A).

Lemma length_ind (P : list A -> Prop) :
  (forall l, (forall l', (length l' < length l)%nat -> P l') -> P l) ->
  forall l, P l.
Proof.
  intros step l. remember (length l) as n eqn:E. revert l E.
  induction n as [n IH] using lt_wf_ind. intros l ->.
  apply step. intros l' Hlt. apply (IH (length l') Hlt l' eq_refl).
Qed.

Lemma hd_nth0 l d : hd d l = nth 0 l d.
Proof. destruct l; reflexivity. Qed.

Lemma last_nth l d : last l d = nth (length l - 1) l d.
Proof.
  induction l as [| x [| y l] IH]; try reflexivity.
  change (last (x :: y :: l) d) with (last (y :: l) d).
  rewrite IH. cbn [length Nat.sub nth]. rewrite Nat.sub_0_r. reflexivity.
Qed.

Lemma length_removelast l : length (removelast l) = (length l - 1)%nat.
Proof. rewrite removelast_firstn_len, length_firstn. lia. Qed.

Lemma nth_removelast l i d :
  (i < length l - 1)%nat -> nth i (removelast l) d = nth i l d.
Proof.
  intros H. rewrite removelast_firstn_len, nth_firstn.
  destruct (Nat.ltb_spec i (pred (length l))); [reflexivity | lia].
Qed.

(** [removelast a ++ b]: two pieces that share a point, joined. *)
Lemma length_join a b :
  length (removelast a ++ b) = (length a - 1 + length b)%nat.
Proof. rewrite length_app, length_removelast. reflexivity. Qed.

Lemma nth_join_left a b i d :
  (i < length a - 1)%nat -> nth i (removelast a ++ b) d = nth i a d.
Proof.
  intros H. rewrite app_nth1 by (rewrite length_removelast; exact H).
  apply nth_removelast, H.
Qed.

Lemma nth_join_right a b i d :
  (length a - 1 <= i)%nat ->
  nth i (removelast a ++ b) d = nth (i - (length a - 1)) b d.
Proof.
  intros H. rewrite app_nth2 by (rewrite length_removelast; exact H).
  rewrite length_removelast. reflexivity.
Qed.

Lemma nth_firstn_lt l n i d :
  (i < n)%nat -> nth i (firstn n l) d = nth i l d.
Proof.
  intros H. rewrite nth_firstn.
  destruct (Nat.ltb_spec i n); [reflexivity | lia].
Qed.

End ListsByIndex.

(** ** The shape of the reduction *)

Lemma rdp_shape eps : forall points,
  (2 <= length points)%nat ->
  (2 <= length (rdp points eps) <= length points)%nat
  /\ nth 0 (rdp points eps) origin = nth 0 points origin
  /\ nth (length (rdp points eps) - 1) (rdp points eps) origin
     = nth (length points - 1) points origin.
Proof.
  induction points as [points IH] using length_ind. intros Hlen.
  destruct (le_lt_dec (length points) 2) as [Hshort | Hlong].
  - rewrite rdp_short by exact Hshort. repeat split; lia || reflexivity.
  - rewrite rdp_long by exact Hlong.
    pose proof (farthest_bounds points Hlong) as Hk.
    set (k := fst (farthest points)) in *.
    destruct (Rgt_dec _ eps) as [Hgt | Hle].
    + destruct (IH (firstn (S k) points)) as ((Ha1 & Ha2) & Ha0 & Halast);
        [rewrite length_firstn; lia .. |].
      destruct (IH (skipn k points)) as ((Hb1 & Hb2) & Hb0 & Hblast);
        [rewrite length_skipn; lia .. |].
      rewrite length_firstn in *. rewrite length_skipn in *.
      rewrite length_join. repeat split; try lia.
      * rewrite nth_join_left by lia. rewrite Ha0.
        apply nth_firstn_lt. lia.
      * rewrite nth_join_right by lia.
        replace (length (rdp (firstn (S k) points) eps) - 1
                 + length (rdp (skipn k points) eps) - 1
                 - (length (rdp (firstn (S k) points) eps) - 1))%nat
          with (length (rdp (skipn k points) eps) - 1)%nat by lia.
        rewrite Hblast, nth_skipn. f_equal. lia.
    + cbn [length]. repeat split; try lia.
      * cbn [nth]. apply hd_nth0.
      * cbn [Nat.sub nth]. apply last_nth.
Qed.

Lemma rdp_monotone eps1 eps2 : eps1 <= eps2 -> forall points,
  (length (rdp points eps2) <= length (rdp points eps1))%nat.
Proof.
  intros Heps. induction points as [points IH] using length_ind.
  destruct (le_lt_dec (length points) 2) as [Hshort | Hlong].
  - rewrite !rdp_short by exact Hshort. lia.
  - pose proof (rdp_shape eps1 points ltac:(lia)) as ((Hlow & _) & _).
    rewrite (rdp_long points eps2) by exact Hlong.
    destruct (Rgt_dec _ eps2) as [Hgt2 | Hle2]; [| cbn [length]; lia].
    rewrite (rdp_long points eps1) by exact Hlong.
    destruct (Rgt_dec _ eps1) as [Hgt1 | Hle1]; [| lra].
    pose proof (farthest_bounds points Hlong) as Hk.
    set (k := fst (farthest points)) in *.
    assert (Hl : (length (firstn (S k) points) < length points)%nat)
      by (rewrite length_firstn; lia).
    assert (Hr : (length (skipn k points) < length points)%nat)
      by (rewrite length_skipn; lia).
    pose proof (IH _ Hl) as IHl. pose proof (IH _ Hr) as IHr.
    rewrite !length_join. lia.
Qed.

(** ** The scan for the farthest point *)

Lemma first_max_unique g m k d k' d' :
  first_max g m k d -> first_max g m k' d' -> k = k' /\ d = d'.
Proof.
  intros (Hk & -> & Hmax & Hfirst) (Hk' & -> & Hmax' & Hfirst').
  assert (E : k = k').
  { destruct (Nat.lt_trichotomy k k') as [Hlt | [Heq | Hgt]]; [| exact Heq |].
    - specialize (Hfirst' k ltac:(lia)). specialize (Hmax k' ltac:(lia)). lra.
    - specialize (Hfirst k' ltac:(lia)). specialize (Hmax' k ltac:(lia)). lra. }
  subst k'. split; reflexivity.
Qed.

Lemma farthest_scan points count : forall best,
  first_max (deviation points) 2 (fst best) (snd best) ->
  let best' := fold_left (farthest_body points) (seq 2 count) best in
  first_max (deviation points) (2 + count) (fst best') (snd best').
Proof.
  induction count as [| count IH]; intros best Hbest; cbv zeta.
  - cbn [seq fold_left]. rewrite Nat.add_0_r. exact Hbest.
  - rewrite seq_S, fold_left_app. cbn [fold_left].
    specialize (IH best Hbest). cbv zeta in IH.
    destruct (fold_left (farthest_body points) (seq 2 count) best) as [k d].
    cbn [fst snd] in IH. destruct IH as (Hk & Hd & Hmax & Hfirst).
    unfold farthest_body. cbn [snd]. fold (deviation points (2 + count)).
    destruct (Rgt_dec (deviation points (2 + count)) d) as [Hgt | Hle];
      cbn [fst snd]; unfold first_max.
    + repeat split; try lia.
      * intros i Hi. destruct (Nat.eq_dec i (2 + count)) as [-> | Hne]; [lra |].
        specialize (Hmax i ltac:(lia)). lra.
      * intros i Hi. specialize (Hmax i ltac:(lia)). lra.
    + repeat split; try lia; try assumption.
      intros i Hi. destruct (Nat.eq_dec i (2 + count)) as [-> | Hne]; [lra |].
      apply Hmax. lia.
Qed.

Lemma farthest_first_max points :
  (2 < length points)%nat ->
  first_max (deviation points) (length points - 1)
    (fst (farthest points)) (snd (farthest points)).
Proof.
  intros Hlen.
  assert (Hstart : first_max (deviation points) 2 1 (deviation points 1)).
  { unfold first_max. repeat split; try lia.
    all: intros i Hi; try lia.
    replace i with 1%nat by lia. lra. }
  pose proof (farthest_scan points (length points - 1 - 2)
                (1%nat, deviation points 1) Hstart) as H.
  cbv zeta in H.
  replace (2 + (length points - 1 - 2))%nat with (length points - 1)%nat in H by lia.
  exact H.
Qed.

(** ** Kept points are points of the input *)

(** The two halves at a split, with what [rdp_shape] says of each. *)
Lemma split_shapes eps points k :
  (1 <= k <= length points - 2)%nat ->
  let left_part := rdp (firstn (S k) points) eps in
  let right_part := rdp (skipn k points) eps in
  (2 <= length left_part <= S k)%nat
  /\ (2 <= length right_part <= length points - k)%nat
  /\ nth 0 left_part origin = nth 0 points origin
  /\ nth (length left_part - 1) left_part origin = nth k points origin
  /\ nth 0 right_part origin = nth k points origin
  /\ nth (length right_part - 1) right_part origin
     = nth (length points - 1) points origin.
Proof.
  intros Hk. cbv zeta.
  destruct (rdp_shape eps (firstn (S k) points)) as (Ha & Ha0 & Halast);
    [rewrite length_firstn; lia |].
  destruct (rdp_shape eps (skipn k points)) as (Hb & Hb0 & Hblast);
    [rewrite length_skipn; lia |].
  rewrite length_firstn in *. rewrite length_skipn in *.
  repeat split; try lia.
  - rewrite Ha0. apply nth_firstn_lt. lia.
  - rewrite Halast. replace (Nat.min (S k) (length points) - 1)%nat with k by lia.
    apply nth_firstn_lt. lia.
  - rewrite Hb0, nth_skipn. f_equal. lia.
  - rewrite Hblast, nth_skipn. f_equal. lia.
Qed.

Lemma rdp_interior eps : forall points i,
  (1 <= i <= length (rdp points eps) - 2)%nat ->
  exists j,
    (1 <= j <= length points - 2)%nat
    /\ nth i (rdp points eps) origin = nth j points origin.
Proof.
  induction points as [points IH] using length_ind. intros i.
  destruct (le_lt_dec (length points) 2) as [Hshort | Hlong].
  - rewrite rdp_short by exact Hshort. intros Hi. exists i. split; [lia | reflexivity].
  - rewrite rdp_long by exact Hlong.
    pose proof (farthest_bounds points Hlong) as Hk.
    set (k := fst (farthest points)) in *.
    destruct (Rgt_dec _ eps) as [Hgt | Hle]; [| cbn [length]; lia].
    destruct (split_shapes eps points k Hk)
      as (Ha & Hb & Ha0 & Halast & Hb0 & Hblast).
    set (left_part := rdp (firstn (S k) points) eps) in *.
    set (right_part := rdp (skipn k points) eps) in *.
    rewrite length_join. intros Hi.
    destruct (Nat.lt_trichotomy i (length left_part - 1)) as [Hlt | [Heq | Hgt']].
    + rewrite nth_join_left by exact Hlt.
      destruct (IH (firstn (S k) points)) with (i := i) as (j & Hj & Hnth).
      * rewrite length_firstn. lia.
      * fold left_part. lia.
      * rewrite length_firstn in Hj. exists j. split; [lia |].
        fold left_part in Hnth. rewrite Hnth. apply nth_firstn_lt. lia.
    + rewrite nth_join_right by lia. rewrite Heq, Nat.sub_diag, Hb0.
      exists k. split; [lia | reflexivity].
    + rewrite nth_join_right by lia.
      destruct (IH (skipn k points)) with (i := (i - (length left_part - 1))%nat)
        as (j & Hj & Hnth).
      * rewrite length_skipn. lia.
      * fold right_part. lia.
      * rewrite length_skipn in Hj. exists (k + j)%nat. split; [lia |].
        fold right_part in Hnth. rewrite Hnth. apply nth_skipn.
Qed.

(** ** Simplifying twice *)

(** After a split at [k], the kept point at index [k] is again the first
    farthest point of the result. *)
Lemma farthest_of_split eps points :
  (2 < length points)%nat ->
  snd (farthest points) > eps ->
  let k := fst (farthest points) in
  let left_part := rdp (firstn (S k) points) eps in
  let right_part := rdp (skipn k points) eps in
  farthest (removelast left_part ++ right_part)
  = ((length left_part - 1)%nat, snd (farthest points)).
Proof.
  intros Hlong Hgt. cbv zeta.
  pose proof (farthest_bounds points Hlong) as Hk.
  pose proof (farthest_first_max points Hlong) as (_ & Hd & Hmax & Hfirst).
  pose proof (rdp_shape eps points ltac:(lia)) as (_ & Hq0 & Hqlast).
  assert (Hint : forall i, (1 <= i <= length (rdp points eps) - 2)%nat ->
            exists j, (1 <= j <= length points - 2)%nat
                      /\ nth i (rdp points eps) origin = nth j points origin)
    by (apply rdp_interior).
  rewrite rdp_long in Hq0, Hqlast, Hint by exact Hlong.
  destruct (Rgt_dec (snd (farthest points)) eps) as [_ | Hn]; [| contradiction].
  set (k := fst (farthest points)) in *.
  set (d := snd (farthest points)) in *.
  destruct (split_shapes eps points k Hk)
    as (Ha & Hb & Ha0 & Halast & Hb0 & Hblast).
  set (left_part := rdp (firstn (S k) points) eps) in *.
  set (right_part := rdp (skipn k points) eps) in *.
  set (q := removelast left_part ++ right_part) in *.
  assert (Hlen : length q = (length left_part - 1 + length right_part)%nat)
    by apply length_join.
  assert (Hdev : forall i, deviation q i
                 = perpendicular_distance (nth i q origin)
                     (hd origin points) (last points origin)).
  { intros i. unfold deviation.
    rewrite (hd_nth0 q), (last_nth q), Hq0, Hqlast.
    rewrite <- hd_nth0, <- last_nth. reflexivity. }
  (* every interior point of [q] before the kept one lies before [k] *)
  assert (Hbefore : forall i, (1 <= i < length left_part - 1)%nat ->
            deviation q i < d).
  { intros i Hi. rewrite Hdev. unfold q. rewrite nth_join_left by lia.
    destruct (rdp_interior eps (firstn (S k) points) i) as (j & Hj & Hnth).
    - fold left_part. lia.
    - rewrite length_firstn in Hj. fold left_part in Hnth.
      rewrite Hnth, nth_firstn_lt by lia. apply (Hfirst j). fold k. lia. }
  assert (Hat : deviation q (length left_part - 1) = d).
  { rewrite Hdev. unfold q. rewrite nth_join_right, Nat.sub_diag, Hb0 by lia.
    symmetry. exact Hd. }
  assert (Hafter : forall i, (length left_part - 1 < i < length q - 1)%nat ->
            deviation q i <= d).
  { intros i Hi. rewrite Hdev. unfold q. rewrite nth_join_right by lia.
    destruct (rdp_interior eps (skipn k points) (i - (length left_part - 1)))
      as (j & Hj & Hnth).
    - fold right_part. lia.
    - rewrite length_skipn in Hj. fold right_part in Hnth.
      rewrite Hnth, nth_skipn. apply (Hmax (k + j)%nat). lia. }
  assert (Hq : first_max (deviation q) (length q - 1) (length left_part - 1) d).
  { unfold first_max. repeat split.
    - lia.
    - lia.
    - symmetry. exact Hat.
    - intros i Hi.
      destruct (Nat.lt_trichotomy i (length left_part - 1)) as [Hlt | [-> | Hgt']].
      + apply Rlt_le, Hbefore. lia.
      + rewrite Hat. lra.
      + apply Hafter. lia.
    - intros i Hi. apply Hbefore. lia. }
  pose proof (farthest_first_max q ltac:(lia)) as Hfar.
  destruct (first_max_unique _ _ _ _ _ _ Hfar Hq) as [E1 E2].
  destruct (farthest q) as [k' d']. cbn [fst snd] in *. congruence.
Qed.

Lemma rdp_idempotent eps : forall points,
  rdp (rdp points eps) eps = rdp points eps.
Proof.
  induction points as [points IH] using length_ind.
  destruct (le_lt_dec (length points) 2) as [Hshort | Hlong].
  - rewrite (rdp_short points) by exact Hshort. apply rdp_short, Hshort.
  - rewrite (rdp_long points) by exact Hlong.
    destruct (Rgt_dec (snd (farthest points)) eps) as [Hgt | Hle].
    2: { apply rdp_short. cbn [length]. lia. }
    pose proof (farthest_bounds points Hlong) as Hk.
    pose proof (farthest_of_split eps points Hlong Hgt) as Hfar. cbv zeta in Hfar.
    set (k := fst (farthest points)) in *.
    destruct (split_shapes eps points k Hk)
      as (Ha & Hb & Ha0 & Halast & Hb0 & Hblast).
    assert (IHl : rdp (rdp (firstn (S k) points) eps) eps
                  = rdp (firstn (S k) points) eps)
      by (apply IH; rewrite length_firstn; lia).
    assert (IHr : rdp (rdp (skipn k points) eps) eps = rdp (skipn k points) eps)
      by (apply IH; rewrite length_skipn; lia).
    set (left_part := rdp (firstn (S k) points) eps) in *.
    set (right_part := rdp (skipn k points) eps) in *.
    rewrite rdp_long by (rewrite length_join; lia).
    rewrite Hfar. cbn [fst snd].
    destruct (Rgt_dec (snd (farthest points)) eps) as [_ | Hn]; [| contradiction].
    assert (Hfirst : firstn (S (length left_part - 1))
                       (removelast left_part ++ right_part) = left_part).
    { rewrite firstn_app, length_removelast.
      rewrite firstn_all2 by (rewrite length_removelast; lia).
      replace (S (length left_part - 1) - (length left_part - 1))%nat
        with 1%nat by lia.
      destruct right_part as [| b0 right_rest] eqn:Er; [cbn [length] in Hb; lia |].
      cbn [firstn]. cbn [nth] in Hb0. rewrite Hb0, <- Halast, <- last_nth.
      symmetry. apply app_removelast_last.
      intros E. rewrite E in Ha. cbn [length] in Ha. lia. }
    assert (Hrest : skipn (length left_part - 1)
                      (removelast left_part ++ right_part) = right_part).
    { rewrite skipn_app, length_removelast, Nat.sub_diag.
      rewrite skipn_all2 by (rewrite length_removelast; lia).
      reflexivity. }
    rewrite Hfirst, Hrest, IHl, IHr. reflexivity.
Qed.

(** ** [simplify_path] *)

Lemma simplify_path_rdp self points :
  simplify_path self points = rdp points (epsilon self).
Proof.
  unfold simplify_path, simplify_coords.
  destruct (Nat.ltb_spec (length points) 3) as [Hlt | Hge]; [| reflexivity].
  symmetry. apply rdp_short. lia.
Qed.

(** The peak of the triangle (0,0),(1,1),(2,0) is 1 away from its base. *)
Lemma triangle_peak_distance : perpendicular_distance (1, 1) (0, 0) (2, 0) = 1.
Proof.
  unfold perpendicular_distance. cbn [fst snd].
  replace ((2 - 0) ^ 2 + (0 - 0) ^ 2) with (2 ^ 2) by ring.
  rewrite sqrt_pow2 by lra.
  destruct (Req_dec_T 2 0) as [H | _]; [lra |].
  replace ((2 - 0) * (0 - 1) - (0 - 1) * (0 - 0)) with (- (2)) by ring.
  rewrite Rabs_Ropp, Rabs_pos_eq by lra. field.
Qed.

(** A tolerance below the peak keeps it, a tolerance above drops it. *)
Example simplify_triangle :
  simplify_path (init (Some 0.5) 20) [(0, 0); (1, 1); (2, 0)]
  = [(0, 0); (1, 1); (2, 0)]
  /\ simplify_path (init (Some 2) 20) [(0, 0); (1, 1); (2, 0)]
     = [(0, 0); (2, 0)].
Proof.
  assert (Hfar : farthest [(0, 0); (1, 1); (2, 0)] = (1%nat, 1)).
  { unfold farthest. cbn [length Nat.sub range seq fold_left nth hd last].
    rewrite triangle_peak_distance. reflexivity. }
  rewrite !simplify_path_rdp. cbn [init epsilon].
  split; rewrite rdp_long by (cbn [length]; lia); rewrite Hfar; cbn [fst snd].
  - destruct (Rgt_dec 1 0.5) as [_ | H]; [| lra].
    rewrite !rdp_short by (cbn [length firstn skipn]; lia). reflexivity.
  - destruct (Rgt_dec 1 2) as [H | _]; [lra | reflexivity].
Qed.

(** C6: for a polyline of at least two points and a tolerance epsilon >= 0,
    the output of [simplify_path] begins with the first input point, ends
    with the last input point, and has no more points than the input (and
    at least two, so that its first and last point exist). *)
Theorem simplify_keeps_endpoints (self : t) (points : list Point2D) :
  (2 <= length points)%nat -> 0 <= epsilon self ->
  hd origin (simplify_path self points) = hd origin points
  /\ last (simplify_path self points) origin = last points origin
  /\ (2 <= length (simplify_path self points) <= length points)%nat.
Proof.
  intros Hlen _. rewrite simplify_path_rdp.
  destruct (rdp_shape (epsilon self) points Hlen) as (Hbounds & H0 & Hlast).
  rewrite !hd_nth0, !last_nth. repeat split; try assumption; lia.
Qed.

(** An instance: the triangle, tolerance 0.5. *)
Lemma simplify_keeps_endpoints_witness :
  let self := init (Some 0.5) 20 in
  let points := [(0, 0); (1, 1); (2, 0)] in
  (2 <= length points)%nat /\ 0 <= epsilon self
  /\ hd origin (simplify_path self points) = hd origin points
  /\ last (simplify_path self points) origin = last points origin.
Proof.
  cbv zeta.
  assert (H1 : (2 <= length [(0, 0); (1, 1); (2, 0)])%nat) by (cbn [length]; lia).
  assert (H2 : 0 <= epsilon (init (Some 0.5) 20)) by (cbn [init epsilon]; lra).
  destruct (simplify_keeps_endpoints (init (Some 0.5) 20)
              [(0, 0); (1, 1); (2, 0)] H1 H2) as (Hhd & Hlast & _).
  split; [exact H1 |]. split; [exact H2 |]. split; [exact Hhd | exact Hlast].
Defined.

(** C7: for every polyline and every tolerance epsilon >= 0, simplifying
    the output of [simplify_path] again with the same tolerance returns the
    same point sequence. *)
Theorem simplify_idempotent (self : t) (points : list Point2D) :
  0 <= epsilon self ->
  simplify_path self (simplify_path self points) = simplify_path self points.
Proof.
  intros _. rewrite !simplify_path_rdp. apply rdp_idempotent.
Qed.

(** An instance: the triangle, tolerance 0.5. *)
Lemma simplify_idempotent_witness :
  let self := init (Some 0.5) 20 in
  let points := [(0, 0); (1, 1); (2, 0)] in
  0 <= epsilon self
  /\ simplify_path self (simplify_path self points) = simplify_path self points.
Proof.
  cbv zeta.
  assert (H : 0 <= epsilon (init (Some 0.5) 20)) by (cbn [init epsilon]; lra).
  split; [exact H |].
  exact (simplify_idempotent (init (Some 0.5) 20) [(0, 0); (1, 1); (2, 0)] H).
Defined.

(** C8: for a fixed polyline and tolerances eps1 <= eps2, the output of
    [simplify_path] at eps2 has at most as many points as its output at
    eps1. *)
Theorem simplify_monotone (self1 self2 : t) (points : list Point2D) :
  epsilon self1 <= epsilon self2 ->
  (length (simplify_path self2 points)
   <= length (simplify_path self1 points))%nat.
Proof.
  intros Heps. rewrite !simplify_path_rdp. apply rdp_monotone, Heps.
Qed.

(** An instance: the triangle, tolerances 0.5 and 2. *)
Lemma simplify_monotone_witness :
  let self1 := init (Some 0.5) 20 in
  let self2 := init (Some 2) 20 in
  let points := [(0, 0); (1, 1); (2, 0)] in
  epsilon self1 <= epsilon self2
  /\ (length (simplify_path self2 points)
      <= length (simplify_path self1 points))%nat.
Proof.
  cbv zeta.
  assert (H : epsilon (init (Some 0.5) 20) <= epsilon (init (Some 2) 20))
    by (cbn [init epsilon]; lra).
  split; [exact H |].
  exact (simplify_monotone (init (Some 0.5) 20) (init (Some 2) 20)
           [(0, 0); (1, 1); (2, 0)] H).
Defined.

End SimplifyFacts.

(** * Further properties of the transition engine *)

Module AssemblyFacts.

Import PathTransitionHandler OrderingSpec AssemblySpec.

(** ** [add_transitions], stroke by stroke *)

Lemma nth_middle_app {A : Type} (pre : list A) (x : A) (rest : list A) (d : A) :
  nth (length pre) (pre ++ x :: rest) d = x.
Proof. rewrite app_nth2, Nat.sub_diag by lia. reflexivity. Qed.

Lemma nth_before_app {A : Type} (pre : list A) (x : A) (rest : list A) (d : A) :
  pre <> [] -> nth (length pre - 1) (pre ++ x :: rest) d = last pre d.
Proof.
  intros Hne. destruct (exists_last Hne) as (pre' & y & ->).
  rewrite last_last, length_app. cbn [length].
  replace (length pre' + 1 - 1)%nat with (length pre') by lia.
  rewrite <- app_assoc. cbn [app]. apply nth_middle_app.
Qed.

Lemma add_transitions_body_step self (pre : list Stroke) (path : Stroke)
  (rest : list Stroke) (acc : list Waypoint3D) :
  add_transitions_body self (pre ++ path :: rest) acc (length pre)
  = acc ++ map (lift self)
             (if truthy path then skipn (join_start (last pre []) path) path
              else []).
Proof.
  unfold add_transitions_body. rewrite nth_middle_app.
  destruct path as [| p path']; cbn [truthy negb].
  - cbn [map]. symmetry. apply app_nil_r.
  - f_equal. unfold join_start.
    destruct pre as [| s pre'] eqn:Epre.
    + cbn [length Nat.ltb Nat.leb andb last truthy]. reflexivity.
    + rewrite <- Epre.
      assert (Hne : pre <> []) by (rewrite Epre; discriminate).
      assert (Hpos : (0 <? length pre)%nat = true)
        by (apply Nat.ltb_lt; rewrite Epre; cbn [length]; lia).
      rewrite Hpos, (nth_before_app pre (p :: path') rest [] Hne).
      cbn [andb]. destruct (truthy (last pre [])); cbn [andb]; [| reflexivity].
      destruct (same_point _ _); reflexivity.
Qed.

Lemma add_transitions_fold self (suf : list Stroke) :
  forall (pre : list Stroke) (acc : list Waypoint3D),
    fold_left (add_transitions_body self (pre ++ suf))
              (seq (length pre) (length suf)) acc
    = acc ++ map (lift self) (assemble (last pre []) suf).
Proof.
  induction suf as [| path rest IH]; intros pre acc.
  - cbn. symmetry. apply app_nil_r.
  - cbn [length seq fold_left assemble].
    rewrite add_transitions_body_step.
    replace (pre ++ path :: rest) with ((pre ++ [path]) ++ rest)
      by (rewrite <- app_assoc; reflexivity).
    replace (S (length pre)) with (length (pre ++ [path]))
      by (rewrite length_app; cbn [length]; lia).
    rewrite IH, last_last, map_app, app_assoc. reflexivity.
Qed.

(** The waypoints are the kept planar points, lifted to the write
    altitude. *)
Lemma add_transitions_assemble self (paths : list Stroke) :
  add_transitions self paths = map (lift self) (assemble [] paths).
Proof.
  unfold add_transitions. destruct paths as [| path rest]; [reflexivity |].
  cbn [truthy negb]. unfold range. rewrite Nat.sub_0_r.
  apply (add_transitions_fold self (path :: rest) [] []).
Qed.

Lemma assemble_In prev (paths : list Stroke) (p : Point2D) :
  In p (assemble prev paths) -> exists path, In path paths /\ In p path.
Proof.
  revert prev. induction paths as [| path rest IH]; intros prev Hin.
  - destruct Hin.
  - cbn [assemble] in Hin. apply in_app_or in Hin. destruct Hin as [Hin | Hin].
    + exists path. split; [left; reflexivity |].
      destruct (truthy path); [| destruct Hin].
      rewrite <- (firstn_skipn (join_start prev path) path).
      apply in_or_app. right. exact Hin.
    + destruct (IH path Hin) as (s & Hs & Hp). exists s. split; [right |]; assumption.
Qed.

(** X1: every waypoint of [add_transitions] lies at the write altitude and
    is a point of one of the input strokes; the transit altitude plays no
    part. *)
Theorem add_transitions_waypoints self (paths : list Stroke) (w : Waypoint3D) :
  In w (add_transitions self paths) ->
  w2 w = write_altitude self
  /\ exists path, In path paths /\ In (w0 w, w1 w) path.
Proof.
  rewrite add_transitions_assemble. intros Hin.
  apply in_map_iff in Hin. destruct Hin as (p & <- & Hp).
  split; [reflexivity |].
  destruct (assemble_In [] paths p Hp) as (path & Hpath & Hin).
  exists path. split; [exact Hpath |]. destruct p. exact Hin.
Qed.

(** An instance: the second waypoint of two joined strokes. *)
Lemma add_transitions_waypoints_witness :
  In (1, 0, 30) (add_transitions (init 30 10) [[(0, 0); (1, 0)]])
  /\ w2 (1, 0, 30) = write_altitude (init 30 10).
Proof.
  assert (H : In (1, 0, 30) (add_transitions (init 30 10) [[(0, 0); (1, 0)]])).
  { rewrite add_transitions_assemble. right. left. reflexivity. }
  split; [exact H |].
  exact (proj1 (add_transitions_waypoints (init 30 10) [[(0, 0); (1, 0)]]
                  (1, 0, 30) H)).
Defined.

Lemma join_start_le prev path : (join_start prev path <= 1)%nat.
Proof. unfold join_start. destruct (_ && _); lia. Qed.

Lemma total_points_cons (path : Stroke) (rest : list Stroke) :
  total_points (path :: rest) = (length path + total_points rest)%nat.
Proof. reflexivity. Qed.

Lemma assemble_length prev (paths : list Stroke) :
  (length (assemble prev paths) <= total_points paths
   <= length (assemble prev paths) + length paths)%nat.
Proof.
  revert prev. induction paths as [| path rest IH]; intros prev.
  - cbn. lia.
  - cbn [assemble length]. rewrite total_points_cons.
    specialize (IH path). rewrite length_app.
    pose proof (join_start_le prev path).
    destruct (truthy path) eqn:E.
    + rewrite length_skipn. lia.
    + destruct path; [cbn [length]; lia | discriminate].
Qed.

Lemma assemble_first_length (path : Stroke) (rest : list Stroke) :
  (total_points (path :: rest)
   <= length (assemble [] (path :: rest)) + length rest)%nat.
Proof.
  cbn [assemble]. rewrite total_points_cons.
  pose proof (assemble_length path rest) as H.
  rewrite length_app. unfold join_start. cbn [truthy andb].
  destruct (truthy path) eqn:E.
  - cbn [skipn]. lia.
  - destruct path; [cbn [length]; lia | discriminate].
Qed.

Lemma assemble_nil (paths : list Stroke) :
  assemble [] paths = [] <-> Forall (fun s => s = []) paths.
Proof.
  induction paths as [| path rest IH].
  - split; [constructor | reflexivity].
  - cbn [assemble]. destruct path as [| p path'].
    + cbn [truthy app]. rewrite IH. split.
      * intros H. constructor; [reflexivity | exact H].
      * intros H. inversion H. assumption.
    + unfold join_start. cbn [truthy andb skipn app]. split.
      * discriminate.
      * intros H. inversion H. discriminate.
Qed.

(** X2: [add_transitions] returns at most as many waypoints as the strokes
    have points, and drops at most one point per join; it returns no
    waypoint at all exactly when every stroke is empty. *)
Theorem add_transitions_count self (paths : list Stroke) :
  (length (add_transitions self paths) <= total_points paths
   <= length (add_transitions self paths) + (length paths - 1))%nat
  /\ (add_transitions self paths = [] <-> Forall (fun s => s = []) paths).
Proof.
  rewrite add_transitions_assemble, length_map. split; [split |].
  - apply assemble_length.
  - destruct paths as [| path rest]; [cbn; lia |].
    pose proof (assemble_first_length path rest). cbn [length]. lia.
  - rewrite <- assemble_nil. split.
    + intros H. apply map_eq_nil in H. exact H.
    + intros ->. reflexivity.
Qed.

(** ** No zero-length join *)

Lemma same_point_true_iff (p q : Point2D) : same_point p q = true <-> p = q.
Proof.
  unfold same_point. destruct p as [px py], q as [qx qy]. cbn [fst snd].
  destruct (Req_dec_T px qx) as [Hx | Hx];
    [destruct (Req_dec_T py qy) as [Hy | Hy] |]; split; intros H;
    try discriminate; try congruence; try reflexivity.
Qed.

Lemma no_repeat_tail {A : Type} (x : A) (l : list A) :
  no_repeat (x :: l) -> no_repeat l.
Proof. destruct l; cbn; tauto. Qed.

Lemma no_repeat_skipn {A : Type} (n : nat) (l : list A) :
  no_repeat l -> no_repeat (skipn n l).
Proof.
  revert l. induction n as [| n IH]; intros l H; [exact H |].
  destruct l as [| x l]; [exact H |]. cbn [skipn].
  apply IH. eapply no_repeat_tail, H.
Qed.

Lemma no_repeat_app {A : Type} (a b : list A) (d : A) :
  no_repeat a -> no_repeat b ->
  (a <> [] -> b <> [] -> last a d <> hd d b) ->
  no_repeat (a ++ b).
Proof.
  induction a as [| x a IH]; intros Ha Hb Hjoin; [exact Hb |].
  destruct a as [| y a].
  - cbn [app]. destruct b as [| z b]; [exact I |].
    cbn [no_repeat]. split; [| exact Hb].
    apply (Hjoin ltac:(discriminate) ltac:(discriminate)).
  - cbn [app no_repeat] in *. destruct Ha as [Hxy Ha]. split; [exact Hxy |].
    apply IH; [exact Ha | exact Hb |].
    intros _ Hne. apply Hjoin; [discriminate | exact Hne].
Qed.

Lemma no_repeat_map {A B : Type} (f : A -> B) (l : list A) :
  (forall x y, f x = f y -> x = y) -> no_repeat l -> no_repeat (map f l).
Proof.
  intros Hinj. induction l as [| x [| y l] IH]; intros H; try exact I.
  cbn [map no_repeat] in *. destruct H as [Hxy H]. split.
  - intros E. apply Hxy, Hinj, E.
  - apply IH, H.
Qed.

Lemma last_skipn_1 (path : Stroke) :
  skipn 1 path <> [] -> last (skipn 1 path) origin = last path origin.
Proof.
  destruct path as [| p [| q path]]; cbn [skipn]; try congruence.
  reflexivity.
Qed.

(** The kept points have no repeated neighbour, and do not start with the
    point the previous stroke ended on. *)
Lemma assemble_no_repeat (paths : list Stroke) : forall prev,
  Forall nonempty paths -> Forall no_repeat paths ->
  no_repeat (assemble prev paths)
  /\ (prev <> [] -> assemble prev paths <> [] ->
      last prev origin <> hd origin (assemble prev paths)).
Proof.
  induction paths as [| path rest IH]; intros prev Hne Hnr.
  - cbn [assemble]. split; [exact I | congruence].
  - inversion Hne as [| ? ? Hpath Hrest]; subst.
    inversion Hnr as [| ? ? Hnrp Hnrrest]; subst.
    destruct (IH path Hrest Hnrrest) as [IHnr IHhd].
    cbn [assemble].
    destruct path as [| p path']; [contradiction Hpath; reflexivity |].
    cbn [truthy]. unfold join_start.
    destruct (truthy prev && same_point (last prev origin) (hd origin (p :: path')))
      eqn:Ejoin.
    + (* the first point repeats the previous end and is skipped *)
      apply andb_prop in Ejoin. destruct Ejoin as [_ Esame].
      apply same_point_true_iff in Esame. cbn [hd] in Esame.
      cbn [skipn]. split.
      * apply (no_repeat_app _ _ origin);
          [eapply no_repeat_tail, Hnrp | exact IHnr |].
        intros Hp' Hx.
        rewrite <- (last_skipn_1 (p :: path')) in IHhd by exact Hp'.
        apply IHhd; [discriminate | exact Hx].
      * intros Hprev Hout. rewrite Esame.
        destruct path' as [| q path''].
        -- cbn [app] in *. apply IHhd; [discriminate | exact Hout].
        -- cbn [app hd]. cbn [no_repeat] in Hnrp. apply Hnrp.
    + cbn [skipn]. split.
      * apply (no_repeat_app _ _ origin); [exact Hnrp | exact IHnr |].
        intros _ Hx. apply IHhd; [discriminate | exact Hx].
      * intros Hprev _. cbn [app hd].
        assert (Et : truthy prev = true) by (destruct prev; [contradiction | reflexivity]).
        rewrite Et in Ejoin. cbn [andb hd] in Ejoin.
        intros E. apply same_point_true_iff in E. congruence.
Qed.

(** X3: when every stroke is non-empty and has no two equal neighbouring
    points, the waypoints of [add_transitions] have no two equal neighbours:
    dropping the repeated first point of a stroke leaves no zero-length
    segment. *)
Theorem add_transitions_no_repeat self (paths : list Stroke) :
  Forall nonempty paths -> Forall no_repeat paths ->
  no_repeat (add_transitions self paths).
Proof.
  intros Hne Hnr. rewrite add_transitions_assemble.
  apply no_repeat_map.
  - intros [x y] [x' y']. unfold lift. cbn [fst snd]. congruence.
  - apply (assemble_no_repeat paths [] Hne Hnr).
Qed.

(** An instance: the second stroke starts where the first one ends. *)
Lemma add_transitions_no_repeat_witness :
  let paths : list Stroke := [[(0, 0); (1, 0)]; [(1, 0); (1, 1)]] in
  Forall nonempty paths /\ Forall no_repeat paths
  /\ no_repeat (add_transitions (init 30 10) paths).
Proof.
  cbv zeta.
  assert (H1 : Forall nonempty [[(0, 0); (1, 0)]; [(1, 0); (1, 1)]])
    by (repeat constructor; discriminate).
  assert (H2 : Forall no_repeat [[(0, 0); (1, 0)]; [(1, 0); (1, 1)]]).
  { repeat constructor; intros E; injection E; lra. }
  split; [exact H1 |]. split; [exact H2 |].
  exact (add_transitions_no_repeat (init 30 10) _ H1 H2).
Defined.

(** ** The estimate as a sum over segments *)

Lemma segment_time_is_value dist v a :
  a <> 0 -> segment_time dist v a = Returned (segment_time_value dist v a).
Proof.
  intros Ha. unfold segment_time, segment_time_value.
  rewrite (TransitionFacts.float_div_nonzero v a Ha). cbn [bind].
  destruct (Rle_dec _ _); reflexivity.
Qed.

Lemma mission_loop_value v a (rest : list Waypoint3D) :
  a <> 0 ->
  forall (pre : list Waypoint3D) (p : Waypoint3D) (total_time total_distance : R),
    for_each (seq (S (length pre)) (length rest)) (total_time, total_distance)
             (mission_time_body (pre ++ p :: rest) v a)
    = Returned
        (total_time
         + Rsum (map (fun d => segment_time_value d v a)
                     (segment_lengths (p :: rest))),
         total_distance + Rsum (segment_lengths (p :: rest))).
Proof.
  intros Ha. induction rest as [| q rest IH]; intros pre p T D.
  - cbn. rewrite !Rplus_0_r. reflexivity.
  - cbn [length seq for_each]. unfold mission_time_body at 1.
    replace (S (length pre) - 1)%nat with (length pre) by lia.
    rewrite nth_middle_app.
    replace (nth (S (length pre)) (pre ++ p :: q :: rest) origin3) with q.
    2: { replace (pre ++ p :: q :: rest) with ((pre ++ [p]) ++ q :: rest)
           by (rewrite <- app_assoc; reflexivity).
         replace (S (length pre)) with (length (pre ++ [p]))
           by (rewrite length_app; cbn [length]; lia).
         symmetry. apply nth_middle_app. }
    rewrite (segment_time_is_value _ v a Ha). cbn [bind].
    replace (pre ++ p :: q :: rest) with ((pre ++ [p]) ++ q :: rest)
      by (rewrite <- app_assoc; reflexivity).
    replace (S (S (length pre))) with (S (length (pre ++ [p])))
      by (rewrite length_app; cbn [length]; lia).
    rewrite IH. cbn [segment_lengths map Rsum fold_right].
    f_equal. f_equal; unfold Rsum; ring.
Qed.

Lemma segment_lengths_short (waypoints : list Waypoint3D) :
  (length waypoints <= 1)%nat -> segment_lengths waypoints = [].
Proof. destruct waypoints as [| p [| q l]]; cbn; intros; reflexivity || lia. Qed.

(** With a non-zero acceleration the estimate returns the sums of the
    segment times and of the segment lengths. *)
Lemma mission_time_value (waypoints : list Waypoint3D) v a :
  a <> 0 ->
  exists r,
    calculate_mission_time waypoints v a = Returned r
    /\ total_time_s r
       = Rsum (map (fun d => segment_time_value d v a)
                   (segment_lengths waypoints))
    /\ total_distance_m r = Rsum (segment_lengths waypoints).
Proof.
  intros Ha. unfold calculate_mission_time.
  destruct (Nat.leb_spec (length waypoints) 1) as [Hshort | Hlong].
  - eexists. split; [reflexivity |].
    rewrite (segment_lengths_short waypoints Hshort). cbn. split; reflexivity.
  - destruct waypoints as [| p rest]; [cbn [length] in Hlong; lia |].
    unfold range. cbn [length]. rewrite Nat.sub_succ, Nat.sub_0_r.
    pose proof (mission_loop_value v a rest Ha [] p 0 0) as Hloop.
    cbn [length app] in Hloop. rewrite Hloop. cbn [bind].
    eexists. split; [reflexivity |]. cbn [total_time_s total_distance_m].
    split; ring.
Qed.

Lemma Rsum_nonneg (l : list R) : Forall (fun x => 0 <= x) l -> 0 <= Rsum l.
Proof.
  induction 1 as [| x l Hx _ IH]; cbn; [lra |]. unfold Rsum in IH. lra.
Qed.

Lemma segment_lengths_nonneg (waypoints : list Waypoint3D) :
  Forall (fun d => 0 <= d) (segment_lengths waypoints).
Proof.
  induction waypoints as [| p [| q rest] IH]; cbn [segment_lengths];
    try constructor; [apply sqrt_pos | exact IH].
Qed.


(** X4: the estimate raises [ZeroDivisionError] exactly when the
    acceleration is zero and the path has at least two waypoints.  A path of
    at most one waypoint gives the zero estimate whatever the speed and the
    acceleration, and a path of any length gives an estimate when neither
    of the two is zero.  (A zero speed with a non-zero acceleration is left
    out: NumPy divides by it without raising and yields an infinite time,
    which the real numbers of the model do not have.) *)
Theorem mission_time_raises_iff (waypoints : list Waypoint3D) (v a : R) :
  (calculate_mission_time waypoints v a = Raised ZeroDivisionError
   <-> (2 <= length waypoints)%nat /\ a = 0)
  /\ ((length waypoints <= 1)%nat ->
      calculate_mission_time waypoints v a
      = Returned {| total_time_s := 0;
                    total_time_formatted := "0s";
                    total_distance_m := 0 |})
  /\ (v <> 0 -> a <> 0 ->
      exists r, calculate_mission_time waypoints v a = Returned r).
Proof.
  split; [| split].
  - destruct (Req_dec_T a 0) as [-> | Ha].
    + destruct waypoints as [| p [| q rest]].
      * split; cbn; intros H; [discriminate | destruct H; lia].
      * split; cbn; intros H; [discriminate | destruct H; lia].
      * rewrite TransitionFacts.mission_time_zero_acceleration. split.
        -- intros _. cbn [length]. split; [lia | reflexivity].
        -- reflexivity.
    + destruct (mission_time_value waypoints v a Ha) as (r & Hr & _).
      rewrite Hr. split; [discriminate | intros [_ H]; contradiction].
  - intros Hshort. unfold calculate_mission_time.
    destruct (Nat.leb_spec (length waypoints) 1); [reflexivity | lia].
  - intros _ Ha.
    destruct (mission_time_value waypoints v a Ha) as (r & Hr & _).
    exists r. exact Hr.
Qed.

(** X5: with a non-zero speed and acceleration the total distance of the
    estimate is the sum of the 3D segment lengths of the path: it is not
    negative and does not depend on the speed or the acceleration.  (The
    speed is asked to be non-zero because an infinite time, which a zero
    speed gives in NumPy, is outside the model; the distance itself does
    not use it.) *)
Theorem mission_distance_is_path_length (waypoints : list Waypoint3D) (v a : R) :
  v <> 0 -> a <> 0 ->
  exists r,
    calculate_mission_time waypoints v a = Returned r
    /\ total_distance_m r = Rsum (segment_lengths waypoints)
    /\ 0 <= total_distance_m r.
Proof.
  intros _ Ha. destruct (mission_time_value waypoints v a Ha) as (r & Hr & _ & Hd).
  exists r. split; [exact Hr |]. split; [exact Hd |].
  rewrite Hd. apply Rsum_nonneg, segment_lengths_nonneg.
Qed.

(** An instance: one segment of 10 m at acceleration 3. *)
Lemma mission_distance_is_path_length_witness :
  3 <> 0
  /\ 3 <> 0
  /\ exists r,
       calculate_mission_time [(0, 0, 0); (10, 0, 0)] 3 3 = Returned r
       /\ total_distance_m r = Rsum (segment_lengths [(0, 0, 0); (10, 0, 0)]).
Proof.
  assert (H : 3 <> 0) by lra.
  split; [exact H |]. split; [exact H |].
  destruct (mission_distance_is_path_length [(0, 0, 0); (10, 0, 0)] 3 3 H H)
    as (r & Hr & Hd & _).
  exists r. split; [exact Hr | exact Hd].
Defined.

(** ** The estimate against the cruise speed *)









(** ** Transition statistics *)

Lemma py_sum_acc (l : list R) (acc : R) : fold_left Rplus l acc = acc + Rsum l.
Proof.
  revert acc. induction l as [| x l IH]; intros acc; cbn [fold_left Rsum fold_right].
  - ring.
  - rewrite IH. unfold Rsum. ring.
Qed.

Lemma py_sum_Rsum (l : list R) : py_sum l = Rsum l.
Proof. unfold py_sum. rewrite py_sum_acc. ring. Qed.

Lemma fold_max_ge (l : list R) (m : R) :
  m <= fold_left Rmax l m /\ forall x, In x l -> x <= fold_left Rmax l m.
Proof.
  revert m. induction l as [| y l IH]; intros m; cbn [fold_left].
  - split; [lra | intros x []].
  - destruct (IH (Rmax m y)) as [H1 H2].
    pose proof (Rmax_l m y). pose proof (Rmax_r m y). split; [lra |].
    intros x [<- | Hx]; [lra | apply H2, Hx].
Qed.

Lemma fold_max_in (l : list R) (m : R) :
  fold_left Rmax l m = m \/ In (fold_left Rmax l m) l.
Proof.
  revert m. induction l as [| y l IH]; intros m; cbn [fold_left].
  - left. reflexivity.
  - destruct (IH (Rmax m y)) as [H | H]; [| right; right; exact H].
    rewrite H. unfold Rmax. destruct (Rle_dec m y); [right; left |]; auto.
Qed.

Lemma fold_min_le (l : list R) (m : R) :
  fold_left Rmin l m <= m /\ forall x, In x l -> fold_left Rmin l m <= x.
Proof.
  revert m. induction l as [| y l IH]; intros m; cbn [fold_left].
  - split; [lra | intros x []].
  - destruct (IH (Rmin m y)) as [H1 H2].
    pose proof (Rmin_l m y). pose proof (Rmin_r m y). split; [lra |].
    intros x [<- | Hx]; [lra | apply H2, Hx].
Qed.

Lemma fold_min_in (l : list R) (m : R) :
  fold_left Rmin l m = m \/ In (fold_left Rmin l m) l.
Proof.
  revert m. induction l as [| y l IH]; intros m; cbn [fold_left].
  - left. reflexivity.
  - destruct (IH (Rmin m y)) as [H | H]; [| right; right; exact H].
    rewrite H. unfold Rmin. destruct (Rle_dec m y); [| right; left]; auto.
Qed.

(** [max(l)] is an element of a non-empty [l] and bounds every element;
    likewise [min(l)]. *)
Lemma py_max_spec (l : list R) :
  l <> [] -> In (py_max l) l /\ forall x, In x l -> x <= py_max l.
Proof.
  destruct l as [| m l]; [congruence |]. intros _. cbn [py_max].
  destruct (fold_max_ge l m) as [H1 H2]. split.
  - destruct (fold_max_in l m) as [-> | H]; [left; reflexivity | right; exact H].
  - intros x [<- | Hx]; [exact H1 | apply H2, Hx].
Qed.

Lemma py_min_spec (l : list R) :
  l <> [] -> In (py_min l) l /\ forall x, In x l -> py_min l <= x.
Proof.
  destruct l as [| m l]; [congruence |]. intros _. cbn [py_min].
  destruct (fold_min_le l m) as [H1 H2]. split.
  - destruct (fold_min_in l m) as [-> | H]; [left; reflexivity | right; exact H].
  - intros x [<- | Hx]; [exact H1 | apply H2, Hx].
Qed.

Lemma Rsum_ge_element (l : list R) (x : R) :
  Forall (fun y => 0 <= y) l -> In x l -> x <= Rsum l.
Proof.
  induction 1 as [| y l Hy Hl IH]; intros Hin; [destruct Hin |].
  cbn [Rsum fold_right]. fold (Rsum l).
  pose proof (Rsum_nonneg l Hl). destruct Hin as [<- | Hin]; [lra |].
  specialize (IH Hin). lra.
Qed.

Lemma item_middle {A : Type} (pre : list A) (x : A) (rest : list A) :
  item (pre ++ x :: rest) (length pre) = Returned x.
Proof.
  unfold item. rewrite nth_error_app2, Nat.sub_diag by lia. reflexivity.
Qed.

Lemma item_after {A : Type} (pre : list A) (x y : A) (rest : list A) :
  item (pre ++ x :: y :: rest) (S (length pre)) = Returned y.
Proof.
  replace (pre ++ x :: y :: rest) with ((pre ++ [x]) ++ y :: rest)
    by (rewrite <- app_assoc; reflexivity).
  replace (S (length pre)) with (length (pre ++ [x]))
    by (rewrite length_app; cbn [length]; lia).
  apply item_middle.
Qed.

(** The loop of [calculate_transition_stats] collects the gaps. *)
Lemma transition_loop_gaps (rest : list Stroke) :
  forall (pre : list Stroke) (p : Stroke) (distances : list R),
    Forall nonempty (p :: rest) ->
    for_each (seq (S (length pre)) (length rest)) distances
             (transition_stats_body (pre ++ p :: rest))
    = Returned (distances ++ gaps (p :: rest)).
Proof.
  induction rest as [| q rest IH]; intros pre p distances Hne.
  - cbn. rewrite app_nil_r. reflexivity.
  - inversion Hne as [| ? ? Hp Hrest]; subst.
    inversion Hrest as [| ? ? Hq _]; subst.
    cbn [length seq for_each]. unfold transition_stats_body at 1.
    replace (S (length pre) - 1)%nat with (length pre) by lia.
    rewrite item_middle. cbn [bind].
    rewrite (OrderingFacts.last_item_nonempty p origin Hp). cbn [bind].
    rewrite item_after. cbn [bind].
    rewrite (OrderingFacts.first_item_nonempty q origin Hq). cbn [bind].
    replace (pre ++ p :: q :: rest) with ((pre ++ [p]) ++ q :: rest)
      by (rewrite <- app_assoc; reflexivity).
    replace (S (S (length pre))) with (S (length (pre ++ [p])))
      by (rewrite length_app; cbn [length]; lia).
    rewrite (IH _ _ _ Hrest). cbn [gaps]. rewrite <- app_assoc. reflexivity.
Qed.

Lemma nonempty_or_empty (paths : list Stroke) :
  Forall nonempty paths \/ Exists (fun s => s = []) paths.
Proof.
  induction paths as [| p paths [IH | IH]].
  - left. constructor.
  - destruct p as [| p0 p'].
    + right. left. reflexivity.
    + left. constructor; [discriminate | exact IH].
  - right. right. exact IH.
Qed.

(** An empty stroke stops the loop with [IndexError]. *)
Lemma transition_loop_raises (rest : list Stroke) :
  forall (pre : list Stroke) (p : Stroke) (distances : list R),
    rest <> [] -> Exists (fun s => s = []) (p :: rest) ->
    for_each (seq (S (length pre)) (length rest)) distances
             (transition_stats_body (pre ++ p :: rest))
    = Raised IndexError.
Proof.
  induction rest as [| q rest IH]; intros pre p distances Hrest Hex;
    [congruence |].
  assert (Hsplit : pre ++ p :: q :: rest = (pre ++ [p]) ++ q :: rest)
    by (rewrite <- app_assoc; reflexivity).
  assert (Hlen : S (S (length pre)) = S (length (pre ++ [p])))
    by (rewrite length_app; cbn [length]; lia).
  cbn [length seq for_each]. unfold transition_stats_body at 1.
  replace (S (length pre) - 1)%nat with (length pre) by lia.
  rewrite item_middle, item_after. cbn [bind].
  destruct (nonempty_or_empty [p]) as [Hp | Hp].
  2: { inversion Hp as [? ? E | ? ? Hnil]; subst; [reflexivity | inversion Hnil]. }
  inversion Hp as [| ? ? Hp' _]; subst.
  rewrite (OrderingFacts.last_item_nonempty p origin Hp'). cbn [bind].
  destruct (nonempty_or_empty [q]) as [Hq | Hq].
  2: { inversion Hq as [? ? E | ? ? Hnil]; subst; [reflexivity | inversion Hnil]. }
  inversion Hq as [| ? ? Hq' _]; subst.
  rewrite (OrderingFacts.first_item_nonempty q origin Hq'). cbn [bind].
  rewrite Hsplit, Hlen.
  inversion Hex as [? ? E | ? ? Hex']; subst; [contradiction |].
  apply IH; [| exact Hex'].
  intros ->. inversion Hex' as [? ? E | ? ? Hnil]; subst;
    [contradiction | inversion Hnil].
Qed.

Lemma nonempty_not_empty (paths : list Stroke) :
  Forall nonempty paths -> Exists (fun s => s = []) paths -> False.
Proof.
  intros Hne Hex. apply Exists_exists in Hex. destruct Hex as (s & Hin & ->).
  apply (proj1 (Forall_forall _ _) Hne [] Hin). reflexivity.
Qed.

Lemma gaps_length (paths : list Stroke) :
  length (gaps paths) = (length paths - 1)%nat.
Proof.
  induction paths as [| p [| q rest] IH]; try reflexivity.
  cbn [gaps length] in *. lia.
Qed.

Lemma gaps_nonneg (paths : list Stroke) : Forall (fun d => 0 <= d) (gaps paths).
Proof.
  induction paths as [| p [| q rest] IH]; cbn [gaps]; try constructor;
    [apply sqrt_pos | exact IH].
Qed.

(** On non-empty strokes the statistics are those of the list of gaps. *)
Lemma transition_stats_value (paths : list Stroke) :
  Forall nonempty paths ->
  exists r,
    calculate_transition_stats paths = Returned r
    /\ num_transitions r = length (gaps paths)
    /\ total_transition_distance r = Rsum (gaps paths)
    /\ avg_transition_distance r
       = (if truthy (gaps paths)
          then Rsum (gaps paths) / INR (length (gaps paths)) else 0)
    /\ max_transition_distance r
       = (if truthy (gaps paths) then py_max (gaps paths) else 0).
Proof.
  intros Hne. unfold calculate_transition_stats.
  destruct (Nat.leb_spec (length paths) 1) as [Hshort | Hlong].
  - eexists. split; [reflexivity |].
    destruct paths as [| p [| q rest]]; [| | cbn [length] in Hshort; lia];
      cbn; repeat split; reflexivity.
  - destruct paths as [| p rest]; [cbn [length] in Hlong; lia |].
    unfold range. cbn [length]. rewrite Nat.sub_succ, Nat.sub_0_r.
    pose proof (transition_loop_gaps rest [] p [] Hne) as Hloop.
    cbn [length app] in Hloop. rewrite Hloop. cbn [bind].
    eexists. split; [reflexivity |].
    cbn [num_transitions total_transition_distance avg_transition_distance
         max_transition_distance].
    rewrite !py_sum_Rsum. repeat split; reflexivity.
Qed.

(** X7: [calculate_transition_stats] raises exactly when there are at
    least two strokes and one of them is empty, and then it is
    [IndexError]; with at most one stroke it returns zeros whatever the
    stroke holds. *)
Theorem transition_stats_raises_iff (paths : list Stroke) :
  (calculate_transition_stats paths = Raised IndexError
   <-> (2 <= length paths)%nat /\ Exists (fun s => s = []) paths)
  /\ ((exists r, calculate_transition_stats paths = Returned r)
      <-> (length paths <= 1)%nat \/ Forall nonempty paths).
Proof.
  destruct (Nat.leb_spec (length paths) 1) as [Hshort | Hlong].
  - assert (E : exists r, calculate_transition_stats paths = Returned r).
    { unfold calculate_transition_stats.
      destruct (Nat.leb_spec (length paths) 1); [| lia]. eexists. reflexivity. }
    destruct E as [r Hr]. rewrite Hr. split; split.
    + discriminate.
    + intros [H _]. lia.
    + intros _. left. exact Hshort.
    + intros _. exists r. reflexivity.
  - destruct (nonempty_or_empty paths) as [Hne | Hex].
    + destruct (transition_stats_value paths Hne) as (r & Hr & _).
      rewrite Hr. split; split.
      * discriminate.
      * intros [_ Hex]. destruct (nonempty_not_empty paths Hne Hex).
      * intros _. right. exact Hne.
      * intros _. exists r. reflexivity.
    + assert (E : calculate_transition_stats paths = Raised IndexError).
      { unfold calculate_transition_stats.
        destruct (Nat.leb_spec (length paths) 1); [lia |].
        destruct paths as [| p rest]; [cbn [length] in Hlong; lia |].
        unfold range. cbn [length]. rewrite Nat.sub_succ, Nat.sub_0_r.
        pose proof (transition_loop_raises rest [] p []) as Hloop.
        cbn [length app] in Hloop. rewrite Hloop; [reflexivity | | exact Hex].
        intros ->. cbn [length] in Hlong. lia. }
      rewrite E. split; split.
      * intros _. split; [lia | exact Hex].
      * reflexivity.
      * intros [r Hr]. discriminate.
      * intros [H | Hne]; [lia | destruct (nonempty_not_empty paths Hne Hex)].
Qed.

(** X8: on at least two non-empty strokes the statistics count one
    transition per pair of neighbours; the maximum is the largest of the
    pen-up gaps (it is one of them and none exceeds it) and lies between 0
    and the total; the average lies between 0 and the total, and, over the
    real numbers of the model, the average times the count is the total. *)
Theorem transition_stats_ordered (paths : list Stroke) :
  (2 <= length paths)%nat -> Forall nonempty paths ->
  exists r,
    calculate_transition_stats paths = Returned r
    /\ num_transitions r = (length paths - 1)%nat
    /\ avg_transition_distance r * INR (num_transitions r)
       = total_transition_distance r
    /\ In (max_transition_distance r) (gaps paths)
    /\ Forall (fun d => d <= max_transition_distance r) (gaps paths)
    /\ 0 <= max_transition_distance r <= total_transition_distance r
    /\ 0 <= avg_transition_distance r <= total_transition_distance r.
Proof.
  intros Hlen Hne.
  destruct (transition_stats_value paths Hne) as (r & Hr & Hn & Ht & Ha & Hm).
  exists r. split; [exact Hr |].
  pose proof (gaps_length paths) as Hgl.
  pose proof (gaps_nonneg paths) as Hpos.
  assert (Hgne : gaps paths <> [])
    by (intros E; rewrite E in Hgl; cbn [length] in Hgl; lia).
  assert (Et : truthy (gaps paths) = true)
    by (destruct (gaps paths); [congruence | reflexivity]).
  rewrite Et in Ha, Hm. rewrite Hn, Ht, Ha, Hm.
  destruct (py_max_spec (gaps paths) Hgne) as [Hin Hub].
  assert (Hcount : 0 < INR (length (gaps paths)))
    by (apply lt_0_INR; rewrite Hgl; lia).
  pose proof (Rsum_nonneg _ Hpos) as Hsum.
  pose proof (Rsum_ge_element _ _ Hpos Hin) as Hmax.
  assert (Hone : 1 <= INR (length (gaps paths))).
  { change 1 with (INR 1). apply le_INR. rewrite Hgl. lia. }
  split; [exact Hgl |]. split; [field; lra |].
  split; [exact Hin |].
  split; [apply Forall_forall; exact Hub |].
  split; [split |].
  - apply Rle_trans with (py_max (gaps paths)); [| apply Rle_refl].
    apply (proj1 (Forall_forall _ _) Hpos _ Hin).
  - exact Hmax.
  - split; [apply Rle_mult_inv_pos; assumption |].
    apply Rmult_le_reg_r with (INR (length (gaps paths))); [exact Hcount |].
    replace (Rsum (gaps paths) / INR (length (gaps paths))
             * INR (length (gaps paths)))
      with (Rsum (gaps paths)) by (field; lra).
    nra.
Qed.

(** An instance: two strokes one metre apart. *)
Lemma transition_stats_ordered_witness :
  let paths : list Stroke := [[(0, 0); (1, 0)]; [(2, 0); (3, 0)]] in
  (2 <= length paths)%nat /\ Forall nonempty paths
  /\ exists r,
       calculate_transition_stats paths = Returned r
       /\ num_transitions r = 1%nat.
Proof.
  cbv zeta.
  set (paths := [[(0, 0); (1, 0)]; [(2, 0); (3, 0)]] : list Stroke).
  assert (H1 : (2 <= length paths)%nat) by (cbn [paths length]; lia).
  assert (H2 : Forall nonempty paths)
    by (repeat constructor; discriminate).
  split; [exact H1 |]. split; [exact H2 |].
  destruct (transition_stats_ordered paths H1 H2) as (r & Hr & Hn & _).
  exists r. split; [exact Hr | exact Hn].
Defined.

(** ** The flown distance: strokes plus gaps *)

Lemma segment_distance_lift self (p q : Point2D) :
  segment_distance (lift self p) (lift self q) = _point_distance q p.
Proof.
  unfold segment_distance, _point_distance, lift, w0, w1, w2. cbn [fst snd].
  f_equal. ring.
Qed.

Lemma point_distance_sym (p q : Point2D) :
  _point_distance p q = _point_distance q p.
Proof. unfold _point_distance. f_equal. ring. Qed.

Lemma point_distance_refl (p : Point2D) : _point_distance p p = 0.
Proof.
  unfold _point_distance.
  replace ((fst p - fst p) ^ 2 + (snd p - snd p) ^ 2) with 0 by ring.
  apply sqrt_0.
Qed.

Lemma segment_lengths_lift self (points : list Point2D) :
  segment_lengths (map (lift self) points) = planar_lengths points.
Proof.
  induction points as [| p [| q rest] IH]; try reflexivity.
  cbn [map segment_lengths planar_lengths] in *.
  rewrite IH, segment_distance_lift, point_distance_sym. reflexivity.
Qed.

(** The length of a path that continues from the last point of [a]. *)
Lemma stroke_length_app (a b : list Point2D) :
  a <> [] ->
  stroke_length (a ++ b) = stroke_length a + stroke_length (last a origin :: b).
Proof.
  induction a as [| x [| y a] IH]; intros Hne; [congruence | |].
  - cbn [app last]. unfold stroke_length. cbn. ring.
  - specialize (IH ltac:(discriminate)).
    change (last (x :: y :: a) origin) with (last (y :: a) origin).
    unfold stroke_length in *. cbn [app planar_lengths Rsum fold_right] in *.
    rewrite IH. ring.
Qed.

Lemma stroke_length_cons (c : Point2D) (l : list Point2D) :
  l <> [] ->
  stroke_length (c :: l) = _point_distance c (hd origin l) + stroke_length l.
Proof. destruct l as [| x l]; [congruence |]. intros _. reflexivity. Qed.

Lemma stroke_length_single (c : Point2D) : stroke_length [c] = 0.
Proof. reflexivity. Qed.

Lemma hd_skipn_1 (path : Stroke) :
  path <> [] -> hd origin path :: skipn 1 path = path.
Proof. destruct path; [congruence | reflexivity]. Qed.

(** From the end of [prev] through the kept points of [paths]: the gaps
    and the strokes, one after the other. *)
Lemma assemble_length_from (paths : list Stroke) : forall prev,
  prev <> [] -> Forall nonempty paths ->
  stroke_length (last prev origin :: assemble prev paths)
  = Rsum (gaps (prev :: paths)) + Rsum (map stroke_length paths).
Proof.
  induction paths as [| path rest IH]; intros prev Hprev Hne.
  - cbn. unfold stroke_length. cbn. ring.
  - inversion Hne as [| ? ? Hpath Hrest]; subst.
    specialize (IH path Hpath Hrest).
    assert (Et : truthy prev = true)
      by (destruct prev; [contradiction | reflexivity]).
    assert (Ep : truthy path = true)
      by (destruct path; [contradiction Hpath; reflexivity | reflexivity]).
    cbn [assemble]. rewrite Ep. unfold join_start. rewrite Et. cbn [andb].
    change (gaps (prev :: path :: rest))
      with (_point_distance (last prev origin) (hd origin path)
            :: gaps (path :: rest)).
    cbn [map Rsum fold_right]. fold (Rsum (gaps (path :: rest))).
    fold (Rsum (map stroke_length rest)).
    destruct (same_point (last prev origin) (hd origin path)) eqn:Esame.
    + apply same_point_true_iff in Esame. rewrite Esame, point_distance_refl.
      rewrite app_comm_cons, (hd_skipn_1 path Hpath).
      rewrite stroke_length_app by exact Hpath. rewrite IH.
      cbv delta [Stroke]. ring.
    + cbn [skipn].
      rewrite stroke_length_cons
        by (destruct path; [contradiction Hpath; reflexivity | discriminate]).
      assert (Ehd : hd origin (path ++ assemble path rest) = hd origin path)
        by (destruct path; [contradiction Hpath; reflexivity | reflexivity]).
      rewrite Ehd, stroke_length_app by exact Hpath. rewrite IH.
      cbv delta [Stroke]. ring.
Qed.

Lemma assemble_length_total (paths : list Stroke) :
  Forall nonempty paths ->
  stroke_length (assemble [] paths)
  = Rsum (gaps paths) + Rsum (map stroke_length paths).
Proof.
  intros Hne. destruct paths as [| path rest]; [cbn; unfold stroke_length; cbn; ring |].
  inversion Hne as [| ? ? Hpath Hrest]; subst.
  assert (Ep : truthy path = true)
    by (destruct path; [contradiction Hpath; reflexivity | reflexivity]).
  cbn [assemble]. rewrite Ep. unfold join_start. cbn [truthy andb skipn].
  rewrite stroke_length_app by exact Hpath.
  rewrite (assemble_length_from rest path Hpath Hrest).
  cbn [map Rsum fold_right]. unfold Rsum. cbv delta [Stroke]. ring.
Qed.

(** X9: for non-empty strokes and a non-zero speed and acceleration, the
    total distance estimated over the assembled path is the sum of the
    stroke lengths plus the total transition distance that
    [calculate_transition_stats] reports for the same strokes: dropping a
    repeated join point changes neither. *)
Theorem assembled_distance_is_strokes_plus_gaps self (paths : list Stroke)
  (v a : R) :
  Forall nonempty paths -> v <> 0 -> a <> 0 ->
  exists r stats,
    calculate_mission_time (add_transitions self paths) v a = Returned r
    /\ calculate_transition_stats paths = Returned stats
    /\ total_distance_m r
       = Rsum (map stroke_length paths) + total_transition_distance stats.
Proof.
  intros Hne _ Ha.
  destruct (mission_time_value (add_transitions self paths) v a Ha)
    as (r & Hr & _ & Hd).
  destruct (transition_stats_value paths Hne) as (stats & Hs & _ & Ht & _).
  exists r, stats. split; [exact Hr |]. split; [exact Hs |].
  rewrite Hd, Ht, add_transitions_assemble, segment_lengths_lift.
  fold (stroke_length (assemble [] paths)).
  rewrite (assemble_length_total paths Hne). ring.
Qed.

(** An instance: two strokes that share a join point. *)
Lemma assembled_distance_is_strokes_plus_gaps_witness :
  let paths : list Stroke := [[(0, 0); (1, 0)]; [(1, 0); (1, 1)]] in
  Forall nonempty paths /\ 3 <> 0 /\ 3 <> 0
  /\ exists r stats,
       calculate_mission_time (add_transitions (init 30 10) paths) 3 3
       = Returned r
       /\ calculate_transition_stats paths = Returned stats
       /\ total_distance_m r
          = Rsum (map stroke_length paths) + total_transition_distance stats.
Proof.
  cbv zeta.
  set (paths := [[(0, 0); (1, 0)]; [(1, 0); (1, 1)]] : list Stroke).
  assert (H1 : Forall nonempty paths) by (repeat constructor; discriminate).
  assert (H2 : 3 <> 0) by lra.
  split; [exact H1 |]. split; [exact H2 |]. split; [exact H2 |].
  exact (assembled_distance_is_strokes_plus_gaps (init 30 10) paths 3 3 H1 H2 H2).
Defined.

End AssemblyFacts.

(** * Further properties of nearest-neighbour ordering *)

Module OrderingEdgeFacts.

Import PathTransitionHandler OrderingSpec AssemblySpec.

(** ** Empty strokes *)

Lemma scan_raises current_end (todo : list Stroke) : forall (k : nat) st,
  Exists (fun s => s = []) todo ->
  for_each (combine (seq k (length todo)) todo) st (scan_body current_end)
  = Raised IndexError.
Proof.
  induction todo as [| path todo IH]; intros k [min_dist nearest_idx] Hex.
  - inversion Hex.
  - change (length (path :: todo)) with (S (length todo)).
    cbn [seq combine for_each].
    destruct (AssemblyFacts.nonempty_or_empty [path]) as [Hp | Hp].
    + inversion Hp as [| ? ? Hp' _]; subst.
      rewrite (OrderingFacts.scan_body_returns _ _ _ _ _ Hp'). cbn [bind].
      apply IH. inversion Hex as [? ? E | ? ? Hex']; subst;
        [contradiction | exact Hex'].
    + inversion Hp as [? ? E | ? ? Hnil]; subst; [reflexivity | inversion Hnil].
Qed.

Lemma nn_loop_raises (ordered remaining : list Stroke) (e : exn) :
  remaining <> [] ->
  nn_step ordered remaining = Raised e ->
  nn_loop ordered remaining = Raised e.
Proof.
  intros Hrem Hstep. destruct remaining as [| r rs]; [contradiction |].
  simp nn_loop.
  destruct (Logic.inspect (nn_step ordered (r :: rs))) as [[[o1 r1] | e'] Heq];
    simp nn_loop; congruence.
Qed.

Lemma nn_step_raises (seed : Stroke) (rest : list Stroke) :
  Exists (fun s => s = []) (seed :: rest) ->
  nn_step [seed] rest = Raised IndexError.
Proof.
  intros Hex. unfold nn_step. cbn [last_item rev app bind].
  destruct (AssemblyFacts.nonempty_or_empty [seed]) as [Hs | Hs].
  - inversion Hs as [| ? ? Hs' _]; subst.
    rewrite (OrderingFacts.last_item_nonempty seed origin Hs'). cbn [bind].
    unfold enumerate. rewrite scan_raises; [reflexivity |].
    inversion Hex as [? ? E | ? ? Hex']; subst; [contradiction | exact Hex'].
  - inversion Hs as [? ? E | ? ? Hnil]; subst; [reflexivity | inversion Hnil].
Qed.

Lemma nearest_neighbor_raises (paths : list Stroke) :
  (2 <= length paths)%nat -> Exists (fun s => s = []) paths ->
  _nearest_neighbor_order paths = Raised IndexError.
Proof.
  intros Hlen Hex. destruct paths as [| seed rest]; [cbn [length] in Hlen; lia |].
  unfold _nearest_neighbor_order. cbn [truthy negb first_item bind skipn].
  apply nn_loop_raises.
  - intros ->. cbn [length] in Hlen. lia.
  - apply nn_step_raises, Hex.
Qed.

Lemma nearest_neighbor_short (paths : list Stroke) :
  (length paths <= 1)%nat -> _nearest_neighbor_order paths = Returned paths.
Proof.
  destruct paths as [| seed [| s rest]]; cbn [length]; intros H; try lia.
  - reflexivity.
  - unfold _nearest_neighbor_order. cbn [truthy negb first_item bind skipn].
    apply OrderingFacts.nn_loop_nil.
Qed.

(** X10: nearest-neighbour ordering raises exactly when there are at least
    two strokes and one of them is empty, and then it is [IndexError]; a
    stroke set of at most one stroke is returned as it is, even when that
    stroke is empty.  The same holds for [optimize_stroke_order] with the
    nearest-neighbour method. *)
Theorem nearest_neighbor_raises_iff (paths : list Stroke) :
  (_nearest_neighbor_order paths = Raised IndexError
   <-> (2 <= length paths)%nat /\ Exists (fun s => s = []) paths)
  /\ (optimize_stroke_order paths nearest_neighbor = Raised IndexError
      <-> (2 <= length paths)%nat /\ Exists (fun s => s = []) paths)
  /\ ((length paths <= 1)%nat ->
      _nearest_neighbor_order paths = Returned paths
      /\ optimize_stroke_order paths nearest_neighbor = Returned paths).
Proof.
  assert (Hopt : (2 <= length paths)%nat ->
            optimize_stroke_order paths nearest_neighbor
            = _nearest_neighbor_order paths).
  { intros H. unfold optimize_stroke_order. cbn [is_original orb is_nearest_neighbor].
    destruct (Nat.leb_spec (length paths) 1); [lia | reflexivity]. }
  assert (Hopt1 : (length paths <= 1)%nat ->
            optimize_stroke_order paths nearest_neighbor = Returned paths).
  { intros H. unfold optimize_stroke_order. cbn [is_original orb].
    destruct (Nat.leb_spec (length paths) 1); [reflexivity | lia]. }
  assert (Hnn : _nearest_neighbor_order paths = Raised IndexError
                <-> (2 <= length paths)%nat /\ Exists (fun s => s = []) paths).
  { destruct (Nat.leb_spec (length paths) 1) as [Hshort | Hlong].
    - rewrite (nearest_neighbor_short paths Hshort). split.
      + discriminate.
      + intros [H _]. lia.
    - destruct (AssemblyFacts.nonempty_or_empty paths) as [Hne | Hex].
      + destruct paths as [| seed rest]; [cbn [length] in Hlong; lia |].
        destruct (OrderingFacts.nearest_neighbor_runs seed rest Hne)
          as (out & Hout & _).
        rewrite Hout. split; [discriminate |].
        intros [_ Hex]. destruct (AssemblyFacts.nonempty_not_empty _ Hne Hex).
      + rewrite (nearest_neighbor_raises paths Hlong Hex). split.
        * intros _. split; [lia | exact Hex].
        * reflexivity. }
  split; [exact Hnn |]. split.
  - destruct (Nat.leb_spec (length paths) 1) as [Hshort | Hlong].
    + rewrite (Hopt1 Hshort). split; [discriminate | intros [H _]; lia].
    + rewrite (Hopt Hlong). exact Hnn.
  - intros Hshort. split; [apply nearest_neighbor_short, Hshort | apply Hopt1, Hshort].
Qed.

(** ** Ordering, then measuring *)

Lemma reordering_nonempty (paths out : list Stroke) :
  reordering paths out -> Forall nonempty paths ->
  Forall nonempty out /\ length out = length paths.
Proof.
  intros (paths' & Hperm & Hall) Hne.
  assert (Hne' : Forall nonempty paths')
    by (eapply Permutation_Forall; eassumption).
  rewrite (Permutation_length Hperm). clear Hperm Hne.
  induction Hall as [| s s' l l' Hs _ IH]; [split; [constructor | reflexivity] |].
  inversion Hne' as [| ? ? Hsne Hl]; subst.
  destruct (IH Hl) as [IH1 IH2]. split; [| cbn [length]; lia].
  constructor; [| exact IH1].
  destruct Hs as [-> | ->]; [exact Hsne |].
  intros E. apply Hsne. rewrite <- (rev_involutive s), E. reflexivity.
Qed.

Lemma nearest_neighbor_reorders (paths : list Stroke) :
  Forall nonempty paths ->
  exists out,
    _nearest_neighbor_order paths = Returned out /\ reordering paths out.
Proof.
  intros Hne. destruct paths as [| seed rest].
  - exists []. split; [reflexivity | apply OrderingFacts.reordering_refl].
  - destruct (OrderingFacts.nearest_neighbor_runs seed rest Hne)
      as (out & Hout & Hrun).
    exists out. split; [exact Hout |].
    destruct (OrderingFacts.nn_run_reordering _ _ _ Hrun)
      as (tail & -> & rest' & Hperm & Hall).
    exists (seed :: rest'). split; [apply perm_skip, Hperm |].
    constructor; [left; reflexivity | exact Hall].
Qed.

Lemma reordering_total_points (paths out : list Stroke) :
  reordering paths out -> total_points out = total_points paths.
Proof.
  intros (paths' & Hperm & Hall). unfold total_points.
  transitivity (list_sum (map (@length Point2D) paths')).
  - clear Hperm.
    induction Hall as [| s s' l l' Hs _ IH]; [reflexivity |].
    cbn [map]. change (list_sum (?x :: ?l)) with (x + list_sum l)%nat.
    rewrite IH. destruct Hs as [-> | ->]; [| rewrite length_rev]; reflexivity.
  - symmetry. clear -Hperm.
    induction Hperm; cbn [map];
      repeat change (list_sum (?x :: ?l)) with (x + list_sum l)%nat; lia.
Qed.

Lemma optimize_reorders (paths : list Stroke) :
  Forall nonempty paths ->
  exists out,
    optimize_stroke_order paths nearest_neighbor = Returned out
    /\ reordering paths out.
Proof.
  intros Hne. unfold optimize_stroke_order.
  cbn [is_original orb is_nearest_neighbor].
  destruct (length paths <=? 1)%nat.
  - exists paths. split; [reflexivity | apply OrderingFacts.reordering_refl].
  - apply nearest_neighbor_reorders, Hne.
Qed.

(** X11: on non-empty strokes, the stroke set returned by the ordering can
    be measured and assembled like the input: [calculate_transition_stats]
    returns on it, with the same number of transitions, and
    [add_transitions] yields at most as many waypoints as the input has
    points. *)
Theorem ordered_strokes_measure self (paths : list Stroke) :
  Forall nonempty paths ->
  exists out before after,
    optimize_stroke_order paths nearest_neighbor = Returned out
    /\ calculate_transition_stats paths = Returned before
    /\ calculate_transition_stats out = Returned after
    /\ num_transitions after = num_transitions before
    /\ (length (add_transitions self out) <= total_points paths)%nat.
Proof.
  intros Hne.
  destruct (optimize_reorders paths Hne) as (out & Hout & Hre).
  destruct (reordering_nonempty paths out Hre Hne) as [Hne' Hlen].
  destruct (AssemblyFacts.transition_stats_value paths Hne) as (b & Hb & Hbn & _).
  destruct (AssemblyFacts.transition_stats_value out Hne') as (a & Ha & Han & _).
  exists out, b, a. repeat split; try assumption.
  - rewrite Han, Hbn, !AssemblyFacts.gaps_length, Hlen. reflexivity.
  - rewrite AssemblyFacts.add_transitions_assemble, length_map.
    pose proof (AssemblyFacts.assemble_length [] out) as [Hle _].
    rewrite (reordering_total_points paths out Hre) in Hle. exact Hle.
Qed.

(** An instance: two strokes on the x axis. *)
Lemma ordered_strokes_measure_witness :
  let paths : list Stroke := [[(0, 0); (1, 0)]; [(5, 0); (2, 0)]] in
  Forall nonempty paths
  /\ exists out after,
       optimize_stroke_order paths nearest_neighbor = Returned out
       /\ calculate_transition_stats out = Returned after.
Proof.
  cbv zeta.
  set (paths := [[(0, 0); (1, 0)]; [(5, 0); (2, 0)]] : list Stroke).
  assert (H : Forall nonempty paths) by (repeat constructor; discriminate).
  split; [exact H |].
  destruct (ordered_strokes_measure (init 30 10) paths H)
    as (out & b & a & Hout & _ & Ha & _).
  exists out, a. split; [exact Hout | exact Ha].
Defined.

(** ** The first pen-up move *)

Lemma hd_of_rev {A : Type} (l : list A) (d : A) : hd d (rev l) = last l d.
Proof.
  destruct l as [| x l']; [reflexivity |].
  destruct (@exists_last _ (x :: l') ltac:(discriminate)) as (l0 & y & ->).
  rewrite rev_app_distr, last_last. reflexivity.
Qed.

(** The gap in front of a placed stroke is its nearest-endpoint distance. *)
Lemma placed_gap current_end (s : Stroke) :
  _point_distance current_end (hd origin (placed current_end s))
  = endpoint_distance current_end s.
Proof.
  unfold placed, endpoint_distance.
  destruct (Rlt_dec (end_distance current_end s) (start_distance current_end s))
    as [H | H].
  - rewrite hd_of_rev, Rmin_right by lra. reflexivity.
  - rewrite Rmin_left by lra. reflexivity.
Qed.

(** X12: on at least two non-empty strokes, the first transition of the
    ordered stroke set is not longer than the first transition of the
    input. *)
Theorem first_gap_not_longer (paths : list Stroke) :
  (2 <= length paths)%nat -> Forall nonempty paths ->
  exists out,
    _nearest_neighbor_order paths = Returned out
    /\ hd 0 (gaps out) <= hd 0 (gaps paths).
Proof.
  intros Hlen Hne.
  destruct paths as [| seed [| t rest]]; try (cbn [length] in Hlen; lia).
  destruct (OrderingFacts.nearest_neighbor_runs seed (t :: rest) Hne)
    as (out & Hout & Hrun).
  exists out. split; [exact Hout |].
  inversion Hrun as [| ? ? k s ? cur Hsel Hrest]; subst.
  destruct (OrderingFacts.nn_run_reordering _ _ _ Hrest) as (tail & -> & _).
  subst cur. cbn [last] in *. cbn [app gaps hd].
  rewrite placed_gap.
  pose proof (selected_nearest _ _ _ _ Hsel 0%nat t eq_refl) as Hmin.
  unfold endpoint_distance at 2 in Hmin.
  pose proof (Rmin_l (start_distance (last seed origin) t)
                     (end_distance (last seed origin) t)) as Hl.
  unfold start_distance in Hl at 2. lra.
Qed.

(** An instance: the second stroke is reached at its far end. *)
Lemma first_gap_not_longer_witness :
  let paths : list Stroke := [[(0, 0); (1, 0)]; [(5, 0); (2, 0)]] in
  (2 <= length paths)%nat /\ Forall nonempty paths
  /\ exists out,
       _nearest_neighbor_order paths = Returned out
       /\ hd 0 (gaps out) <= hd 0 (gaps paths).
Proof.
  cbv zeta.
  set (paths := [[(0, 0); (1, 0)]; [(5, 0); (2, 0)]] : list Stroke).
  assert (H1 : (2 <= length paths)%nat) by (cbn [paths length]; lia).
  assert (H2 : Forall nonempty paths) by (repeat constructor; discriminate).
  split; [exact H1 |]. split; [exact H2 |].
  exact (first_gap_not_longer paths H1 H2).
Defined.

End OrderingEdgeFacts.

(** * Further properties of the projector *)

Module ProjectorEdgeFacts.

Import CoordinateTransformer.

(** ** Rotation *)

Lemma radians_plus a b : radians (a + b) = radians a + radians b.
Proof. unfold radians. ring. Qed.

Lemma radians_opp a : radians (- a) = - radians a.
Proof. unfold radians. ring. Qed.

Lemma cached_unit lat0 lon0 h0 rot :
  cos_r (init lat0 lon0 h0 rot) ^ 2 + sin_r (init lat0 lon0 h0 rot) ^ 2 = 1.
Proof.
  unfold init. cbn [cos_r sin_r].
  pose proof (sin2_cos2 (radians rot)) as H. unfold Rsqr in H. lra.
Qed.

(** X13: the rotation of a transformer built by [__init__] keeps the
    distance between any two local points (and so the size and shape of the
    text), whatever the rotation angle. *)
Theorem rotation_keeps_distances (lat0 lon0 h0 rot x1 y1 x2 y2 : R) :
  let self := init lat0 lon0 h0 rot in
  let p1 := rotated self x1 y1 in
  let p2 := rotated self x2 y2 in
  sqrt ((fst p1 - fst p2) ^ 2 + (snd p1 - snd p2) ^ 2)
  = sqrt ((x1 - x2) ^ 2 + (y1 - y2) ^ 2).
Proof.
  cbv zeta. f_equal. unfold rotated. cbn [fst snd].
  pose proof (cached_unit lat0 lon0 h0 rot) as H.
  set (c := cos_r (init lat0 lon0 h0 rot)) in *.
  set (s := sin_r (init lat0 lon0 h0 rot)) in *.
  replace ((x1 * c - y1 * s - (x2 * c - y2 * s)) ^ 2
           + (x1 * s + y1 * c - (x2 * s + y2 * c)) ^ 2)
    with ((c ^ 2 + s ^ 2) * ((x1 - x2) ^ 2 + (y1 - y2) ^ 2)) by ring.
  rewrite H. ring.
Qed.

(** X14: rotating with a transformer of angle [a] and then with one of
    angle [b] is rotating with one of angle [a + b]; in particular the
    transformer of angle [- a] undoes the rotation of angle [a]. *)
Theorem rotations_compose (lat0 lon0 h0 a b x y : R) :
  let first := rotated (init lat0 lon0 h0 a) x y in
  rotated (init lat0 lon0 h0 b) (fst first) (snd first)
  = rotated (init lat0 lon0 h0 (a + b)) x y
  /\ rotated (init lat0 lon0 h0 (- a)) (fst first) (snd first) = (x, y).
Proof.
  cbv zeta.
  assert (Hcomp : forall b',
            rotated (init lat0 lon0 h0 b')
              (fst (rotated (init lat0 lon0 h0 a) x y))
              (snd (rotated (init lat0 lon0 h0 a) x y))
            = rotated (init lat0 lon0 h0 (a + b')) x y).
  { intros b'. unfold rotated, init. cbn [cos_r sin_r fst snd].
    rewrite radians_plus, cos_plus, sin_plus. f_equal; ring. }
  split; [apply Hcomp |].
  rewrite Hcomp, Rplus_opp_r. apply ProjectorFacts.rotated_zero.
Qed.

(** ** Projection of a path *)

(** For every angle, [local_to_gps] is the external conversion applied to
    the rotated point, with the relative altitude passed through. *)
Lemma local_to_gps_rotated
  (enu2geodetic : R -> R -> R -> R -> R -> R -> R * R * R)
  (lat0 lon0 h0 rot x y altitude : R) :
  let self := init lat0 lon0 h0 rot in
  let q := rotated self x y in
  let g := enu2geodetic (fst q) (snd q) altitude lat0 lon0 h0 in
  local_to_gps enu2geodetic self x y altitude
  = (fst (fst g), snd (fst g), altitude).
Proof.
  cbv zeta. unfold local_to_gps, nonzero.
  change (rotation_deg (init lat0 lon0 h0 rot)) with rot.
  change (home_lat (init lat0 lon0 h0 rot)) with lat0.
  change (home_lon (init lat0 lon0 h0 rot)) with lon0.
  change (home_alt (init lat0 lon0 h0 rot)) with h0.
  destruct (Req_dec_T rot 0) as [-> | Hrot].
  - rewrite ProjectorFacts.rotated_zero. cbn [fst snd].
    destruct (enu2geodetic x y altitude lat0 lon0 h0) as [[lat lon] alt_msl].
    reflexivity.
  - destruct (rotated (init lat0 lon0 h0 rot) x y) as [rx ry]. cbn [fst snd].
    destruct (enu2geodetic rx ry altitude lat0 lon0 h0) as [[lat lon] alt_msl].
    reflexivity.
Qed.

Lemma path_to_gps_fold
  (enu2geodetic : R -> R -> R -> R -> R -> R -> R * R * R)
  (self : t) (altitude : R) (path : list Point2D) :
  forall acc,
    fold_left
      (fun gps_path (p : Point2D) =>
         let '(lat, lon, alt) :=
           local_to_gps enu2geodetic self (fst p) (snd p) altitude in
         gps_path ++ [(lat, lon, alt)])
      path acc
    = acc ++ map (fun p : Point2D =>
                    local_to_gps enu2geodetic self (fst p) (snd p) altitude)
                 path.
Proof.
  induction path as [| p path IH]; intros acc; cbn [fold_left map].
  - symmetry. apply app_nil_r.
  - rewrite IH.
    destruct (local_to_gps enu2geodetic self (fst p) (snd p) altitude)
      as [[lat lon] alt].
    rewrite <- app_assoc. reflexivity.
Qed.

(** X15: [path_to_gps] converts the points one by one and in order: the
    result has one entry per point, the entry at index [i] is the
    conversion of the rotated point [i], and every entry carries the
    altitude that was passed in. *)
Theorem path_to_gps_elementwise
  (enu2geodetic : R -> R -> R -> R -> R -> R -> R * R * R)
  (lat0 lon0 h0 rot altitude : R) (path : list Point2D) :
  let self := init lat0 lon0 h0 rot in
  let convert (p : Point2D) :=
    let q := rotated self (fst p) (snd p) in
    let g := enu2geodetic (fst q) (snd q) altitude lat0 lon0 h0 in
    (fst (fst g), snd (fst g), altitude) in
  path_to_gps enu2geodetic self path altitude = map convert path
  /\ length (path_to_gps enu2geodetic self path altitude) = length path
  /\ Forall (fun g => w2 g = altitude)
            (path_to_gps enu2geodetic self path altitude).
Proof.
  cbv zeta.
  assert (E : path_to_gps enu2geodetic (init lat0 lon0 h0 rot) path altitude
              = map (fun p : Point2D =>
                       (fst (fst (enu2geodetic
                                    (fst (rotated (init lat0 lon0 h0 rot) (fst p) (snd p)))
                                    (snd (rotated (init lat0 lon0 h0 rot) (fst p) (snd p)))
                                    altitude lat0 lon0 h0)),
                        snd (fst (enu2geodetic
                                    (fst (rotated (init lat0 lon0 h0 rot) (fst p) (snd p)))
                                    (snd (rotated (init lat0 lon0 h0 rot) (fst p) (snd p)))
                                    altitude lat0 lon0 h0)),
                        altitude)) path).
  { unfold path_to_gps. rewrite path_to_gps_fold. cbn [app].
    apply map_ext. intros p. apply local_to_gps_rotated. }
  split; [exact E |]. rewrite E. split; [apply length_map |].
  apply Forall_forall. intros g Hg. apply in_map_iff in Hg.
  destruct Hg as (p & <- & _). reflexivity.
Qed.

(** ** The bounding box *)

Lemma fold_app_concat {A : Type} (paths : list (list A)) (acc : list A) :
  fold_left (fun all path => all ++ path) paths acc = acc ++ concat paths.
Proof.
  revert acc. induction paths as [| path paths IH]; intros acc; cbn [fold_left concat].
  - symmetry. apply app_nil_r.
  - rewrite IH, app_assoc. reflexivity.
Qed.

(** X16: [get_bounds] returns (0, 0, 0, 0) when the paths hold no point;
    otherwise every point of every path lies inside the returned box, and
    each of the four bounds is the coordinate of some point. *)
Theorem get_bounds_box (paths : list (list Point2D)) :
  let min_x := fst (fst (fst (get_bounds paths))) in
  let max_x := snd (fst (fst (get_bounds paths))) in
  let min_y := snd (fst (get_bounds paths)) in
  let max_y := snd (get_bounds paths) in
  (concat paths = [] -> get_bounds paths = (0, 0, 0, 0))
  /\ (forall p, In p (concat paths) ->
        min_x <= fst p <= max_x /\ min_y <= snd p <= max_y)
  /\ (concat paths <> [] ->
        In min_x (map fst (concat paths)) /\ In max_x (map fst (concat paths))
        /\ In min_y (map snd (concat paths)) /\ In max_y (map snd (concat paths))).
Proof.
  cbv zeta. unfold get_bounds. rewrite fold_app_concat. cbn [app].
  destruct (concat paths) as [| p0 rest] eqn:E.
  - cbn [truthy negb]. split; [reflexivity |]. split; [intros p [] | congruence].
  - cbn [truthy negb fst snd]. split; [discriminate |].
    set (pts := p0 :: rest) in *.
    assert (Hx : map fst pts <> []) by discriminate.
    assert (Hy : map snd pts <> []) by discriminate.
    destruct (AssemblyFacts.py_min_spec _ Hx) as [Hminx_in Hminx].
    destruct (AssemblyFacts.py_max_spec _ Hx) as [Hmaxx_in Hmaxx].
    destruct (AssemblyFacts.py_min_spec _ Hy) as [Hminy_in Hminy].
    destruct (AssemblyFacts.py_max_spec _ Hy) as [Hmaxy_in Hmaxy].
    split.
    + intros p Hp.
      pose proof (in_map fst _ _ Hp) as Hpx.
      pose proof (in_map snd _ _ Hp) as Hpy.
      repeat split; auto.
    + intros _. repeat split; assumption.
Qed.

End ProjectorEdgeFacts.

(** * Properties of the stroke extraction *)

Module FontFacts.

Import PathTransitionHandler FontExtractor OrderingSpec AssemblySpec FontSpec.

(** A loop over [range(lo, lo + n)] keeps an invariant indexed by the
    loop variable. *)
Lemma fold_seq_invariant {S : Type} (f : S -> nat -> S) (P : nat -> S -> Prop) :
  forall (n lo : nat) (s : S),
    P lo s ->
    (forall i s', (lo <= i < lo + n)%nat -> P i s' -> P (Datatypes.S i) (f s' i)) ->
    P (lo + n)%nat (fold_left f (seq lo n) s).
Proof.
  induction n as [| n IH]; intros lo s Hs Hstep.
  - rewrite Nat.add_0_r. exact Hs.
  - cbn [seq fold_left]. replace (lo + Datatypes.S n)%nat with (Datatypes.S lo + n)%nat by lia.
    apply IH.
    + apply Hstep; [lia | exact Hs].
    + intros i s' Hi. apply Hstep. lia.
Qed.

Lemma breaks_before_step (lines : list Line) (i : nat) :
  (1 <= i)%nat ->
  breaks_before lines (S i)
  = (breaks_before lines i + (if broken lines i then 1 else 0))%nat.
Proof.
  intros Hi. unfold breaks_before.
  replace (S i - 1)%nat with (S (i - 1)) by lia.
  rewrite seq_S, filter_app, length_app. cbn [filter].
  replace (1 + (i - 1))%nat with i by lia.
  destruct (broken lines i); cbn [length]; lia.
Qed.

Lemma firstn_step {A : Type} (l : list A) (i : nat) (d : A) :
  (i < length l)%nat -> firstn (S i) l = firstn i l ++ [nth i l d].
Proof.
  revert l. induction i as [| i IH]; intros [| x l] H; cbn [length] in H; try lia.
  - reflexivity.
  - cbn [firstn nth app]. f_equal. apply IH. lia.
Qed.

Lemma concat_tails_snoc (paths : list Stroke) (current : Stroke) (p : Point2D) :
  current <> [] ->
  concat (map (skipn 1) (paths ++ [current ++ [p]]))
  = concat (map (skipn 1) (paths ++ [current])) ++ [p].
Proof.
  intros Hc. rewrite !map_app, !concat_app. cbn [map concat].
  rewrite !app_nil_r, <- app_assoc. f_equal.
  destruct current; [congruence | reflexivity].
Qed.

Lemma built_step (lines : list Line) (i : nat) (st : list Stroke * Stroke) :
  (1 <= i < length lines)%nat ->
  built lines i st -> built lines (S i) (continuous_body lines st i).
Proof.
  intros Hi. destruct st as [paths current].
  unfold built. cbv zeta. cbn [fst snd]. intros (Hall & Hlen & Hcat & Hhd).
  assert (Hcur : (2 <= length current)%nat).
  { apply Forall_app in Hall. destruct Hall as [_ Hc].
    inversion Hc. assumption. }
  assert (Hpaths : Forall (fun s : Stroke => (2 <= length s)%nat) paths)
    by (apply Forall_app in Hall; tauto).
  rewrite (breaks_before_step lines i) by lia.
  rewrite (firstn_step lines i no_line) by lia.
  rewrite (map_app snd (firstn i lines)).
  change (map snd [nth i lines no_line]) with [snd (nth i lines no_line)].
  unfold continuous_body, broken. cbv zeta.
  destruct (Rlt_dec _ 0.1) as [Hnear | Hfar]; cbn [fst snd].
  - repeat split.
    + apply Forall_app. split; [exact Hpaths |].
      constructor; [| constructor]. rewrite length_app. cbn [length]. lia.
    + lia.
    + rewrite concat_tails_snoc, Hcat; [reflexivity |].
      intros E. rewrite E in Hcur. cbn [length] in Hcur. lia.
    + rewrite <- Hhd. destruct paths; [| reflexivity].
      cbn [app hd]. destruct current; [cbn [length] in Hcur; lia | reflexivity].
  - repeat split.
    + apply Forall_app. split.
      * apply Forall_app. split; [exact Hpaths |].
        constructor; [exact Hcur | constructor].
      * constructor; [cbn [length]; lia | constructor].
    + rewrite length_app. cbn [length]. lia.
    + rewrite map_app, concat_app.
      transitivity (map snd (firstn i lines)
                    ++ concat (map (skipn 1)
                                 [[fst (nth i lines no_line);
                                   snd (nth i lines no_line)]]));
        [| reflexivity].
      apply (f_equal (fun l => l ++ _)). exact Hcat.
    + rewrite <- Hhd, <- app_assoc. destruct paths; reflexivity.
Qed.

Lemma extract_continuous_built (lines : list Line) :
  lines <> [] ->
  exists paths current,
    extract_continuous_paths lines = paths ++ [current]
    /\ built lines (length lines) (paths, current).
Proof.
  intros Hne. unfold extract_continuous_paths.
  destruct lines as [| l0 rest] eqn:E; [congruence |]. rewrite <- E.
  assert (Ht : truthy lines = true) by (rewrite E; reflexivity).
  rewrite Ht. cbn [negb]. unfold range.
  assert (Hlen : length lines = (1 + (length lines - 1))%nat)
    by (rewrite E; cbn [length]; lia).
  pose proof (fold_seq_invariant (continuous_body lines) (built lines)
                (length lines - 1) 1
                ([], [fst (nth 0 lines no_line); snd (nth 0 lines no_line)]))
    as Hinv.
  rewrite <- Hlen in Hinv.
  destruct (fold_left (continuous_body lines) (seq 1 (length lines - 1))
              ([], [fst (nth 0 lines no_line); snd (nth 0 lines no_line)]))
    as [paths current].
  assert (Hb : built lines (length lines) (paths, current)).
  { apply Hinv.
    - unfold built, breaks_before. cbv zeta. cbn [fst snd app]. repeat split.
      + constructor; [cbn [length]; lia | constructor].
      + rewrite E. reflexivity.
    - intros i s' Hi. apply built_step. lia. }
  exists paths, current. split; [| exact Hb].
  destruct Hb as (Hall & _). cbv zeta in Hall. cbn [fst snd] in Hall.
  apply Forall_app in Hall. destruct Hall as [_ Hc]. inversion Hc; subst.
  destruct current; [cbn [length] in *; lia | reflexivity].
Qed.

Lemma continuous_paths_two_points (lines : list Line) :
  Forall (fun s : Stroke => (2 <= length s)%nat)
         (extract_continuous_paths lines).
Proof.
  destruct lines as [| l0 rest] eqn:E; [constructor |]. rewrite <- E.
  assert (Hne : lines <> []) by (rewrite E; discriminate).
  destruct (extract_continuous_built lines Hne)
    as (paths & current & -> & Hall & _).
  exact Hall.
Qed.

(** X17: [extract_continuous_paths] returns no path exactly when there is
    no segment; otherwise every path has at least two points and there is
    one path more than there are breaks between consecutive segments. *)
Theorem continuous_paths_shape (lines : list Line) :
  (extract_continuous_paths lines = [] <-> lines = [])
  /\ Forall (fun s : Stroke => (2 <= length s)%nat)
            (extract_continuous_paths lines)
  /\ (lines <> [] ->
      length (extract_continuous_paths lines)
      = S (breaks_before lines (length lines))).
Proof.
  destruct lines as [| l0 rest] eqn:E.
  - split; [split; reflexivity |]. split; [constructor | congruence].
  - rewrite <- E.
    assert (Hne : lines <> []) by (rewrite E; discriminate).
    destruct (extract_continuous_built lines Hne)
      as (paths & current & -> & Hall & Hlen & _).
    cbn [fst snd] in *. split; [| split].
    + split; [| congruence]. intros H. apply app_eq_nil in H.
      destruct H; discriminate.
    + exact Hall.
    + intros _. rewrite length_app, Hlen. cbn [length]. lia.
Qed.

Lemma total_points_tails (all : list Stroke) :
  Forall (fun s : Stroke => (2 <= length s)%nat) all ->
  total_points all
  = (length (concat (map (skipn 1) all)) + length all)%nat.
Proof.
  induction 1 as [| s all Hs _ IH]; [reflexivity |].
  cbn [map concat length]. rewrite length_app, length_skipn.
  rewrite AssemblyFacts.total_points_cons, IH. lia.
Qed.

(** X18: the paths keep the end point of every segment, in order: the
    points of the paths after each path's first one are exactly the end
    points of the segments; and the first path starts at the start of the
    first segment. *)
Theorem continuous_paths_keep_ends (lines : list Line) :
  concat (map (skipn 1) (extract_continuous_paths lines)) = map snd lines
  /\ (lines <> [] ->
      hd origin (hd [] (extract_continuous_paths lines))
      = fst (nth 0 lines no_line))
  /\ total_points (extract_continuous_paths lines)
     = (length lines + length (extract_continuous_paths lines))%nat.
Proof.
  destruct lines as [| l0 rest] eqn:E.
  - split; [reflexivity |]. split; [congruence | reflexivity].
  - rewrite <- E.
    assert (Hne : lines <> []) by (rewrite E; discriminate).
    destruct (extract_continuous_built lines Hne)
      as (paths & current & -> & Hall & _ & Hcat & Hhd).
    cbn [fst snd] in *. rewrite firstn_all in Hcat.
    split; [exact Hcat |]. split; [intros _; exact Hhd |].
    rewrite (total_points_tails _ Hall), Hcat, length_map. reflexivity.
Qed.

(** X19: the extracted paths can always be ordered, measured and
    assembled: on every list of segments, nearest-neighbour ordering and
    the transition statistics return, and never raise [IndexError]. *)
Theorem continuous_paths_can_be_ordered (lines : list Line) :
  exists out stats,
    optimize_stroke_order (extract_continuous_paths lines) nearest_neighbor
    = Returned out
    /\ calculate_transition_stats out = Returned stats
    /\ length out = length (extract_continuous_paths lines).
Proof.
  assert (Hne : Forall nonempty (extract_continuous_paths lines)).
  { pose proof (continuous_paths_two_points lines) as Hall.
    eapply Forall_impl; [| exact Hall].
    intros s Hs E. rewrite E in Hs. cbn [length] in Hs. lia. }
  destruct (OrderingEdgeFacts.optimize_reorders _ Hne)
    as (out & Hout & Hre).
  destruct (OrderingEdgeFacts.reordering_nonempty _ _ Hre Hne) as [Hne' Hlen].
  destruct (AssemblyFacts.transition_stats_value out Hne') as (stats & Hs & _).
  exists out, stats. split; [exact Hout |]. split; [exact Hs | exact Hlen].
Qed.

End FontFacts.

(** * Properties of the mission file *)

Module MissionFacts.

Import MissionGenerator MissionSpec.

Lemma waypoint_items_numbered (self : t) (gps_waypoints : list (R * R * R)) :
  forall (mission_items : list MissionItem) (item_id : nat),
    waypoint_items self gps_waypoints (mission_items, item_id)
    = (mission_items ++ numbered_waypoints self item_id gps_waypoints,
       (item_id + length gps_waypoints)%nat).
Proof.
  unfold waypoint_items.
  induction gps_waypoints as [| [[lat lon] alt] rest IH];
    intros mission_items item_id; cbn [fold_left numbered_waypoints length].
  - rewrite app_nil_r, Nat.add_0_r. reflexivity.
  - rewrite IH, <- app_assoc. cbn [app]. f_equal; [| lia].
    rewrite Nat.add_1_r. reflexivity.
Qed.

(** The items of a plan: takeoff if asked for, the speed command, the
    waypoints, return-to-launch if asked for. *)
Lemma mission_items_layout (self : t) (gps_waypoints : list (R * R * R))
  (home_position : R * R * R) (include_takeoff include_rtl : bool) :
  mission_items_of self gps_waypoints home_position include_takeoff include_rtl
  = (if include_takeoff
     then [create_takeoff_item (w0 home_position) (w1 home_position)
             (if truthy gps_waypoints
              then w2 (nth 0 gps_waypoints origin3) else 30) 1 0 None]
     else [])
    ++ [create_speed_item (flight_speed self) (1 + bool_count include_takeoff)]
    ++ numbered_waypoints self (2 + bool_count include_takeoff) gps_waypoints
    ++ (if include_rtl
        then [create_rtl_item
                (2 + bool_count include_takeoff + length gps_waypoints)]
        else []).
Proof.
  unfold mission_items_of.
  destruct include_takeoff; cbn [bool_count app Nat.add];
    rewrite waypoint_items_numbered; destruct include_rtl;
    cbn [app]; rewrite ?app_nil_r, <- ?app_assoc; reflexivity.
Qed.

Lemma numbered_ids (self : t) (gps_waypoints : list (R * R * R)) :
  forall item_id,
    map doJumpId (numbered_waypoints self item_id gps_waypoints)
    = seq item_id (length gps_waypoints).
Proof.
  induction gps_waypoints as [| [[lat lon] alt] rest IH]; intros item_id;
    cbn [numbered_waypoints map length seq]; [reflexivity |].
  rewrite IH. reflexivity.
Qed.

Lemma numbered_commands (self : t) (gps_waypoints : list (R * R * R)) :
  forall item_id,
    map command (numbered_waypoints self item_id gps_waypoints)
    = repeat 16%nat (length gps_waypoints).
Proof.
  induction gps_waypoints as [| [[lat lon] alt] rest IH]; intros item_id;
    cbn [numbered_waypoints map length repeat]; [reflexivity |].
  rewrite IH. reflexivity.
Qed.

Lemma numbered_positions (self : t) (gps_waypoints : list (R * R * R)) :
  forall item_id,
    map position_of (filter is_waypoint
                       (numbered_waypoints self item_id gps_waypoints))
    = map Some gps_waypoints.
Proof.
  induction gps_waypoints as [| [[lat lon] alt] rest IH]; intros item_id;
    cbn [numbered_waypoints]; [reflexivity |].
  cbn [filter is_waypoint create_waypoint_item _create_mission_item command
       Nat.eqb map]. rewrite IH. reflexivity.
Qed.

Lemma ids_app (a : nat) (l1 l2 : list MissionItem) (b : nat) :
  map doJumpId l1 = seq a (length l1) ->
  b = (a + length l1)%nat ->
  map doJumpId l2 = seq b (length l2) ->
  map doJumpId (l1 ++ l2) = seq a (length (l1 ++ l2)).
Proof.
  intros H1 -> H2. rewrite map_app, length_app, seq_app, H1, H2. reflexivity.
Qed.

(** X20: the plan of [generate_plan] holds one item per waypoint, one speed
    command, and a takeoff and a return-to-launch item when asked for; the
    [doJumpId]s of the items are 1, 2, 3, ... in order, without gap. *)
Theorem plan_items_numbered (self : t) (gps_waypoints : list (R * R * R))
  (home_position : R * R * R) (output_file : string)
  (include_takeoff include_rtl : bool) :
  let plan := fst (generate_plan self gps_waypoints home_position output_file
                     include_takeoff include_rtl) in
  length (items (mission plan))
  = (length gps_waypoints + 1 + bool_count include_takeoff
     + bool_count include_rtl)%nat
  /\ map doJumpId (items (mission plan))
     = seq 1 (length (items (mission plan))).
Proof.
  cbv zeta. unfold generate_plan. cbn [fst mission items].
  rewrite mission_items_layout.
  assert (Hn : length (numbered_waypoints self (2 + bool_count include_takeoff)
                         gps_waypoints) = length gps_waypoints).
  { rewrite <- (length_map doJumpId), numbered_ids. apply length_seq. }
  split.
  - rewrite !length_app, Hn. destruct include_takeoff, include_rtl;
      cbn [length bool_count]; lia.
  - apply (ids_app 1 _ _ (1 + bool_count include_takeoff));
      [destruct include_takeoff; reflexivity
      | destruct include_takeoff; reflexivity |].
    apply (ids_app _ _ _ (2 + bool_count include_takeoff));
      [reflexivity | cbn [length]; lia |].
    apply (ids_app _ _ _ (2 + bool_count include_takeoff + length gps_waypoints));
      [rewrite Hn; apply numbered_ids | rewrite Hn; reflexivity |].
    destruct include_rtl; reflexivity.
Qed.

(** X21: reading the plan back gives the waypoints: the commands of the
    items are takeoff (22) if asked for, change-speed (178), one waypoint
    command (16) per waypoint, and return-to-launch (20) if asked for; and
    the positions carried by the waypoint items are the given waypoints, in
    order. *)
Theorem plan_round_trip (self : t) (gps_waypoints : list (R * R * R))
  (home_position : R * R * R) (output_file : string)
  (include_takeoff include_rtl : bool) :
  let plan := fst (generate_plan self gps_waypoints home_position output_file
                     include_takeoff include_rtl) in
  map command (items (mission plan))
  = (if include_takeoff then [22%nat] else [])
    ++ [178%nat] ++ repeat 16%nat (length gps_waypoints)
    ++ (if include_rtl then [20%nat] else [])
  /\ map position_of (filter is_waypoint (items (mission plan)))
     = map Some gps_waypoints.
Proof.
  cbv zeta. unfold generate_plan. cbn [fst mission items].
  rewrite mission_items_layout. split.
  - rewrite !map_app, numbered_commands.
    destruct include_takeoff, include_rtl; reflexivity.
  - rewrite !filter_app, !map_app, numbered_positions.
    destruct include_takeoff, include_rtl; cbn [filter is_waypoint
      create_takeoff_item create_speed_item create_rtl_item
      _create_mission_item command Nat.eqb map app];
      rewrite ?app_nil_r; reflexivity.
Qed.

(** X22: with a takeoff item, the plan starts with it: it carries the
    latitude and longitude of the home position and the altitude of the
    first waypoint, or 30 when there is no waypoint; the planned home
    position and both speeds of the plan are those given. *)
Theorem plan_takeoff (self : t) (gps_waypoints : list (R * R * R))
  (home_position : R * R * R) (output_file : string) (include_rtl : bool) :
  let plan := fst (generate_plan self gps_waypoints home_position output_file
                     true include_rtl) in
  option_map position_of (hd_error (items (mission plan)))
  = Some (Some (w0 home_position, w1 home_position,
                match gps_waypoints with
                | [] => 30
                | first :: _ => w2 first
                end))
  /\ option_map command (hd_error (items (mission plan))) = Some 22%nat
  /\ plannedHomePosition (mission plan)
     = [w0 home_position; w1 home_position; w2 home_position]
  /\ cruiseSpeed (mission plan) = flight_speed self
  /\ hoverSpeed (mission plan) = flight_speed self.
Proof.
  cbv zeta. unfold generate_plan.
  cbn [fst mission items plannedHomePosition cruiseSpeed hoverSpeed].
  rewrite mission_items_layout. cbn [app hd_error option_map].
  split; [| repeat split].
  destruct gps_waypoints as [| first rest]; reflexivity.
Qed.

(** ** Validation *)

Lemma validate_issues (gps_waypoints : list (R * R * R)) (max_waypoints : nat) :
  snd (validate_mission gps_waypoints max_waypoints)
  = (if (max_waypoints <? length gps_waypoints)%nat
     then [TooManyWaypoints (length gps_waypoints) max_waypoints] else [])
    ++ (if (length gps_waypoints =? 0)%nat then [NoWaypoints] else [])
    ++ (if truthy gps_waypoints
        then
          if Rgt_dec (py_max (map w2 gps_waypoints)
                      - py_min (map w2 gps_waypoints)) 1000
          then [LargeAltitudeVariation
                  (py_max (map w2 gps_waypoints)
                   - py_min (map w2 gps_waypoints))]
          else []
        else []).
Proof.
  unfold validate_mission. cbn [snd].
  destruct (max_waypoints <? length gps_waypoints)%nat,
           (length gps_waypoints =? 0)%nat,
           (truthy gps_waypoints);
    try destruct (Rgt_dec _ 1000); reflexivity.
Qed.

(** X23: [validate_mission] accepts a mission exactly when it has at least
    one and at most [max_waypoints] waypoints and its altitudes differ by no
    more than 1000; it accepts exactly when it reports no issue, and it
    reports the missing waypoints exactly for the empty mission. *)
Theorem validate_mission_accepts (gps_waypoints : list (R * R * R))
  (max_waypoints : nat) :
  let result := validate_mission gps_waypoints max_waypoints in
  let altitudes := map w2 gps_waypoints in
  (fst result = true
   <-> (1 <= length gps_waypoints <= max_waypoints)%nat
       /\ py_max altitudes - py_min altitudes <= 1000)
  /\ (fst result = true <-> snd result = [])
  /\ (In NoWaypoints (snd result) <-> gps_waypoints = []).
Proof.
  cbv zeta.
  assert (Hfst : fst (validate_mission gps_waypoints max_waypoints) = true
                 <-> snd (validate_mission gps_waypoints max_waypoints) = []).
  { unfold validate_mission. cbv zeta. cbn [fst snd].
    match goal with
    | |- (length ?issues =? 0)%nat = true <-> _ => destruct issues
    end; cbn [length Nat.eqb]; split; congruence. }
  split; [| split; [exact Hfst |]].
  - rewrite Hfst, validate_issues.
    destruct (Nat.ltb_spec max_waypoints (length gps_waypoints)) as [Hmany | Hfew].
    + split; [discriminate | intros [[_ H] _]; lia].
    + destruct gps_waypoints as [| wp rest].
      * cbn [length Nat.eqb truthy app]. split; [discriminate |].
        intros [[H _] _]. lia.
      * cbn [length Nat.eqb truthy app] in *.
        destruct (Rgt_dec _ 1000) as [Hgt | Hle]; split.
        -- discriminate.
        -- intros [_ H]. lra.
        -- intros _. split; [lia | lra].
        -- reflexivity.
  - rewrite validate_issues.
    destruct gps_waypoints as [| wp rest]; cbn [length Nat.eqb truthy].
    + split; [reflexivity |]. intros _. apply in_or_app. right. left. reflexivity.
    + split; [| discriminate]. intros H.
      destruct (max_waypoints <? S (length rest))%nat;
        destruct (Rgt_dec _ 1000); cbn [app In] in H;
        intuition discriminate.
Qed.

End MissionFacts.

(** * Further properties of the simplifier *)

Module SimplifierEdgeFacts.

Import PathSimplifier CornerSplitSpec.

(** ** The recommended tolerance *)

(** X24: the recommended epsilon never decreases when the letter height
    grows, and always lies between 0.2 and 1.5. *)
Theorem recommended_epsilon_monotone (h1 h2 : R) :
  h1 <= h2 ->
  get_recommended_epsilon h1 <= get_recommended_epsilon h2
  /\ 0.2 <= get_recommended_epsilon h1 <= 1.5.
Proof.
  intros H. unfold get_recommended_epsilon.
  repeat match goal with
         | |- context [Rle_dec ?a ?b] => destruct (Rle_dec a b)
         end; lra.
Qed.

(** An instance: letter heights 10 and 20. *)
Lemma recommended_epsilon_monotone_witness :
  10 <= 20 /\ get_recommended_epsilon 10 <= get_recommended_epsilon 20.
Proof.
  assert (H : 10 <= 20) by lra.
  split; [exact H |].
  exact (proj1 (recommended_epsilon_monotone 10 20 H)).
Defined.

(** ** Corners as a filter *)

Lemma detect_corners_body_reported points thr corners i :
  detect_corners_body points thr corners i
  = if reported points thr i then corners ++ [i] else corners.
Proof.
  unfold detect_corners_body, reported. cbv zeta.
  destruct (is_zero _ || is_zero _); [reflexivity |].
  destruct (Rgt_dec _ thr); reflexivity.
Qed.

Lemma detect_corners_filter_fold points thr idxs : forall corners,
  fold_left (detect_corners_body points thr) idxs corners
  = corners ++ filter (reported points thr) idxs.
Proof.
  induction idxs as [| i idxs IH]; intros corners; cbn [fold_left filter].
  - symmetry. apply app_nil_r.
  - rewrite IH, detect_corners_body_reported.
    destruct (reported points thr i); [| reflexivity].
    rewrite <- app_assoc. reflexivity.
Qed.

Lemma detect_corners_filter points thr :
  _detect_corners points thr
  = filter (reported points thr) (range 1 (length points - 1)).
Proof. unfold _detect_corners. apply detect_corners_filter_fold. Qed.

Lemma fold_left_filter {S A : Type} (g : S -> A -> S) (f : A -> bool)
  (l : list A) : forall s,
  fold_left g (filter f l) s
  = fold_left (fun s' x => if f x then g s' x else s') l s.
Proof.
  induction l as [| x l IH]; intros s; cbn [filter fold_left]; [reflexivity |].
  destruct (f x); cbn [fold_left]; apply IH.
Qed.

(** ** One segment between two corners *)

Lemma length_slice {A : Type} (l : list A) (a b : nat) :
  length (slice l a b) = Nat.min (b - a) (length l - a).
Proof. unfold slice. rewrite length_firstn, length_skipn. reflexivity. Qed.

Lemma nth_slice {A : Type} (l : list A) (a b j : nat) (d : A) :
  (j < b - a)%nat -> nth j (slice l a b) d = nth (a + j) l d.
Proof.
  intros H. unfold slice. rewrite SimplifyFacts.nth_firstn_lt by exact H.
  apply nth_skipn.
Qed.

Lemma last_app_nonempty {A : Type} (a b : list A) (d : A) :
  b <> [] -> last (a ++ b) d = last b d.
Proof.
  intros Hb. destruct (exists_last Hb) as (b' & x & ->).
  rewrite app_assoc, !last_last. reflexivity.
Qed.

Lemma last_In {A : Type} (l : list A) (d : A) : l <> [] -> In (last l d) l.
Proof.
  intros H. destruct (exists_last H) as (l' & x & ->).
  rewrite last_last. apply in_or_app. right. left. reflexivity.
Qed.

(** One turn of the loop: the segment from [start] to the corner is
    simplified and joined to what was built. *)
Lemma corner_split_step (self : t) (points : list Point2D)
  (segments : list (list Point2D)) (start c : nat) :
  let stop := Nat.min c (length points - 1) in
  (start < stop)%nat -> (stop < length points)%nat ->
  (segments = [] /\ start = 0%nat)
  \/ (segments <> [] /\ joined_upto points (concat segments) start) ->
  exists segments',
    corner_split_body self points (segments, start) c = (segments', c)
    /\ segments' <> []
    /\ joined_upto points (concat segments') stop
    /\ (forall x, In x (concat segments) -> In x (concat segments')).
Proof.
  intros stop Hstart Hstop Hst.
  set (segment := slice points start (c + 1)).
  assert (Hlen : length segment = (stop + 1 - start)%nat)
    by (unfold segment; rewrite length_slice; unfold stop in *; lia).
  destruct (SimplifyFacts.rdp_shape (epsilon self) segment)
    as ((Hlow & Hhigh) & H0 & Hlast); [lia |].
  rewrite <- (SimplifyFacts.simplify_path_rdp self segment) in Hlow, Hhigh, H0, Hlast.
  set (simplified := simplify_path self segment) in *.
  assert (Hfirst : nth 0 simplified origin = nth start points origin).
  { rewrite H0. unfold segment. rewrite nth_slice by (unfold stop in *; lia).
    f_equal. lia. }
  assert (Hend : last simplified origin = nth stop points origin).
  { rewrite SimplifyFacts.last_nth, Hlast, Hlen. unfold segment.
    rewrite nth_slice by (unfold stop in *; lia). f_equal. lia. }
  assert (Hne : simplified <> [])
    by (intros E; rewrite E in Hlow; cbn [length] in Hlow; lia).
  assert (Htest : (2 <=? length segment)%nat = true)
    by (apply Nat.leb_le; lia).
  unfold corner_split_body. fold segment. rewrite Htest. fold simplified.
  destruct Hst as [[-> ->] | [Hsegs (Hj1 & Hj2 & Hj3 & Hj4)]].
  - cbn [truthy andb app]. exists [simplified]. split; [reflexivity |].
    split; [discriminate |]. cbn [concat]. rewrite app_nil_r.
    split; [| intros x []].
    repeat split; try assumption. lia.
  - assert (Et : truthy segments = true)
      by (destruct segments; [contradiction | reflexivity]).
    assert (Epos : (0 <? length simplified)%nat = true)
      by (apply Nat.ltb_lt; lia).
    rewrite Et, Epos. cbn [andb].
    exists (segments ++ [skipn 1 simplified]). split; [reflexivity |].
    assert (Htail : skipn 1 simplified <> []).
    { intros E. apply (f_equal (@length _)) in E.
      rewrite length_skipn in E. cbn [length] in E. lia. }
    rewrite concat_app. cbn [concat]. rewrite app_nil_r.
    split; [intros E; apply app_eq_nil in E; destruct E; discriminate |].
    split; [| intros x Hx; apply in_or_app; left; exact Hx].
    repeat split.
    + intros E. apply app_eq_nil in E. destruct E. contradiction.
    + rewrite app_nth1; [exact Hj2 |].
      destruct (concat segments); [contradiction | cbn [length]; lia].
    + rewrite (last_app_nonempty _ _ origin Htail).
      rewrite (AssemblyFacts.last_skipn_1 simplified Htail). exact Hend.
    + rewrite length_app, length_skipn. lia.
Qed.

(** The loop over the interior indices, corner by corner. *)
Lemma corner_split_loop (self : t) (points : list Point2D) (thr : R) :
  (3 <= length points)%nat ->
  split_upto points thr (length points - 1)
    (fold_left (corner_split_body self points)
               (_detect_corners points thr) ([], 0%nat)).
Proof.
  intros Hlen. rewrite detect_corners_filter, fold_left_filter. unfold range.
  replace (length points - 1)%nat with (1 + (length points - 1 - 1))%nat at 1 by lia.
  apply (FontFacts.fold_seq_invariant
           (fun st i => if reported points thr i
                        then corner_split_body self points st i else st)
           (split_upto points thr)).
  - unfold split_upto. cbn [fst snd]. split; [lia |].
    split; [left; split; reflexivity |]. intros j Hj. lia.
  - intros i [segments start] Hi (Hstart & Hst & Hcorners). cbn [fst snd] in *.
    destruct (reported points thr i) eqn:Erep.
    + destruct (corner_split_step self points segments start i)
        as (segments' & -> & Hne & Hjoin & Hkeep); cbv zeta.
      * rewrite Nat.min_l by lia. exact Hstart.
      * rewrite Nat.min_l by lia. lia.
      * exact Hst.
      * rewrite Nat.min_l in Hjoin by lia.
        unfold split_upto. cbn [fst snd]. split; [lia |].
        split; [right; split; assumption |].
        intros j Hj Hr. destruct (Nat.eq_dec j i) as [-> | Hji].
        -- destruct Hjoin as (Hj1 & _ & Hj3 & _). rewrite <- Hj3.
           apply last_In, Hj1.
        -- apply Hkeep, Hcorners; [lia | exact Hr].
    + unfold split_upto. cbn [fst snd]. split; [lia |].
      split; [exact Hst |].
      intros j Hj Hr. destruct (Nat.eq_dec j i) as [-> | Hji]; [congruence |].
      apply Hcorners; [lia | exact Hr].
Qed.

(** X25: [simplify_with_corner_preservation] (with [simplify_coords]
    modelled as the Douglas-Peucker reduction) keeps the first and the last
    point, keeps every point that [_detect_corners] reports, and returns no
    more points than it was given. *)
Theorem corner_preservation_keeps (self : t) (points : list Point2D) (thr : R) :
  0 <= epsilon self ->
  let out := simplify_with_corner_preservation self points thr in
  hd origin out = hd origin points
  /\ last out origin = last points origin
  /\ (length out <= length points)%nat
  /\ (forall i, In i (_detect_corners points thr) ->
        In (nth i points origin) out).
Proof.
  intros _. cbv zeta. unfold simplify_with_corner_preservation.
  destruct (Nat.ltb_spec (length points) 3) as [Hshort | Hlong].
  - split; [reflexivity |]. split; [reflexivity |]. split; [lia |].
    intros i Hi. rewrite detect_corners_filter in Hi.
    apply filter_In in Hi. destruct Hi as [Hi _].
    unfold range in Hi. apply in_seq in Hi. lia.
  - destruct (_detect_corners points thr) as [| c0 cs] eqn:Ecorners.
    + cbn [truthy negb]. rewrite SimplifyFacts.simplify_path_rdp.
      destruct (SimplifyFacts.rdp_shape (epsilon self) points)
        as ((_ & Hhigh) & H0 & Hlast); [lia |].
      rewrite !SimplifyFacts.hd_nth0, !SimplifyFacts.last_nth.
      repeat split; try assumption. intros i [].
    + cbn [truthy negb]. rewrite <- Ecorners. rewrite fold_left_app.
      pose proof (corner_split_loop self points thr Hlong) as Hloop.
      destruct (fold_left (corner_split_body self points)
                  (_detect_corners points thr) ([], 0%nat))
        as [segments start].
      destruct Hloop as (Hstart & Hst & Hcorners). cbn [fst snd] in *.
      cbn [fold_left].
      destruct (corner_split_step self points segments start (length points))
        as (segments' & -> & Hne & (Hj1 & Hj2 & Hj3 & Hj4) & Hkeep); cbv zeta.
      * rewrite Nat.min_r by lia. exact Hstart.
      * rewrite Nat.min_r by lia. lia.
      * exact Hst.
      * rewrite Nat.min_r in Hj3, Hj4 by lia.
        rewrite ProjectorEdgeFacts.fold_app_concat. cbn [app].
        rewrite !SimplifyFacts.hd_nth0, (SimplifyFacts.last_nth points).
        repeat split; try assumption; [lia |].
        intros i Hi. apply Hkeep, Hcorners.
        -- rewrite detect_corners_filter in Hi. apply filter_In in Hi.
           destruct Hi as [Hi _]. unfold range in Hi. apply in_seq in Hi. lia.
        -- rewrite detect_corners_filter in Hi. apply filter_In in Hi. tauto.
Qed.

(** An instance: an L-shaped path at threshold 30 and tolerance 0.4. *)
Lemma corner_preservation_keeps_witness :
  let self := init (Some 0.4) 20 in
  let points := [(0, 0); (1, 0); (2, 0); (2, 1); (2, 2)] in
  0 <= epsilon self
  /\ hd origin (simplify_with_corner_preservation self points 30)
     = hd origin points
  /\ last (simplify_with_corner_preservation self points 30) origin
     = last points origin.
Proof.
  cbv zeta.
  assert (H : 0 <= epsilon (init (Some 0.4) 20)) by (cbn [init epsilon]; lra).
  split; [exact H |].
  destruct (corner_preservation_keeps (init (Some 0.4) 20)
              [(0, 0); (1, 0); (2, 0); (2, 1); (2, 2)] 30 H)
    as (Hhd & Hlast & _).
  split; [exact Hhd | exact Hlast].
Defined.

End SimplifierEdgeFacts.

(** * The conversion pipeline *)

Module PipelineFacts.

Import PathTransitionHandler OrderingSpec AssemblySpec.

Lemma simplify_path_two_points (self : PathSimplifier.t) (s : Stroke) :
  (2 <= length s)%nat ->
  (2 <= length (PathSimplifier.simplify_path self s) <= length s)%nat.
Proof.
  intros H. rewrite SimplifyFacts.simplify_path_rdp.
  apply (SimplifyFacts.rdp_shape (PathSimplifier.epsilon self) s H).
Qed.

Lemma simplify_path_length (self : PathSimplifier.t) (s : Stroke) :
  (length (PathSimplifier.simplify_path self s) <= length s)%nat
  /\ (s <> [] -> PathSimplifier.simplify_path self s <> []).
Proof.
  destruct (le_lt_dec 2 (length s)) as [Hlong | Hshort].
  - pose proof (simplify_path_two_points self s Hlong) as [Hlow Hhigh].
    split; [exact Hhigh |]. intros _ E. rewrite E in Hlow.
    cbn [length] in Hlow. lia.
  - unfold PathSimplifier.simplify_path.
    destruct (Nat.ltb_spec (length s) 3); [| lia]. split; [lia | tauto].
Qed.

(** X26: [simplify_paths] (with [simplify_coords] modelled as the
    Douglas-Peucker reduction) returns as many strokes as it is given, does
    not increase the number of points, and leaves no non-empty stroke
    empty. *)
Theorem simplify_paths_keeps_strokes (self : PathSimplifier.t)
  (paths : list Stroke) :
  length (PathSimplifier.simplify_paths self paths) = length paths
  /\ (total_points (PathSimplifier.simplify_paths self paths)
      <= total_points paths)%nat
  /\ (Forall nonempty paths ->
      Forall nonempty (PathSimplifier.simplify_paths self paths)).
Proof.
  unfold PathSimplifier.simplify_paths. split; [apply length_map |]. split.
  - induction paths as [| s paths IH]; [cbn; lia |].
    cbn [map]. rewrite !AssemblyFacts.total_points_cons.
    pose proof (proj1 (simplify_path_length self s)). lia.
  - intros Hne. induction Hne as [| s paths Hs _ IH]; cbn [map]; constructor.
    + apply (proj2 (simplify_path_length self s)), Hs.
    + exact IH.
Qed.

(** X27: the default conversion never raises, whatever the font segments:
    extracting the paths, simplifying them, ordering them, assembling the
    waypoints and estimating the time at a non-zero speed and acceleration
    all return; the waypoints are no more than the extracted points, and
    there is at least one when there is at least one segment.
    ([simplify_coords] is modelled as the Douglas-Peucker reduction.) *)
Theorem pipeline_returns (lines : list FontExtractor.Line)
  (simplifier : PathSimplifier.t) (handler : t) (v a : R) :
  v <> 0 -> a <> 0 ->
  let paths := FontExtractor.extract_continuous_paths lines in
  let simplified := PathSimplifier.simplify_paths simplifier paths in
  exists ordered estimate,
    optimize_stroke_order simplified nearest_neighbor = Returned ordered
    /\ calculate_mission_time (add_transitions handler ordered) v a
       = Returned estimate
    /\ (length (add_transitions handler ordered) <= total_points paths)%nat
    /\ (lines <> [] -> add_transitions handler ordered <> []).
Proof.
  intros _ Ha. cbv zeta.
  set (paths := FontExtractor.extract_continuous_paths lines).
  set (simplified := PathSimplifier.simplify_paths simplifier paths).
  pose proof (FontFacts.continuous_paths_two_points lines) as Htwo. fold paths in Htwo.
  assert (Hne : Forall nonempty simplified).
  { unfold simplified, PathSimplifier.simplify_paths.
    apply Forall_forall. intros s Hs. apply in_map_iff in Hs.
    destruct Hs as (s0 & <- & Hs0).
    apply (proj2 (simplify_path_length simplifier s0)).
    pose proof (proj1 (Forall_forall _ _) Htwo s0 Hs0) as H2.
    intros E. rewrite E in H2. cbn [length] in H2. lia. }
  destruct (OrderingEdgeFacts.optimize_reorders simplified Hne)
    as (ordered & Hord & Hre).
  destruct (AssemblyFacts.mission_time_value (add_transitions handler ordered) v a Ha)
    as (estimate & Hest & _).
  exists ordered, estimate. split; [exact Hord |]. split; [exact Hest |].
  destruct (OrderingEdgeFacts.reordering_nonempty _ _ Hre Hne) as [Hne' Hlen].
  rewrite AssemblyFacts.add_transitions_assemble, length_map. split.
  - pose proof (AssemblyFacts.assemble_length [] ordered) as [Hle _].
    rewrite (OrderingEdgeFacts.reordering_total_points _ _ Hre) in Hle.
    assert (Hsimp : (total_points simplified <= total_points paths)%nat).
    { unfold simplified, PathSimplifier.simplify_paths.
      clear. induction paths as [| s l IH]; [cbn; lia |].
      cbn [map]. rewrite !AssemblyFacts.total_points_cons.
      pose proof (proj1 (simplify_path_length simplifier s)). lia. }
    lia.
  - intros Hlines E. apply map_eq_nil in E.
    apply AssemblyFacts.assemble_nil in E.
    assert (Hpaths : paths <> []).
    { intros Ep. apply Hlines.
      destruct lines as [| l0 rest]; [reflexivity |].
      destruct (FontFacts.extract_continuous_built (l0 :: rest))
        as (ps & cur & Heq & _); [discriminate |].
      unfold paths in Ep. rewrite Heq in Ep.
      apply app_eq_nil in Ep. destruct Ep; discriminate. }
    assert (Hord_ne : ordered <> []).
    { intros Eo. rewrite Eo in Hlen. cbn [length] in Hlen.
      unfold simplified, PathSimplifier.simplify_paths in Hlen.
      rewrite length_map in Hlen. destruct paths; [congruence | discriminate]. }
    destruct ordered as [| s0 rest0]; [congruence |].
    inversion E as [| ? ? Es0 _]; subst.
    inversion Hne' as [| ? ? Hs0 _]; subst. apply Hs0. reflexivity.
Qed.

(** An instance: two connected segments and one apart, default settings. *)
Lemma pipeline_returns_witness :
  let lines : list FontExtractor.Line :=
    [((0, 0), (0, 1)); ((0, 1), (1, 1)); ((3, 0), (3, 1))] in
  3 <> 0 /\ 3 <> 0
  /\ exists ordered estimate,
       optimize_stroke_order
         (PathSimplifier.simplify_paths (PathSimplifier.init None 20)
            (FontExtractor.extract_continuous_paths lines))
         nearest_neighbor = Returned ordered
       /\ calculate_mission_time (add_transitions (init 30 10) ordered) 3 3
          = Returned estimate.
Proof.
  cbv zeta.
  assert (H : 3 <> 0) by lra.
  split; [exact H |]. split; [exact H |].
  destruct (pipeline_returns
              [((0, 0), (0, 1)); ((0, 1), (1, 1)); ((3, 0), (3, 1))]
              (PathSimplifier.init None 20) (init 30 10) 3 3 H H)
    as (ordered & estimate & Hord & Hest & _).
  exists ordered, estimate. split; [exact Hord | exact Hest].
Defined.

End PipelineFacts.
